(** * Figma "Variable to CSS" exporter (v1.7): token resolution and CSS synthesis

    A shallow embedding of the generation pass of the plugin's [code.ts]:
    collection classification, the alias-resolution pass, the value
    formatter, the naming helpers (unitless and proportion detection) and the
    four emitters (fluid, fixed, theme, single), followed by the properties
    established about them.

    Conventions of the embedding.
    - JavaScript strings are [string]s of 8-bit characters; [toLowerCase],
      the regular-expression classes [[A-Za-z]], [\s] and [.] are the ASCII
      ones.
    - JavaScript numbers are IEEE-754 binary64 values, the kernel's
      primitive [float]s: [+], [-], [*], [/], the comparisons and [Math.abs]
      are the machine operations; [Math.round] and [String(x)] are written
      out over the exact value of the double ([Prim2SF]), the latter as the
      shortest decimal that reads back as the same double.  The channels of
      a colour, which [rgbToHex] scales and rounds once, are exact rationals.
    - [Set<string>] is a [gset string], [Map<string, _>] a [gmap string _];
      a [Record<string, ProcessedValue>] is kept as an association list in
      insertion order, which is the order [Object.keys] enumerates.
    - A [TypeError] (property access on [undefined]) is [None] in the option
      monad; the emitters that can raise one return an [option].
    - The advisory accumulators ([viewportCandidates], [proportionCandidates],
      [nonLinearCandidates], [viewportRelativeVars], [proportionVars],
      [nonLinearVars]) are only ever appended to and never read by the
      emitters; they are left out.  Of the text-style export the naming
      function is embedded; the styles themselves are host objects.
    - The host document is given as the collections with the variables the
      host finds for them; a breakpoint width is an integer, which [JS.ofZ]
      turns into a number where the arithmetic needs one. *)

From Stdlib Require Import PrimFloat.
From Stdlib Require SpecFloat FloatOps.
From Stdlib Require Import String Ascii List ZArith QArith Qround Lia Lqa Bool DecimalString Sorted.
From stdpp Require Import gmap strings.
Import ListNotations.
(* A decimal literal denotes the nearest double, as it does in JavaScript. *)
Set Warnings "-inexact-float".
Open Scope string_scope.
Open Scope list_scope.

(* ================================================================== *)
(** ** JavaScript primitives *)
(* ================================================================== *)

Module JS.

(** The double-quote character, as a one-character string. *)
Definition dquote : string := String (ascii_of_nat 34) EmptyString.

Definition isUpper (c : ascii) : bool :=
  (65 <=? nat_of_ascii c)%nat && (nat_of_ascii c <=? 90)%nat.

Definition isLower (c : ascii) : bool :=
  (97 <=? nat_of_ascii c)%nat && (nat_of_ascii c <=? 122)%nat.

Definition isDigit (c : ascii) : bool :=
  (48 <=? nat_of_ascii c)%nat && (nat_of_ascii c <=? 57)%nat.

Definition isAlpha (c : ascii) : bool := isUpper c || isLower c.

(** [\s] restricted to ASCII: TAB, LF, VT, FF, CR and space. *)
Definition isSpace (c : ascii) : bool :=
  let n := nat_of_ascii c in
  ((9 <=? n)%nat && (n <=? 13)%nat) || (n =? 32)%nat.

(** The characters [.] does not match: LF and CR. *)
Definition isLineTerminator (c : ascii) : bool :=
  let n := nat_of_ascii c in (n =? 10)%nat || (n =? 13)%nat.

Definition lowerChar (c : ascii) : ascii :=
  if isUpper c then ascii_of_nat (nat_of_ascii c + 32) else c.

Definition upperChar (c : ascii) : ascii :=
  if isLower c then ascii_of_nat (nat_of_ascii c - 32) else c.

Fixpoint mapChars (f : ascii -> ascii) (s : string) : string :=
  match s with
  | EmptyString => EmptyString
  | String c r => String (f c) (mapChars f r)
  end.

Definition toLowerCase : string -> string := mapChars lowerChar.
Definition toUpperCase : string -> string := mapChars upperChar.

(** [text.indexOf(keyword, pos)], [None] standing for [-1].  Every search
    string in the modelled code is non-empty, where [String.index] and
    [indexOf] agree. *)
Definition indexOf (text keyword : string) (pos : nat) : option nat :=
  String.index pos keyword text.

(** [text.indexOf(keyword) !== -1] *)
Definition includes (text keyword : string) : bool :=
  match indexOf text keyword 0 with Some _ => true | None => false end.

(** [text.indexOf(keyword) === 0] *)
Definition startsWith (text keyword : string) : bool := String.prefix keyword text.

Fixpoint existsChar (p : ascii -> bool) (s : string) : bool :=
  match s with
  | EmptyString => false
  | String c r => p c || existsChar p r
  end.

Fixpoint dropWhile (p : ascii -> bool) (s : string) : string :=
  match s with
  | EmptyString => EmptyString
  | String c r => if p c then dropWhile p r else s
  end.

Fixpoint takeWhile (p : ascii -> bool) (s : string) : string :=
  match s with
  | EmptyString => EmptyString
  | String c r => if p c then String c (takeWhile p r) else EmptyString
  end.

Fixpoint revOnto (s acc : string) : string :=
  match s with
  | EmptyString => acc
  | String c r => revOnto r (String c acc)
  end.

Definition reverse (s : string) : string := revOnto s EmptyString.

Definition dropWhileEnd (p : ascii -> bool) (s : string) : string :=
  reverse (dropWhile p (reverse s)).

Definition trim (s : string) : string := dropWhileEnd isSpace (dropWhile isSpace s).

Fixpoint lastChar (s : string) : option ascii :=
  match s with
  | EmptyString => None
  | String c EmptyString => Some c
  | String _ r => lastChar r
  end.

(** [lines.join(sep)] *)
Fixpoint join (sep : string) (l : list string) : string :=
  match l with
  | [] => ""
  | [x] => x
  | x :: r => x +:+ sep +:+ join sep r
  end.

(** A truthy string is a non-empty one. *)
Definition truthy (s : string) : bool := negb (String.eqb s "").

(** *** Numbers *)

Definition intToString (z : Z) : string := NilZero.string_of_int (Z.to_int z).

(** The integer [z] as a Number: the nearest double, ties to even. *)
Definition ofZ (z : Z) : float :=
  FloatOps.SF2Prim (SpecFloat.binary_normalize FloatOps.prec FloatOps.emax z 0 false).

(** [Math.round]: the argument itself when it is not finite or is already
    integral, otherwise [floor (x + 1/2)] taken on the exact value, a zero
    result keeping the sign of the argument. *)
Definition mathRound (x : float) : float :=
  match FloatOps.Prim2SF x with
  | SpecFloat.S754_finite s m e =>
      if (0 <=? e)%Z then x
      else
        let d := (2 ^ (- e))%Z in
        let n := if s then Z.neg m else Z.pos m in
        let r := ((2 * n + d) / (2 * d))%Z in
        if (r =? 0)%Z then (if s then PrimFloat.neg_zero else PrimFloat.zero) else ofZ r
  | _ => x
  end.

(** [Math.pow(10, decimals)]; the source passes 2, 3 and 4, whose powers are
    doubles. *)
Definition pow10 (decimals : nat) : float := ofZ (10 ^ Z.of_nat decimals).

(** [function round(value, decimals)] of the source. *)
Definition round (value : float) (decimals : nat) : float :=
  let factor := pow10 decimals in
  (mathRound (value * factor) / factor)%float.

(** [Math.min] and [Math.max]: [NaN] if either argument is, and [-0] below
    [+0]. *)
Definition min (a b : float) : float :=
  if PrimFloat.is_nan a || PrimFloat.is_nan b then PrimFloat.nan
  else if (a <? b)%float then a
  else if (b <? a)%float then b
  else if PrimFloat.get_sign a then a else b.

Definition max (a b : float) : float :=
  if PrimFloat.is_nan a || PrimFloat.is_nan b then PrimFloat.nan
  else if (a <? b)%float then b
  else if (b <? a)%float then a
  else if PrimFloat.get_sign a then b else a.

(** [Math.abs] *)
Definition abs (a : float) : float := PrimFloat.abs a.

(** [a === b] on numbers: [NaN] differs from itself, the two zeros are
    equal. *)
Definition strictEq (a b : float) : bool := (a =? b)%float.

(** [ToBoolean] of a number. *)
Definition numTruthy (a : float) : bool :=
  negb (PrimFloat.is_nan a) && negb (a =? 0)%float.

(** The exact value of the double [m * 2^e], and of [10^n]. *)
Definition dyadic (m e : Z) : Q :=
  if (0 <=? e)%Z then inject_Z (m * 2 ^ e) else Qmake m (Z.to_pos (2 ^ (- e))).

Definition qpow10 (n : Z) : Q :=
  if (0 <=? n)%Z then inject_Z (10 ^ n) else Qmake 1 (Z.to_pos (10 ^ (- n))).

(** Does the real [q] round to the positive double [m * 2^e]?  (To nearest,
    ties to the even significand; the gap below a power of two is half the
    gap above it.) *)
Definition roundsTo (m e : Z) (q : Q) : bool :=
  let hi := dyadic (2 * m + 1) (e - 1) in
  let lo := if (m =? 2 ^ 52)%Z && (-1074 <? e)%Z
            then dyadic (4 * m - 1) (e - 2) else dyadic (2 * m - 1) (e - 1) in
  if Z.even m then Qle_bool lo q && Qle_bool q hi
  else negb (Qle_bool q lo) && negb (Qle_bool hi q).

(** The least [n] from the given one on with [v < 10^n]. *)
Fixpoint decimalExponent (fuel : nat) (n : Z) (v : Q) : Z :=
  match fuel with
  | O => n
  | S fuel' => if negb (Qle_bool (qpow10 n) v) then n else decimalExponent fuel' (n + 1) v
  end.

(** The digits of [Number::toString]: the integer [s] with the fewest
    digits [k] for which [s * 10^(n-k)] rounds to the double [m * 2^e], the
    one nearest the double if two qualify, and the exponent [n].  Seventeen
    digits always suffice. *)
Fixpoint shortest (fuel : nat) (k : Z) (m e n0 : Z) : Z * Z :=
  let v := dyadic m e in
  let scale := qpow10 (n0 - k) in
  let s := Qfloor (v / scale) in
  let below := (inject_Z s * scale)%Q in
  let above := (inject_Z (s + 1) * scale)%Q in
  let pick (t : Z) := if (t =? 10 ^ k)%Z then (10 ^ (k - 1), n0 + 1)%Z else (t, n0) in
  match fuel with
  | O => (s, n0)
  | S fuel' =>
      match roundsTo m e below, roundsTo m e above with
      | true, true =>
          match Qcompare (v - below) (above - v) with
          | Lt => pick s
          | Gt => pick (s + 1)%Z
          | Eq => if Z.even s then pick s else pick (s + 1)%Z
          end
      | true, false => pick s
      | false, true => pick (s + 1)%Z
      | false, false => shortest fuel' (k + 1) m e n0
      end
  end.

Fixpoint zeros (n : nat) : string :=
  match n with O => "" | S n' => String "0" (zeros n') end.

(** [Number::toString] of the positive finite double [m * 2^e].  The
    search for the decimal exponent starts just below [log2 v * 1233 / 4096],
    an estimate of [log10 v] that is less than one off. *)
Definition positiveToString (m e : Z) : string :=
  let n0 := decimalExponent 8 ((Z.log2 m + e) * 1233 / 4096 - 1) (dyadic m e) in
  let '(s, n) := shortest 17 1 m e n0 in
  let digits := intToString s in
  let k := Z.of_nat (String.length digits) in
  if (k <=? n)%Z && (n <=? 21)%Z then digits +:+ zeros (Z.to_nat (n - k))
  else if (0 <? n)%Z && (n <=? 21)%Z then
    substring 0 (Z.to_nat n) digits +:+ "." +:+ substring (Z.to_nat n) (Z.to_nat (k - n)) digits
  else if (-6 <? n)%Z && (n <=? 0)%Z then "0." +:+ zeros (Z.to_nat (- n)) +:+ digits
  else
    let ex := (if (0 <=? n - 1)%Z then "+" else "-") +:+ intToString (Z.abs (n - 1)) in
    if (k =? 1)%Z then digits +:+ "e" +:+ ex
    else substring 0 1 digits +:+ "." +:+ substring 1 (Z.to_nat (k - 1)) digits +:+ "e" +:+ ex.

(** [String(x)] and the [number + string] concatenation. *)
Definition numToString (x : float) : string :=
  match FloatOps.Prim2SF x with
  | SpecFloat.S754_nan => "NaN"
  | SpecFloat.S754_zero _ => "0"
  | SpecFloat.S754_infinity s => if s then "-Infinity" else "Infinity"
  | SpecFloat.S754_finite s m e => (if s then "-" else "") +:+ positiveToString (Z.pos m) e
  end.

(** *** [Array.prototype.sort] with a comparator: a stable insertion sort.
    [le a b] is [cmp(a, b) <= 0]. *)
Fixpoint insertBy {A} (le : A -> A -> bool) (x : A) (l : list A) : list A :=
  match l with
  | [] => [x]
  | y :: r => if le x y then x :: l else y :: insertBy le x r
  end.

Definition sortBy {A} (le : A -> A -> bool) (l : list A) : list A :=
  foldr (insertBy le) [] l.

End JS.

(* ================================================================== *)
(** ** Data model *)
(* ================================================================== *)

Inductive LayerType := Foundations | Aliases | AliasesExtended | Mappings | Other.
Inductive ModeType := Breakpoint | Theme | Single.
Inductive ResolvedType := COLOR | FLOAT | STRING | BOOLEAN.

Inductive OutputMode := Fluid | Fixed.
Inductive BreakpointDirection := MobileFirst | DesktopFirst.
Inductive AliasMode := Preserved | Resolved.
Inductive DarkModeOutput := PrefersColorScheme | Class | Both.
Inductive ColorFormat := Hex | Oklch.

#[global] Instance LayerType_eq_dec : EqDecision LayerType.
Proof. solve_decision. Defined.
#[global] Instance ModeType_eq_dec : EqDecision ModeType.
Proof. solve_decision. Defined.
#[global] Instance ResolvedType_eq_dec : EqDecision ResolvedType.
Proof. solve_decision. Defined.

(** A mode as the host supplies it ([collection.modes[i]]). *)
Record Mode := { m_modeId : string; m_name : string }.

(** [interface ModeInfo]; [breakpointPx] is optional. *)
Record ModeInfo := {
  modeId : string;
  name : string;
  breakpointPx : option Z
}.

(** The mode records the breakpoint emitters work on, where [breakpointPx]
    is always a number. *)
Record BpMode := {
  bm_modeId : string;
  bm_name : string;
  bm_breakpointPx : Z
}.

(** [ProcessedValue.resolved : string | number | null] *)
Inductive ResolvedValue :=
| RNull
| RNum (x : float)
| RStr (s : string).

Record ProcessedValue := {
  pv_isAlias : bool;
  aliasId : option string;
  aliasName : option string;
  resolved : ResolvedValue
}.

Record VariableInfo := {
  v_id : string;
  v_name : string;
  description : string;
  collectionId : string;
  collectionName : string;
  v_domain : string;
  v_layerType : LayerType;
  resolvedType : ResolvedType;
  valuesByMode : list (string * ProcessedValue);
  v_isAlias : bool;
  cssName : string
}.

Record ExportOptions := {
  outputMode : OutputMode;
  breakpointDirection : BreakpointDirection;
  aliasMode : AliasMode;
  darkModeOutput : DarkModeOutput;
  includeTimestamp : bool;
  includeIds : bool;
  colorFormat : ColorFormat;
  includeLegacyFallbacks : bool;
  viewportRelativeOverrides : option (list string);
  nonLinearOverrides : option (list string)
}.

(** A local variable collection of the host document. *)
Record Collection := {
  c_id : string;
  c_name : string;
  c_remote : bool;
  c_modes : list Mode
}.

(** [BREAKPOINT_MODES]: four named widths, enumerated in insertion order.
    The message handler overwrites the values, never the keys. *)
Record BreakpointTable := {
  bp_desktop : Z;
  bp_laptop : Z;
  bp_tablet : Z;
  bp_mobile : Z
}.

Definition BREAKPOINT_MODES : BreakpointTable :=
  {| bp_desktop := 1680; bp_laptop := 1366; bp_tablet := 840; bp_mobile := 480 |}.

Definition breakpointEntries (bp : BreakpointTable) : list (string * Z) :=
  [ ("desktop", bp_desktop bp); ("laptop", bp_laptop bp);
    ("tablet", bp_tablet bp); ("mobile", bp_mobile bp) ].

Definition THEME_MODES : list string := ["light"; "dark"].

(** [variable.valuesByMode[modeId]], [None] standing for [undefined]. *)
Fixpoint lookupMode (vals : list (string * ProcessedValue)) (mid : string)
  : option ProcessedValue :=
  match vals with
  | [] => None
  | (k, v) :: r => if String.eqb k mid then Some v else lookupMode r mid
  end.

(* ================================================================== *)
(** ** Collection classification *)
(* ================================================================== *)

(** The match of [/^([A-Za-z]+)\s*-\s*(.+)$/]: the two captured groups.
    The letters and the first [\s*] are matched greedily and cannot give
    anything back; the second [\s*] gives back one character when nothing
    else is left for [(.+)]. *)
Definition matchCollectionName (nm : string) : option (string * string) :=
  let letters := JS.takeWhile JS.isAlpha nm in
  if String.eqb letters "" then None
  else
    match JS.dropWhile JS.isSpace (JS.dropWhile JS.isAlpha nm) with
    | String "-" rest =>
        match JS.dropWhile JS.isSpace rest with
        | EmptyString =>
            match JS.lastChar rest with
            | Some c => if JS.isLineTerminator c then None
                        else Some (letters, String c EmptyString)
            | None => None
            end
        | body => if JS.existsChar JS.isLineTerminator body then None
                  else Some (letters, body)
        end
    | _ => None
    end.

Record ParsedName := {
  domain : string;
  layer : string;
  layerType : LayerType
}.

Definition parseCollectionName (nm : string) : ParsedName :=
  let mt := matchCollectionName nm in
  let domain := match mt with Some (d, _) => JS.toLowerCase d | None => JS.toLowerCase nm end in
  let layer := match mt with Some (_, l) => JS.trim l | None => "default" end in
  let lowerName := JS.toLowerCase nm in
  let layerType :=
    if JS.includes lowerName "foundation" then Foundations
    else if JS.includes lowerName "extended" || JS.includes lowerName "2.1" then AliasesExtended
    else if JS.includes lowerName "alias" then Aliases
    else if JS.includes lowerName "mapping" then Mappings
    else Other in
  {| domain := domain; layer := layer; layerType := layerType |}.

Definition detectBreakpoint (bp : BreakpointTable) (modeName : string) : option Z :=
  let lower := JS.toLowerCase modeName in
  match find (fun e => JS.includes lower (fst e)) (breakpointEntries bp) with
  | Some e => Some (snd e)
  | None => None
  end.

Definition isNone {A} (o : option A) : bool :=
  match o with None => true | Some _ => false end.

Definition detectModeType (modes : list ModeInfo) : ModeType :=
  if (length modes =? 1)%nat then Single
  else if negb (existsb (fun m => isNone (breakpointPx m)) modes) then Breakpoint
  else if existsb (fun m =>
                     let modeName := JS.toLowerCase (name m) in
                     existsb (fun t => JS.includes modeName t) THEME_MODES) modes
       then Theme
  else Single.

(** The [ModeInfo] list both callers build from a collection's modes. *)
Definition modeInfosOf (bp : BreakpointTable) (modes : list Mode) : list ModeInfo :=
  map (fun m => {| modeId := m_modeId m; name := m_name m;
                   breakpointPx := detectBreakpoint bp (m_name m) |}) modes.

(* ================================================================== *)
(** ** Naming helpers: unitless, font-style, viewport and proportion detection *)
(* ================================================================== *)

Definition UNITLESS_KEYWORDS : list string :=
  [ "weight"; "column-count"; "column count"; "columncount";
    "opacity"; "z-index"; "zindex"; "z index";
    "order"; "flex-grow"; "flex-shrink"; "flex grow"; "flex shrink";
    "ratio"; "columns"; "rows"; "count" ].

(** The separator characters of ['-/. ']. *)
Definition isSeparator (c : ascii) : bool :=
  Ascii.eqb c "-" || Ascii.eqb c "/" || Ascii.eqb c "." || Ascii.eqb c " ".

(** ['-/. '.indexOf(text.charAt(i)) !== -1]; out of range [charAt] is the
    empty string, which [indexOf] finds at position 0. *)
Definition separatorAt (text : string) (i : nat) : bool :=
  match String.get i text with
  | Some c => isSeparator c
  | None => true
  end.

(** The [while] loop of [matchesAsSegment]; [pos] grows at every turn, so
    [S (length text)] turns are enough. *)
Fixpoint matchesAsSegment_loop (fuel : nat) (text keyword : string) (pos : nat) : bool :=
  match fuel with
  | O => false
  | S fuel' =>
      if (pos + String.length keyword <=? String.length text)%nat then
        match JS.indexOf text keyword pos with
        | None => false
        | Some idx =>
            let before := (idx =? 0)%nat || separatorAt text (idx - 1) in
            let afterIdx := (idx + String.length keyword)%nat in
            let after := (afterIdx =? String.length text)%nat || separatorAt text afterIdx in
            if before && after then true
            else matchesAsSegment_loop fuel' text keyword (idx + 1)
        end
      else false
  end.

Definition matchesAsSegment (text keyword : string) : bool :=
  matchesAsSegment_loop (S (String.length text)) text keyword 0.

Definition isUnitless (variable : VariableInfo) : bool :=
  let nameLower := JS.toLowerCase (v_name variable) in
  let cssNameLower := JS.toLowerCase (cssName variable) in
  existsb (fun kw => matchesAsSegment nameLower kw || matchesAsSegment cssNameLower kw)
          UNITLESS_KEYWORDS.

Definition FONT_STYLE_KEYWORDS : list string := ["italic"; "oblique"; "normal"].

Definition isFontStyleValue (value : string) : bool :=
  let lower := JS.trim (JS.toLowerCase value) in
  existsb (fun kw => String.eqb lower kw || JS.startsWith lower "oblique ")
          FONT_STYLE_KEYWORDS.

Inductive CandidateReason := ReasonName | ReasonDescription.

Definition getViewportCandidateReason (variable : VariableInfo) : option CandidateReason :=
  let nameLower := JS.toLowerCase (v_name variable) in
  let descLower := JS.toLowerCase (description variable) in
  if JS.includes nameLower "viewport" then Some ReasonName
  else if JS.includes descLower "viewport" then Some ReasonDescription
  else None.

(** [overrides && overrides.length > 0 ? overrides.indexOf(x) !== -1 : false] *)
Definition selectedBy (overrides : option (list string)) (x : string) : bool :=
  match overrides with
  | Some (o :: r) => existsb (String.eqb x) (o :: r)
  | _ => false
  end.

Definition shouldUseViewportRelative (variable : VariableInfo) (options : ExportOptions) : bool :=
  selectedBy (viewportRelativeOverrides options) (cssName variable).

Record ProportionEntry := { patterns : list string; columns : Z }.

Definition PROPORTION_COLUMNS : list ProportionEntry :=
  [ {| patterns := ["three-quarters"; "three quarters"; "threequarters";
                    "three-quarter"; "three quarter"; "threequarter"];
       columns := 9 |};
    {| patterns := ["two-thirds"; "two thirds"; "twothirds";
                    "two-third"; "two third"; "twothird"];
       columns := 8 |};
    {| patterns := ["quarter"]; columns := 3 |};
    {| patterns := ["whole"]; columns := 12 |};
    {| patterns := ["third"]; columns := 4 |};
    {| patterns := ["half"]; columns := 6 |} ].

Definition getProportionColumnCount (variable : VariableInfo) : option Z :=
  let nameLower := JS.toLowerCase (v_name variable) in
  if negb (JS.includes nameLower "proportion") then None
  else if JS.includes nameLower "viewport" then None
  else
    match find (fun prop => existsb (fun p => JS.includes nameLower p) (patterns prop))
               PROPORTION_COLUMNS with
    | Some prop => Some (columns prop)
    | None => None
    end.

Definition shouldUseProportion (variable : VariableInfo) (options : ExportOptions) : bool :=
  negb (isNone (getProportionColumnCount variable)).

Definition shouldUsePiecewiseClamp (variable : VariableInfo) (options : ExportOptions) : bool :=
  selectedBy (nonLinearOverrides options) (cssName variable).

(* ================================================================== *)
(** ** The value formatter *)
(* ================================================================== *)

(** [String(value.resolved)] *)
Definition resolvedToString (r : ResolvedValue) : string :=
  match r with
  | RNull => "null"
  | RNum x => JS.numToString x
  | RStr s => s
  end.

Definition formatCSSValue (value : ProcessedValue) (variable : VariableInfo)
    (options : ExportOptions) : option string :=
  let preservedAlias :=
    match aliasMode options, pv_isAlias value, aliasName value with
    | Preserved, true, Some n => if JS.truthy n then Some n else None
    | _, _, _ => None
    end in
  match preservedAlias with
  | Some n => Some ("var(" +:+ n +:+ ")")
  | None =>
      match resolved value with
      | RNull => None
      | r =>
          match resolvedType variable with
          | COLOR => Some (resolvedToString r)
          | FLOAT =>
              match r with
              | RNum x =>
                  let rounded := JS.round x 2 in
                  if isUnitless variable then Some (JS.numToString rounded)
                  else Some (JS.numToString rounded +:+ "px")
              | _ =>
                  (* a string under a FLOAT type: [processValue] never
                     stores one; the arithmetic coerces it, to NaN unless it
                     reads as a number, and the model prints NaN *)
                  if isUnitless variable then Some "NaN" else Some "NaNpx"
              end
          | STRING =>
              match r with
              | RStr s =>
                  if isFontStyleValue s then Some (JS.trim (JS.toLowerCase s))
                  else Some (JS.dquote +:+ s +:+ JS.dquote)
              | _ => Some (JS.dquote +:+ resolvedToString r +:+ JS.dquote)
              end
          | BOOLEAN => Some (resolvedToString r)
          end
      end
  end.

(** [cssValue !== firstValue] on [string | null]. *)
Definition sameCss (a b : option string) : bool :=
  match a, b with
  | Some x, Some y => String.eqb x y
  | None, None => true
  | _, _ => false
  end.

(* ================================================================== *)
(** ** Scaling engine *)
(* ================================================================== *)

(** [hasModeVariance]; formatting the first mode's value dereferences it
    unguarded. *)
Definition hasModeVariance (variable : VariableInfo) (modes : list BpMode)
    (options : ExportOptions) : option bool :=
  match modes with
  | [] | [_] => Some false
  | m0 :: rest =>
      v0 ← lookupMode (valuesByMode variable) (bm_modeId m0);
      let firstValue := formatCSSValue v0 variable options in
      Some (existsb (fun m =>
                       match lookupMode (valuesByMode variable) (bm_modeId m) with
                       | None => false
                       | Some value => negb (sameCss (formatCSSValue value variable options) firstValue)
                       end) rest)
  end.

Definition needsMediaQueries (variable : VariableInfo) (modes : list BpMode)
    (options : ExportOptions) : option bool :=
  hv ← hasModeVariance variable modes options;
  if negb hv then Some false
  else if negb (bool_decide (resolvedType variable = FLOAT)) then Some true
  else Some (existsb (fun m =>
                        match lookupMode (valuesByMode variable) (bm_modeId m) with
                        | Some value => pv_isAlias value
                        | None => false
                        end) modes).

(** [x ? x.resolved : null] *)
Definition resolvedAt (variable : VariableInfo) (mid : string) : ResolvedValue :=
  match lookupMode (valuesByMode variable) mid with
  | Some v => resolved v
  | None => RNull
  end.

Definition unitOf (variable : VariableInfo) : string :=
  if isUnitless variable then "" else "px".

(** The clamp expression [generateFluidValue] and
    [generatePiecewiseClampValue] both build: the line through [(vpA, valA)]
    and [(vpB, valB)] with the intercept taken at [B], between the bounds
    [lo] and [hi] each caller computes with [Math.min] and [Math.max]. *)
Definition clampExpr (unit : string) (valA valB : float) (vpA vpB : Z) (lo hi : float)
  : string :=
  let slope := ((valA - valB) / (JS.ofZ vpA - JS.ofZ vpB))%float in
  let intercept := (valB - slope * JS.ofZ vpB)%float in
  let slopeVW := JS.round (slope * 100) 4 in
  let interceptPx := JS.round intercept 2 in
  let minPx := JS.round lo 2 in
  let maxPx := JS.round hi 2 in
  let preferred :=
    if (0 <=? interceptPx)%float
    then JS.numToString interceptPx +:+ unit +:+ " + " +:+ JS.numToString slopeVW +:+ "vw"
    else JS.numToString slopeVW +:+ "vw - " +:+ JS.numToString (JS.abs interceptPx) +:+ unit in
  "clamp(" +:+ JS.numToString minPx +:+ unit +:+ ", calc(" +:+ preferred +:+ "), "
           +:+ JS.numToString maxPx +:+ unit +:+ ")".

Definition generatePiecewiseClampValue (fromMode toMode : BpMode) (variable : VariableInfo)
  : string :=
  let fromValue := resolvedAt variable (bm_modeId fromMode) in
  let toValue := resolvedAt variable (bm_modeId toMode) in
  let unit := unitOf variable in
  match fromValue, toValue with
  | RNum fromV, RNum toV =>
      if JS.strictEq fromV toV then JS.numToString (JS.round fromV 2) +:+ unit
      else clampExpr unit fromV toV (bm_breakpointPx fromMode) (bm_breakpointPx toMode)
                     (JS.min fromV toV) (JS.max fromV toV)
  | _, _ => resolvedToString fromValue +:+ unit
  end.

Record FluidResult := { fr_value : string; isViewportRelative : bool }.

Definition generateFluidValue (modes : list BpMode) (variable : VariableInfo)
    (options : ExportOptions) : option FluidResult :=
  maxMode ← head modes;
  minMode ← last modes;
  let maxValue := resolvedAt variable (bm_modeId maxMode) in
  let minValue := resolvedAt variable (bm_modeId minMode) in
  let unitless := isUnitless variable in
  let unit := if unitless then "" else "px" in
  match maxValue, minValue with
  | RNum maxV, RNum minV =>
      if shouldUseViewportRelative variable options then
        Some {| fr_value := "min(100vw, " +:+ JS.numToString (JS.round maxV 2) +:+ unit +:+ ")";
                isViewportRelative := true |}
      else if unitless && JS.strictEq maxV minV then
        Some {| fr_value := JS.numToString (JS.round maxV 2); isViewportRelative := false |}
      else
        Some {| fr_value := clampExpr unit maxV minV (bm_breakpointPx maxMode)
                                      (bm_breakpointPx minMode)
                                      (JS.min minV maxV) (JS.max minV maxV);
                isViewportRelative := false |}
  | _, _ => Some {| fr_value := resolvedToString maxValue +:+ unit; isViewportRelative := false |}
  end.

(* ================================================================== *)
(** ** Emission state and the dedup / circular-skip gate *)
(* ================================================================== *)

(** The two mutable objects every emitter receives by reference. *)
Record EmitState := {
  outputtedCSSNames : gset string;
  errors : list string
}.

Definition addName (st : EmitState) (n : string) : EmitState :=
  {| outputtedCSSNames := {[ n ]} ∪ outputtedCSSNames st; errors := errors st |}.

Definition hasName (st : EmitState) (n : string) : bool :=
  bool_decide (n ∈ outputtedCSSNames st).

Definition shouldSkipVariable (variable : VariableInfo) (value : ProcessedValue)
    (st : EmitState) : bool :=
  if pv_isAlias value && bool_decide (aliasName value = Some (cssName variable)) then true
  else if hasName st (cssName variable)
          && negb (bool_decide (v_layerType variable = Foundations)) then true
  else false.

(** A loop over the variables whose body pushes lines and may register a
    name. *)
Fixpoint runLoop (step : VariableInfo -> EmitState -> list string * EmitState)
    (variables : list VariableInfo) (st : EmitState) : list string * EmitState :=
  match variables with
  | [] => ([], st)
  | variable :: rest =>
      let '(l1, st1) := step variable st in
      let '(l2, st2) := runLoop step rest st1 in
      (l1 ++ l2, st2)
  end.

(** The same loop for a body that can raise. *)
Fixpoint runLoopM (step : VariableInfo -> EmitState -> option (list string * EmitState))
    (variables : list VariableInfo) (st : EmitState) : option (list string * EmitState) :=
  match variables with
  | [] => Some ([], st)
  | variable :: rest =>
      '(l1, st1) ← step variable st;
      '(l2, st2) ← runLoopM step rest st1;
      Some (l1 ++ l2, st2)
  end.

Fixpoint filterM {A} (p : A -> option bool) (l : list A) : option (list A) :=
  match l with
  | [] => Some []
  | x :: r =>
      b ← p x;
      kept ← filterM p r;
      Some (if (b : bool) then x :: kept else kept)
  end.

Definition idComment (options : ExportOptions) (variable : VariableInfo) : list string :=
  if includeIds options then ["  /* " +:+ v_id variable +:+ " */"] else [].

(** ['<indent>' + cssName + ': ' + cssValue + ';'] *)
Definition decl (indent : string) (variable : VariableInfo) (cssValue : string) : string :=
  indent +:+ cssName variable +:+ ": " +:+ cssValue +:+ ";".

(** The body shared by the [:root] loops of the theme and single-mode
    emitters. *)
Definition rootStep (options : ExportOptions) (mid : string)
    (variable : VariableInfo) (st : EmitState) : list string * EmitState :=
  match lookupMode (valuesByMode variable) mid with
  | None => ([], st)
  | Some value =>
      if shouldSkipVariable variable value st then ([], st)
      else
        match formatCSSValue value variable options with
        | Some cssValue =>
            (idComment options variable ++ [decl "  " variable cssValue],
             addName st (cssName variable))
        | None => ([], st)
        end
  end.

(** The body of the later blocks of the fixed and theme emitters: a
    declaration for every variable whose name is registered. *)
Definition redeclare (options : ExportOptions) (indent : string) (mid : string)
    (st : EmitState) (variable : VariableInfo) : list string :=
  match lookupMode (valuesByMode variable) mid with
  | None => []
  | Some value =>
      if negb (hasName st (cssName variable)) then []
      else
        match formatCSSValue value variable options with
        | Some css => [decl indent variable css]
        | None => []
        end
  end.

(* ================================================================== *)
(** ** Single-mode and theme emitters *)
(* ================================================================== *)

Definition generateSingleModeCSS (collection : Collection) (variables : list VariableInfo)
    (options : ExportOptions) (st : EmitState) : option (list string * EmitState) :=
  mode ← head (c_modes collection);
  let '(body, st') := runLoop (rootStep options (m_modeId mode)) variables st in
  Some ([":root {"] ++ body ++ ["}"], st').

(** The last mode whose lower-cased name contains [kw]. *)
Definition findThemeMode (kw : string) (modes : list Mode) : option Mode :=
  foldl (fun acc m => if JS.includes (JS.toLowerCase (m_name m)) kw then Some m else acc)
        None modes.

Definition lightSelector : string := "[data-theme=" +:+ JS.dquote +:+ "light" +:+ JS.dquote +:+ "] {".
Definition darkSelector : string := "[data-theme=" +:+ JS.dquote +:+ "dark" +:+ JS.dquote +:+ "] {".

Definition usePrefersColorScheme (options : ExportOptions) : bool :=
  match darkModeOutput options with PrefersColorScheme | Both => true | Class => false end.

Definition useClass (options : ExportOptions) : bool :=
  match darkModeOutput options with Class | Both => true | PrefersColorScheme => false end.

(** One [@media (prefers-color-scheme: ...)] block. *)
Definition prefersBlock (options : ExportOptions) (scheme : string) (mode : Mode)
    (variables : list VariableInfo) (st : EmitState) : list string :=
  [""; "@media (prefers-color-scheme: " +:+ scheme +:+ ") {"; "  :root {"]
    ++ flat_map (redeclare options "    " (m_modeId mode) st) variables
    ++ ["  }"; "}"].

(** One [[data-theme="..."]] block, without the blank line before it. *)
Definition selectorBlock (options : ExportOptions) (selector : string) (mode : Mode)
    (variables : list VariableInfo) (st : EmitState) : list string :=
  [selector]
    ++ flat_map (redeclare options "  " (m_modeId mode) st) variables
    ++ ["}"].

Definition generateThemeCSS (collection : Collection) (variables : list VariableInfo)
    (options : ExportOptions) (st : EmitState) : option (list string * EmitState) :=
  let lightMode := findThemeMode "light" (c_modes collection) in
  let darkMode := findThemeMode "dark" (c_modes collection) in
  defaultMode ← (match lightMode with Some m => Some m | None => head (c_modes collection) end);
  let '(body, st') := runLoop (rootStep options (m_modeId defaultMode)) variables st in
  let rootBlock := [":root {"] ++ body ++ ["}"] in
  match darkMode, lightMode with
  | Some dark, Some light =>
      Some (rootBlock
              ++ (if usePrefersColorScheme options
                  then prefersBlock options "light" light variables st' else [])
              ++ (if usePrefersColorScheme options
                  then prefersBlock options "dark" dark variables st' else [])
              ++ [""; "/* Explicit theme selectors - These override system preferences";
                  "   and enable manual theme switching via JavaScript */"]
              ++ selectorBlock options lightSelector light variables st'
              ++ (if useClass options
                  then [""] ++ selectorBlock options darkSelector dark variables st' else []),
            st')
  | _, _ => Some (rootBlock, st')
  end.

(* ================================================================== *)
(** ** Fixed (stepped) breakpoint emitter *)
(* ================================================================== *)

Definition proportionLines (variable : VariableInfo) (columnCount : Z) : list string :=
  [ "  /* Proportion: " +:+ JS.intToString columnCount +:+ "/12 columns (flex/grid-ready) */";
    "  " +:+ cssName variable +:+ ": " +:+ JS.intToString columnCount +:+ ";";
    "  " +:+ cssName variable +:+ "--fr: " +:+ JS.intToString columnCount +:+ "fr;" ].

Definition steppedRootStep (options : ExportOptions) (mid : string)
    (variable : VariableInfo) (st : EmitState) : list string * EmitState :=
  match lookupMode (valuesByMode variable) mid with
  | None => ([], st)
  | Some value =>
      if shouldSkipVariable variable value st then ([], st)
      else
        match getProportionColumnCount variable with
        | Some columnCount =>
            (idComment options variable ++ proportionLines variable columnCount,
             addName st (cssName variable))
        | None =>
            match formatCSSValue value variable options with
            | Some cssValue =>
                (idComment options variable ++ [decl "  " variable cssValue],
                 addName st (cssName variable))
            | None => ([], st)
            end
        end
  end.

(** The query of a breakpoint transition: desktop-first uses the previous
    (larger) mode's width minus one, mobile-first the mode's own width. *)
Definition maxWidthQuery (prevMode : BpMode) : string :=
  "@media (max-width: " +:+ JS.intToString (bm_breakpointPx prevMode - 1) +:+ "px) {".

Definition minWidthQuery (mode : BpMode) : string :=
  "@media (min-width: " +:+ JS.intToString (bm_breakpointPx mode) +:+ "px) {".

(** [(modes[i-1], modes[i])] for [i = 1 .. length-1]. *)
Fixpoint adjacentPairs {A} (l : list A) : list (A * A) :=
  match l with
  | a :: ((b :: _) as r) => (a, b) :: adjacentPairs r
  | _ => []
  end.

(** [modes[i]] for [i = length-2] down to [0]. *)
Definition ascendingTail {A} (l : list A) : list A := rev (removelast l).

Definition steppedRedeclare (options : ExportOptions) (mid : string) (st : EmitState)
    (variable : VariableInfo) : list string :=
  if shouldUseProportion variable options then []
  else redeclare options "    " mid st variable.

(** With no mode at all, [defaultMode] is [undefined] and the first turn
    of the loop raises; the caller never passes an empty variable list. *)
Definition generateSteppedCSS (modes : list BpMode) (variables : list VariableInfo)
    (options : ExportOptions) (st : EmitState) : option (list string * EmitState) :=
  let isDesktopFirst := match breakpointDirection options with MobileFirst => false | _ => true end in
  defaultMode ← (if isDesktopFirst then head modes else last modes);
  let '(body, st') := runLoop (steppedRootStep options (bm_modeId defaultMode)) variables st in
  let blocks :=
    if isDesktopFirst then
      flat_map (fun '(prevMode, mode) =>
                  [""; maxWidthQuery prevMode; "  :root {"]
                    ++ flat_map (steppedRedeclare options (bm_modeId mode) st') variables
                    ++ ["  }"; "}"])
               (adjacentPairs modes)
    else
      flat_map (fun mode =>
                  [""; minWidthQuery mode; "  :root {"]
                    ++ flat_map (steppedRedeclare options (bm_modeId mode) st') variables
                    ++ ["  }"; "}"])
               (ascendingTail modes) in
  Some ([":root {"] ++ body ++ ["}"] ++ blocks, st').

(* ================================================================== *)
(** ** Fluid breakpoint emitter *)
(* ================================================================== *)

(** The first loop of [generateFluidCSS]: the variables that pass the gate,
    split into clamp-based and query-based ones.  The gate reads the set of
    names as it is before the collection emits anything. *)
Fixpoint partitionVars (modes : list BpMode) (options : ExportOptions) (st : EmitState)
    (largestId : string) (variables : list VariableInfo)
  : option (list VariableInfo * list VariableInfo) :=
  match variables with
  | [] => Some ([], [])
  | variable :: rest =>
      match lookupMode (valuesByMode variable) largestId with
      | None => partitionVars modes options st largestId rest
      | Some value =>
          if shouldSkipVariable variable value st
          then partitionVars modes options st largestId rest
          else
            nmq ← needsMediaQueries variable modes options;
            '(clampable, mediaQuery) ← partitionVars modes options st largestId rest;
            Some (if (nmq : bool) then (clampable, variable :: mediaQuery)
                  else (variable :: clampable, mediaQuery))
      end
  end.

(** The lines a clamp-based variable with mode variance contributes to the
    default block. *)
Definition fluidDeclLines (modes : list BpMode) (options : ExportOptions)
    (variable : VariableInfo) (cssValue : string) : option (list string) :=
  if shouldUseProportion variable options then
    match getProportionColumnCount variable with
    | Some columnCount => Some (proportionLines variable columnCount)
    | None => Some [decl "  " variable cssValue]
    end
  else if shouldUsePiecewiseClamp variable options then
    m0 ← modes !! 0%nat;
    m1 ← modes !! 1%nat;
    Some [ "  /* Piecewise clamp: non-linear scaling (3 segments) */";
           decl "  " variable (generatePiecewiseClampValue m0 m1 variable) ]
  else
    fluidResult ← generateFluidValue modes variable options;
    Some ((if isViewportRelative fluidResult
           then ["  /* Viewport-relative: uses min() instead of clamp() */"] else [])
            ++ [decl "  " variable (fr_value fluidResult)]).

Definition clampableStep (modes : list BpMode) (options : ExportOptions) (defaultId : string)
    (variable : VariableInfo) (st : EmitState) : option (list string * EmitState) :=
  value ← lookupMode (valuesByMode variable) defaultId;
  match formatCSSValue value variable options with
  | None => Some ([], st)
  | Some cssValue =>
      hv ← hasModeVariance variable modes options;
      body ← (if (hv : bool) && bool_decide (resolvedType variable = FLOAT)
                 && negb (pv_isAlias value)
              then fluidDeclLines modes options variable cssValue
              else Some [decl "  " variable cssValue]);
      Some (idComment options variable ++ body, addName st (cssName variable))
  end.

Definition mediaQueryStep (options : ExportOptions) (defaultId : string)
    (variable : VariableInfo) (st : EmitState) : option (list string * EmitState) :=
  value ← lookupMode (valuesByMode variable) defaultId;
  match formatCSSValue value variable options with
  | None => Some ([], st)
  | Some cssValue =>
      Some (idComment options variable ++ [decl "  " variable cssValue],
            addName st (cssName variable))
  end.

(** The declarations of one breakpoint block, for the variables that hold a
    printable value in that mode. *)
Definition declsForMode (options : ExportOptions) (indent : string) (mid : string)
    (variables : list VariableInfo) : list string :=
  flat_map (fun variable =>
              match lookupMode (valuesByMode variable) mid with
              | None => []
              | Some val =>
                  match formatCSSValue val variable options with
                  | Some css => [decl indent variable css]
                  | None => []
                  end
              end) variables.

Definition mediaQueryBlock (options : ExportOptions) (query : string) (mid : string)
    (mediaQueryVars : list VariableInfo) : list string :=
  match declsForMode options "    " mid mediaQueryVars with
  | [] => []
  | ds => [""; query; "  :root {"] ++ ds ++ ["  }"; "}"]
  end.

Definition mediaQueryBlocks (isDesktopFirst : bool) (modes : list BpMode)
    (options : ExportOptions) (mediaQueryVars : list VariableInfo) : list string :=
  match mediaQueryVars with
  | [] => []
  | _ =>
      if isDesktopFirst then
        flat_map (fun '(prevMode, mode) =>
                    mediaQueryBlock options (maxWidthQuery prevMode) (bm_modeId mode) mediaQueryVars)
                 (adjacentPairs modes)
      else
        flat_map (fun mode =>
                    mediaQueryBlock options (minWidthQuery mode) (bm_modeId mode) mediaQueryVars)
                 (ascendingTail modes)
  end.

Definition piecewiseBlock (comment query : string) (fromMode toMode : BpMode)
    (piecewiseVars : list VariableInfo) : list string :=
  [""; comment; query; "  :root {"]
    ++ map (fun v => decl "    " v (generatePiecewiseClampValue fromMode toMode v)) piecewiseVars
    ++ ["  }"; "}"].

Definition isPiecewiseVar (modes : list BpMode) (options : ExportOptions) (v : VariableInfo)
  : option bool :=
  if shouldUsePiecewiseClamp v options && negb (shouldUseProportion v options)
     && negb (shouldUseViewportRelative v options)
  then hv ← hasModeVariance v modes options;
       Some ((hv : bool) && bool_decide (resolvedType v = FLOAT))
  else Some false.

Definition piecewiseBlocks (isDesktopFirst : bool) (modes : list BpMode)
    (options : ExportOptions) (clampableVars : list VariableInfo) : option (list string) :=
  match nonLinearOverrides options with
  | Some (_ :: _) =>
      piecewiseVars ← filterM (isPiecewiseVar modes options) clampableVars;
      match piecewiseVars with
      | [] => Some []
      | _ =>
          if (3 <=? length modes)%nat then
            m0 ← modes !! 0%nat;
            m1 ← modes !! 1%nat;
            m2 ← modes !! 2%nat;
            if isDesktopFirst then
              second ← (if (4 <=? length modes)%nat then
                          m3 ← modes !! 3%nat;
                          Some (piecewiseBlock "/* Piecewise clamp: Tablet → Mobile segment */"
                                               (maxWidthQuery m1) m2 m3 piecewiseVars)
                        else Some []);
              Some (piecewiseBlock "/* Piecewise clamp: Laptop → Tablet segment */"
                                   (maxWidthQuery m0) m1 m2 piecewiseVars ++ second)
            else
              Some ((if (4 <=? length modes)%nat
                     then piecewiseBlock "/* Piecewise clamp: Tablet → Laptop segment */"
                                         (minWidthQuery m2) m2 m1 piecewiseVars
                     else [])
                      ++ piecewiseBlock "/* Piecewise clamp: Laptop → Desktop segment */"
                                        (minWidthQuery m1) m1 m0 piecewiseVars)
          else Some []
      end
  | _ => Some []
  end.

Definition hasFallback (modes : list BpMode) (options : ExportOptions) (v : VariableInfo)
  : option bool :=
  hv ← hasModeVariance v modes options;
  Some ((hv : bool) && negb (shouldUseProportion v options)
          && negb (shouldUseViewportRelative v options)).

Definition fallbackBlocks (isDesktopFirst : bool) (modes : list BpMode)
    (options : ExportOptions) (clampableVars : list VariableInfo) : option (list string) :=
  if includeLegacyFallbacks options then
    clampableWithVariance ← filterM (hasFallback modes options) clampableVars;
    match clampableWithVariance with
    | [] => Some []
    | _ =>
        Some ([""; "/* Fallback for older browsers */";
               "@supports not (width: clamp(1px, 1vw, 2px)) {"]
                ++ (if isDesktopFirst then
                      flat_map (fun '(prevMode, mode) =>
                                  ["  " +:+ maxWidthQuery prevMode; "    :root {"]
                                    ++ declsForMode options "      " (bm_modeId mode)
                                                    clampableWithVariance
                                    ++ ["    }"; "  }"])
                               (adjacentPairs modes)
                    else
                      flat_map (fun mode =>
                                  ["  " +:+ minWidthQuery mode; "    :root {"]
                                    ++ declsForMode options "      " (bm_modeId mode)
                                                    clampableWithVariance
                                    ++ ["    }"; "  }"])
                               (ascendingTail modes))
                ++ ["}"])
    end
  else Some [].

Definition generateFluidCSS (modes : list BpMode) (variables : list VariableInfo)
    (options : ExportOptions) (st : EmitState) : option (list string * EmitState) :=
  let isDesktopFirst := match breakpointDirection options with MobileFirst => false | _ => true end in
  defaultMode ← (if isDesktopFirst then head modes else last modes);
  largestMode ← head modes;
  '(clampableVars, mediaQueryVars) ←
     partitionVars modes options st (bm_modeId largestMode) variables;
  '(clampLines, st1) ←
     runLoopM (clampableStep modes options (bm_modeId defaultMode)) clampableVars st;
  '(mqLines, st2) ←
     runLoopM (mediaQueryStep options (bm_modeId defaultMode)) mediaQueryVars st1;
  pw ← piecewiseBlocks isDesktopFirst modes options clampableVars;
  fb ← fallbackBlocks isDesktopFirst modes options clampableVars;
  Some ([":root {"] ++ clampLines ++ mqLines ++ ["}"]
          ++ mediaQueryBlocks isDesktopFirst modes options mediaQueryVars
          ++ pw ++ fb,
        st2).

Definition generateBreakpointCSS (bp : BreakpointTable) (collection : Collection)
    (variables : list VariableInfo) (options : ExportOptions) (st : EmitState)
  : option (list string * EmitState) :=
  let modes :=
    map (fun m => {| bm_modeId := m_modeId m; bm_name := m_name m;
                     bm_breakpointPx := default 0%Z (detectBreakpoint bp (m_name m)) |})
        (c_modes collection) in
  let sortedModes :=
    JS.sortBy (fun a b => (bm_breakpointPx b <=? bm_breakpointPx a)%Z) modes in
  match outputMode options with
  | Fluid =>
      if (2 <=? length sortedModes)%nat
      then generateFluidCSS sortedModes variables options st
      else generateSteppedCSS sortedModes variables options st
  | Fixed => generateSteppedCSS sortedModes variables options st
  end.

(* ================================================================== *)
(** ** Ordered, deduplicated emission over all collections *)
(* ================================================================== *)

Definition groupByCollection (variables : list VariableInfo)
  : gmap string (list VariableInfo) :=
  foldl (fun groups v =>
           <[ collectionId v := default [] (groups !! collectionId v) ++ [v] ]> groups)
        ∅ variables.

(** The rank the sort comparator derives from a collection name. *)
Definition layerOrder (nm : string) : Z :=
  let lower := JS.toLowerCase nm in
  if JS.includes lower "foundation" then 0
  else if JS.includes lower "alias" && negb (JS.includes lower "extended") then 1
  else if JS.includes lower "extended" then 2
  else if JS.includes lower "mapping" then 3
  else 4.

(** [a.localeCompare(b)], as the order of the character codes.  On words of
    lower-case ASCII letters, which is what the pattern of
    [parseCollectionName] yields for a domain, this is the alphabetical
    order of the host's collation.  A name that does not match the pattern
    is compared whole, and where it holds digits, punctuation or capitals
    the collation may order it otherwise. *)
Definition localeCompare (a b : string) : Z :=
  match String.compare a b with Lt => (-1)%Z | Eq => 0%Z | Gt => 1%Z end.

(** The comparator handed to [sortedCollections.sort]. *)
Definition compareCollections (a b : Collection) : Z :=
  let parsedA := parseCollectionName (c_name a) in
  let parsedB := parseCollectionName (c_name b) in
  if negb (String.eqb (domain parsedA) (domain parsedB))
  then localeCompare (domain parsedA) (domain parsedB)
  else (layerOrder (c_name a) - layerOrder (c_name b))%Z.

Definition sortCollections (collectionGroups : gmap string (list VariableInfo))
    (collections : list Collection) : list Collection :=
  JS.sortBy (fun a b => (compareCollections a b <=? 0)%Z)
            (List.filter (fun c => negb (c_remote c) && negb (isNone (collectionGroups !! c_id c)))
                    collections).

Definition headerLines (options : ExportOptions) (timestamp : string) : list string :=
  [ "/* ==========================================================================";
    "   DESIGN TOKENS — Generated from Figma Variables" ]
    ++ (if includeTimestamp options then ["   Date: " +:+ timestamp] else [])
    ++ [ "   Mode: " +:+ (match outputMode options with
                          | Fluid => "Fluid (clamp)" | Fixed => "Fixed (per-breakpoint)" end);
         "   Direction: " +:+ (match breakpointDirection options with
                               | MobileFirst => "Mobile-first (min-width)"
                               | DesktopFirst => "Desktop-first (max-width)" end);
         "   ========================================================================== */";
         "" ].

(** The lines of one collection's section. *)
Definition sectionLines (bp : BreakpointTable) (options : ExportOptions)
    (collection : Collection) (variables : list VariableInfo) (st : EmitState)
  : option (list string * EmitState) :=
  let modeType := detectModeType (modeInfosOf bp (c_modes collection)) in
  '(body, st') ←
     match modeType with
     | Breakpoint => generateBreakpointCSS bp collection variables options st
     | Theme => generateThemeCSS collection variables options st
     | Single => generateSingleModeCSS collection variables options st
     end;
  Some ([ "/* --------------------------------------------------------------------------";
          "   " +:+ JS.toUpperCase (c_name collection);
          "   -------------------------------------------------------------------------- */";
          "" ] ++ body ++ [""], st').

Fixpoint emitCollections (bp : BreakpointTable) (options : ExportOptions)
    (collectionGroups : gmap string (list VariableInfo))
    (sortedCollections : list Collection) (st : EmitState)
  : option (list string * EmitState) :=
  match sortedCollections with
  | [] => Some ([], st)
  | collection :: rest =>
      match collectionGroups !! c_id collection with
      | None | Some [] => emitCollections bp options collectionGroups rest st
      | Some variables =>
          '(l1, st1) ← sectionLines bp options collection variables st;
          '(l2, st2) ← emitCollections bp options collectionGroups rest st1;
          Some (l1 ++ l2, st2)
      end
  end.

(** The lines [generateCSSOutput] joins. *)
Definition generateCSSLines (bp : BreakpointTable) (timestamp : string)
    (collectionGroups : gmap string (list VariableInfo)) (collections : list Collection)
    (options : ExportOptions) (st : EmitState) : option (list string * EmitState) :=
  '(body, st') ← emitCollections bp options collectionGroups
                   (sortCollections collectionGroups collections) st;
  Some (headerLines options timestamp ++ body, st').

Definition generateCSSOutput (bp : BreakpointTable) (timestamp : string)
    (collectionGroups : gmap string (list VariableInfo)) (collections : list Collection)
    (options : ExportOptions) (st : EmitState) : option (string * EmitState) :=
  '(lines, st') ← generateCSSLines bp timestamp collectionGroups collections options st;
  Some (JS.join (String (ascii_of_nat 10) EmptyString) lines, st').

(* ================================================================== *)
(** ** Graph construction and alias resolution *)
(* ================================================================== *)

(** A raw per-mode value as the host exposes it.  A colour arrives with the
    text [rgbToHex] / [rgbToOklch] produce for it: [rgbToOklch] goes
    through [Math.cbrt], [Math.atan2] and the like, whose results the
    language leaves to the implementation, and is outside this development;
    [rgbToHex] is embedded on its own, over exact channel values. *)
Inductive RawValue :=
| RawAlias (target : string)
| RawColor (formatted : string)
| RawNumber (x : float)
| RawString (s : string)
| RawBoolean (b : bool)
| RawUndefined.

Record HostVariable := {
  hv_id : string;
  hv_name : string;
  hv_description : string;
  hv_resolvedType : ResolvedType;
  hv_valuesByMode : list (string * RawValue)
}.

(** A collection together with the variables [getVariableByIdAsync] finds
    for its [variableIds], in that order. *)
Record HostCollection := {
  hc_collection : Collection;
  hc_variables : list HostVariable
}.

Definition rawTruthy (raw : RawValue) : bool :=
  match raw with
  | RawAlias _ | RawColor _ => true
  | RawNumber x => JS.numTruthy x
  | RawString s => JS.truthy s
  | RawBoolean b => b
  | RawUndefined => false
  end.

Definition literal (r : ResolvedValue) : ProcessedValue :=
  {| pv_isAlias := false; aliasId := None; aliasName := None; resolved := r |}.

Definition processValue (rawValue : RawValue) (type : ResolvedType) : ProcessedValue :=
  match rawValue with
  | RawAlias target =>
      {| pv_isAlias := true; aliasId := Some target; aliasName := None; resolved := RNull |}
  | _ =>
      match type with
      | COLOR => match rawValue with RawColor s => literal (RStr s) | _ => literal RNull end
      | FLOAT => match rawValue with RawNumber x => literal (RNum x) | _ => literal RNull end
      | STRING => match rawValue with RawString s => literal (RStr s) | _ => literal RNull end
      | BOOLEAN => literal (RNum (if rawTruthy rawValue then 1 else 0))
      end
  end.

(** *** Identifier generation *)

Definition isHyphen (c : ascii) : bool := Ascii.eqb c "-".

(** [.replace(/\s+/g, '-')]: a run of white space becomes one hyphen. *)
Fixpoint collapseSpaces (inRun : bool) (s : string) : string :=
  match s with
  | EmptyString => EmptyString
  | String c r =>
      if JS.isSpace c
      then (if inRun then collapseSpaces true r else String "-" (collapseSpaces true r))
      else String c (collapseSpaces false r)
  end.

(** [.replace(/-{3,}/g, '--')]: a run of hyphens keeps at most two. *)
Fixpoint capHyphens (seen : nat) (s : string) : string :=
  match s with
  | EmptyString => EmptyString
  | String c r =>
      if isHyphen c
      then (if (seen <? 2)%nat then String c (capHyphens (S seen) r) else capHyphens seen r)
      else String c (capHyphens 0 r)
  end.

Definition slug (varName : string) : string :=
  let s := JS.toLowerCase varName in
  let s := JS.mapChars (fun c => if Ascii.eqb c "/" || Ascii.eqb c "." || Ascii.eqb c ","
                                 then "-"%char else c) s in
  let s := collapseSpaces false s in
  let s := JS.mapChars (fun c => if JS.isLower c || JS.isDigit c || isHyphen c
                                 then c else "-"%char) s in
  let s := capHyphens 0 s in
  JS.dropWhileEnd isHyphen (JS.dropWhile isHyphen s).

Definition commonDomains : list string :=
  ["typo"; "space"; "color"; "dimension"; "static"; "size"; "radius"; "border"].

Definition generateCSSName (varName domain : string) (layerType : LayerType) : string :=
  let cssName := slug varName in
  match layerType with
  | Mappings => "--" +:+ cssName
  | Foundations | Aliases | AliasesExtended =>
      if negb (JS.startsWith cssName (domain +:+ "-")) && negb (String.eqb cssName domain)
      then "--" +:+ domain +:+ "-" +:+ cssName
      else "--" +:+ cssName
  | Other =>
      let hasExistingDomain := existsb (fun d => JS.startsWith cssName (d +:+ "-")) commonDomains in
      if negb hasExistingDomain && negb (JS.startsWith cssName (domain +:+ "-"))
      then "--" +:+ domain +:+ "-" +:+ cssName
      else "--" +:+ cssName
  end.

(** *** First pass: one [VariableInfo] per variable of every local collection *)

Fixpoint lookupRaw (vals : list (string * RawValue)) (mid : string) : RawValue :=
  match vals with
  | [] => RawUndefined
  | (k, v) :: r => if String.eqb k mid then v else lookupRaw r mid
  end.

(** [valuesByMode[mode.modeId] = ...]: a repeated key keeps its first
    position and takes the last value. *)
Fixpoint setMode (vals : list (string * ProcessedValue)) (mid : string) (v : ProcessedValue)
  : list (string * ProcessedValue) :=
  match vals with
  | [] => [(mid, v)]
  | (k, w) :: r => if String.eqb k mid then (k, v) :: r else (k, w) :: setMode r mid v
  end.

Definition collectVariable (collection : Collection) (variable : HostVariable) : VariableInfo :=
  let parsed := parseCollectionName (c_name collection) in
  let values :=
    foldl (fun acc mode =>
             setMode acc (m_modeId mode)
                     (processValue (lookupRaw (hv_valuesByMode variable) (m_modeId mode))
                                   (hv_resolvedType variable)))
          [] (c_modes collection) in
  {| v_id := hv_id variable;
     v_name := hv_name variable;
     description := hv_description variable;
     collectionId := c_id collection;
     collectionName := c_name collection;
     v_domain := domain parsed;
     v_layerType := layerType parsed;
     resolvedType := hv_resolvedType variable;
     valuesByMode := values;
     v_isAlias := existsb (fun kv => pv_isAlias (snd kv)) values;
     cssName := generateCSSName (hv_name variable) (domain parsed) (layerType parsed) |}.

Definition collectVariables (host : list HostCollection) : list VariableInfo :=
  flat_map (fun hc =>
              if c_remote (hc_collection hc) then []
              else map (collectVariable (hc_collection hc)) (hc_variables hc))
           host.

Definition buildVariableMap (allVariables : list VariableInfo) : gmap string VariableInfo :=
  foldl (fun m v => <[ v_id v := v ]> m) ∅ allVariables.

(** *** Second pass: alias targets become emitted names *)

Definition brokenAliasMessage (varName : string) : string :=
  "Broken alias: " +:+ varName +:+ " references unknown variable".

Definition resolveValue (variableMap : gmap string VariableInfo) (varName : string)
    (value : ProcessedValue) : ProcessedValue * list string :=
  match pv_isAlias value, aliasId value with
  | true, Some target =>
      if JS.truthy target then
        match variableMap !! target with
        | Some t =>
            ({| pv_isAlias := pv_isAlias value; aliasId := aliasId value;
                aliasName := Some (cssName t); resolved := resolved value |}, [])
        | None => (value, [brokenAliasMessage varName])
        end
      else (value, [])
  | _, _ => (value, [])
  end.

Fixpoint resolveModes (variableMap : gmap string VariableInfo) (varName : string)
    (vals : list (string * ProcessedValue)) : list (string * ProcessedValue) * list string :=
  match vals with
  | [] => ([], [])
  | (mid, value) :: rest =>
      let '(value', e1) := resolveValue variableMap varName value in
      let '(rest', e2) := resolveModes variableMap varName rest in
      ((mid, value') :: rest', e1 ++ e2)
  end.

Definition withValues (v : VariableInfo) (vals : list (string * ProcessedValue)) : VariableInfo :=
  {| v_id := v_id v; v_name := v_name v; description := description v;
     collectionId := collectionId v; collectionName := collectionName v;
     v_domain := v_domain v; v_layerType := v_layerType v;
     resolvedType := resolvedType v; valuesByMode := vals;
     v_isAlias := v_isAlias v; cssName := cssName v |}.

Fixpoint resolveAliases (variableMap : gmap string VariableInfo)
    (allVariables : list VariableInfo) : list VariableInfo * list string :=
  match allVariables with
  | [] => ([], [])
  | varInfo :: rest =>
      let '(vals, e1) := resolveModes variableMap (v_name varInfo) (valuesByMode varInfo) in
      let '(rest', e2) := resolveAliases variableMap rest in
      (withValues varInfo vals :: rest', e1 ++ e2)
  end.

(** *** The generation pass *)

Record CSSOutput := {
  css : string;
  stat_collections : nat;
  stat_variables : nat;
  stat_errors : list string
}.

(** The lines and diagnostics of one generation request, text styles aside. *)
Definition generateLines (bp : BreakpointTable) (timestamp : string)
    (host : list HostCollection) (options : ExportOptions)
  : option (list string * list string) :=
  let collections := map hc_collection host in
  let collected := collectVariables host in
  let variableMap := buildVariableMap collected in
  let '(allVariables, errs) := resolveAliases variableMap collected in
  let collectionGroups := groupByCollection allVariables in
  '(lines, st) ← generateCSSLines bp timestamp collectionGroups collections options
                   {| outputtedCSSNames := ∅; errors := errs |};
  Some (lines, errors st).

Definition handleGenerateCSS (bp : BreakpointTable) (timestamp : string)
    (host : list HostCollection) (options : ExportOptions) : option CSSOutput :=
  '(lines, errs) ← generateLines bp timestamp host options;
  Some {| css := JS.join (String (ascii_of_nat 10) EmptyString) lines;
          stat_collections := length (List.filter (fun hc => negb (c_remote (hc_collection hc))) host);
          stat_variables := length (collectVariables host);
          stat_errors := errs |}.

(* ================================================================== *)
(** ** Reference predicates the properties are stated against *)
(* ================================================================== *)





(** *** Mode classification *)

(** The mode type derived for a collection's mode list. *)
Definition derivedModeType (bp : BreakpointTable) (modes : list Mode) : ModeType :=
  detectModeType (modeInfosOf bp modes).

(** Every mode name resolves to a known breakpoint width. *)
Definition resolvesAll (bp : BreakpointTable) (modes : list Mode) : Prop :=
  forall m, In m modes -> detectBreakpoint bp (m_name m) <> None.

(** Some mode name contains a theme keyword. *)
Definition someThemeName (modes : list Mode) : Prop :=
  exists m, In m modes /\
            (JS.includes (JS.toLowerCase (m_name m)) "light" = true \/
             JS.includes (JS.toLowerCase (m_name m)) "dark" = true).

(** The invariant as the data model words it: three equivalences, and
    [Single] in every remaining case. *)
Definition modeTypeInvariant (bp : BreakpointTable) (modes : list Mode) : Prop :=
  let mt := derivedModeType bp modes in
  (mt = Single <-> length modes = 1%nat)
  /\ (mt = Breakpoint <-> resolvesAll bp modes)
  /\ (mt = Theme <-> someThemeName modes /\ ~ resolvesAll bp modes)
  /\ (length modes <> 1%nat -> ~ resolvesAll bp modes -> ~ someThemeName modes -> mt = Single).

(** *** Grid proportions *)

(** The proportion vocabulary with its column counts, as the specification
    lists it. *)
Definition proportionVocabulary : list (string * Z) :=
  [ ("three-quarters", 9%Z); ("two-thirds", 8%Z); ("whole", 12%Z);
    ("half", 6%Z); ("third", 4%Z); ("quarter", 3%Z) ].

(** The lower-cased variable name contains [p]. *)
Definition nameContains (variable : VariableInfo) (p : string) : bool :=
  JS.includes (JS.toLowerCase (v_name variable)) p.

(** A variable that only has a name. *)
Definition namedVariable (nm : string) : VariableInfo :=
  {| v_id := ""; v_name := nm; description := ""; collectionId := ""; collectionName := "";
     v_domain := ""; v_layerType := Other; resolvedType := FLOAT; valuesByMode := [];
     v_isAlias := false; cssName := "" |}.

(** *** Linear clamp *)

(** Slope and intercept of the line through the two extreme breakpoint
    modes [(minPx, minVal)] and [(maxPx, maxVal)], in binary64. *)
Definition clampSlope (minVal maxVal : float) (minPx maxPx : Z) : float :=
  ((maxVal - minVal) / (JS.ofZ maxPx - JS.ofZ minPx))%float.

Definition clampIntercept (minVal maxVal : float) (minPx maxPx : Z) : float :=
  (minVal - clampSlope minVal maxVal minPx maxPx * JS.ofZ minPx)%float.

(** The clamp expression for a non-negative rounded intercept, with [unit]
    after each length. *)
Definition linearClamp (unit : string) (minVal maxVal : float) (minPx maxPx : Z) : string :=
  "clamp(" +:+ JS.numToString (JS.round (JS.min minVal maxVal) 2) +:+ unit
    +:+ ", calc("
    +:+ (JS.numToString (JS.round (clampIntercept minVal maxVal minPx maxPx) 2) +:+ unit
           +:+ " + "
           +:+ JS.numToString (JS.round (clampSlope minVal maxVal minPx maxPx * 100) 4) +:+ "vw")
    +:+ "), " +:+ JS.numToString (JS.round (JS.max minVal maxVal) 2) +:+ unit +:+ ")".

(** No mode of [modes] holds an alias for the variable. *)
Definition noAliasInAnyMode (variable : VariableInfo) (modes : list BpMode) : Prop :=
  forall m v, In m modes ->
              lookupMode (valuesByMode variable) (bm_modeId m) = Some v ->
              pv_isAlias v = false.

(** *** Example documents *)

Definition exampleOptions (om : OutputMode) (dm : DarkModeOutput) : ExportOptions :=
  {| outputMode := om; breakpointDirection := DesktopFirst; aliasMode := Preserved;
     darkModeOutput := dm; includeTimestamp := false; includeIds := false;
     colorFormat := Hex; includeLegacyFallbacks := false;
     viewportRelativeOverrides := None; nonLinearOverrides := None |}.

Definition hostVariable (id nm : string) (ty : ResolvedType) (vals : list (string * RawValue))
  : HostVariable :=
  {| hv_id := id; hv_name := nm; hv_description := ""; hv_resolvedType := ty;
     hv_valuesByMode := vals |}.

Definition hostCollection (id nm : string) (modes : list (string * string))
    (vars : list HostVariable) : HostCollection :=
  {| hc_collection := {| c_id := id; c_name := nm; c_remote := false;
                         c_modes := map (fun '(i, n) => {| m_modeId := i; m_name := n |}) modes |};
     hc_variables := vars |}.

(** A typography foundation with one size, 32 at Desktop and 25.6 at
    Mobile, and one weight, 700 at Desktop and 400 at Mobile. *)
Definition typoFoundations : HostCollection :=
  hostCollection "C:1" "Typo - 1. Foundations" [("1:0", "Desktop"); ("1:1", "Mobile")]
    [ hostVariable "V:1" "size/heading" FLOAT
        [("1:0", RawNumber 32); ("1:1", RawNumber 25.6)];
      hostVariable "V:2" "font/weight" FLOAT
        [("1:0", RawNumber 700); ("1:1", RawNumber 400)] ].

Definition emptyState : EmitState := {| outputtedCSSNames := ∅; errors := [] |}.

(** The resolved graph of [typoFoundations] and its sorted modes. *)
Definition typoVariables : list VariableInfo :=
  fst (resolveAliases (buildVariableMap (collectVariables [typoFoundations]))
                      (collectVariables [typoFoundations])).

Definition desktopMode : BpMode :=
  {| bm_modeId := "1:0"; bm_name := "Desktop"; bm_breakpointPx := 1680 |}.
Definition mobileMode : BpMode :=
  {| bm_modeId := "1:1"; bm_name := "Mobile"; bm_breakpointPx := 480 |}.

Definition headingVariable : VariableInfo := nth 0 typoVariables (namedVariable "").
Definition weightVariable : VariableInfo := nth 1 typoVariables (namedVariable "").

(** *** Theme blocks *)

(** The variable standing after [pre] in [variables] is declared in the
    default block, with the text [css]: when the [:root] loop reaches it, it
    finds a value in the default mode, the gate lets it pass and the
    formatter prints [css]. *)
Definition declaredInRoot (options : ExportOptions) (mid : string) (st : EmitState)
    (variables pre : list VariableInfo) (variable : VariableInfo) (css : string) : Prop :=
  exists post value,
    variables = pre ++ variable :: post
    /\ lookupMode (valuesByMode variable) mid = Some value
    /\ shouldSkipVariable variable value (snd (runLoop (rootStep options mid) pre st)) = false
    /\ formatCSSValue value variable options = Some css.

(** The line [d] stands in the block of [lines] that opens with [header],
    holds lines indented by [indent] and closes with [footer]. *)
Definition declaredInBlock (header : list string) (indent : string) (footer : list string)
    (d : string) (lines : list string) : Prop :=
  exists before body after,
    lines = before ++ header ++ body ++ footer ++ after
    /\ Forall (fun l => JS.startsWith l indent = true) body
    /\ In d body.

Definition prefersHeader (scheme : string) : list string :=
  ["@media (prefers-color-scheme: " +:+ scheme +:+ ") {"; "  :root {"].

(** A theme foundation and an alias layer mirroring it.  [primary] holds the
    same colour in both themes; [accent] refers, in the dark theme, to a
    variable that is not part of the document; the alias layer's [primary]
    refers to the foundation's and so receives the foundation's name. *)
Definition colorFoundations : HostCollection :=
  hostCollection "C:10" "Color - 1. Foundations" [("10:0", "Light"); ("10:1", "Dark")]
    [ hostVariable "V:10" "primary" COLOR
        [("10:0", RawColor "#ffffff"); ("10:1", RawColor "#ffffff")];
      hostVariable "V:11" "accent" COLOR
        [("10:0", RawColor "#ff0000"); ("10:1", RawAlias "V:gone")] ].

Definition colorAliases : HostCollection :=
  hostCollection "C:20" "Color - 2. Aliases" [("20:0", "Light"); ("20:1", "Dark")]
    [ hostVariable "V:20" "primary" COLOR
        [("20:0", RawAlias "V:10"); ("20:1", RawAlias "V:10")] ].

(** The resolved graph of a host document. *)
Definition resolvedGraph (host : list HostCollection) : list VariableInfo :=
  fst (resolveAliases (buildVariableMap (collectVariables host)) (collectVariables host)).

Definition lightMode : Mode := {| m_modeId := "10:0"; m_name := "Light" |}.
Definition darkMode : Mode := {| m_modeId := "10:1"; m_name := "Dark" |}.
Definition primaryVariable : VariableInfo :=
  nth 0 (resolvedGraph [colorFoundations]) (namedVariable "").
Definition accentVariable : VariableInfo :=
  nth 1 (resolvedGraph [colorFoundations]) (namedVariable "").


(** *** Ordering *)

(** The layer rank of the ordering rule. *)
Definition layerRank (t : LayerType) : Z :=
  match t with
  | Foundations => 0
  | Aliases => 1
  | AliasesExtended => 2
  | Mappings => 3
  | Other => 4
  end.

(** Two spacing layers whose names differ in the layer number only. *)
Definition spaceAliasesExtended : HostCollection :=
  hostCollection "C:31" "Space - 2.1 Aliases" [("31:0", "Default")]
    [ hostVariable "V:31" "gap/wide" FLOAT [("31:0", RawNumber 24)] ].

Definition spaceAliasesPlain : HostCollection :=
  hostCollection "C:32" "Space - 2. Aliases" [("32:0", "Default")]
    [ hostVariable "V:32" "gap/base" FLOAT [("32:0", RawNumber 16)] ].

(** *** Deduplication *)

(** A spacing foundation and an alias layer that both produce
    [--space-fixed-1], with different literal values. *)
Definition spaceFoundations : HostCollection :=
  hostCollection "C:1" "Space - 1. Foundations" [("1:0", "Desktop"); ("1:1", "Mobile")]
    [ hostVariable "V:1" "fixed/1" FLOAT [("1:0", RawNumber 16); ("1:1", RawNumber 8)] ].

Definition spaceAliases : HostCollection :=
  hostCollection "C:2" "Space - 2. Aliases" [("2:0", "Desktop"); ("2:1", "Mobile")]
    [ hostVariable "V:2" "fixed/1" FLOAT [("2:0", RawNumber 20); ("2:1", RawNumber 10)] ].

(** A theme foundation and an alias layer whose only variable mirrors the
    foundation's: its alias target resolves to its own identifier. *)
Definition surfaceFoundations : HostCollection :=
  hostCollection "C:40" "Surface - 1. Foundations" [("40:0", "Light"); ("40:1", "Dark")]
    [ hostVariable "V:40" "base" COLOR
        [("40:0", RawColor "#ffffff"); ("40:1", RawColor "#000000")] ].

Definition surfaceAliases : HostCollection :=
  hostCollection "C:41" "Surface - 2. Aliases" [("41:0", "Light"); ("41:1", "Dark")]
    [ hostVariable "V:41" "base" COLOR
        [("41:0", RawAlias "V:40"); ("41:1", RawAlias "V:40")] ].

Definition surfaceAliasVariable : VariableInfo :=
  nth 1 (resolvedGraph [surfaceFoundations; surfaceAliases]) (namedVariable "").

(** *** Broken aliases *)



(** The variable holds a value for every mode. *)
Definition holdsModes (modes : list BpMode) (v : VariableInfo) : Prop :=
  forall m, In m modes -> lookupMode (valuesByMode v) (bm_modeId m) <> None.

(** Every variable holds a value for every mode, as the first pass builds
    them. *)
Definition holdsAllModes (variables : list VariableInfo) (modes : list BpMode) : Prop :=
  forall v m, In v variables -> In m modes ->
              lookupMode (valuesByMode v) (bm_modeId m) <> None.

(** *** Well-formed host documents *)

(** Every collection has at least one mode, and collection identities are
    unique: what the host guarantees for its local collections. *)
Definition wellFormedHost (host : list HostCollection) : Prop :=
  (forall hc, In hc host -> c_modes (hc_collection hc) <> [])
  /\ (forall hc1 hc2, In hc1 host -> In hc2 host ->
        c_id (hc_collection hc1) = c_id (hc_collection hc2) ->
        hc_collection hc1 = hc_collection hc2).

(** The variable holds a value for every mode of the collection. *)
Definition holdsCollectionModes (collection : Collection) (v : VariableInfo) : Prop :=
  forall m, In m (c_modes collection) -> lookupMode (valuesByMode v) (m_modeId m) <> None.

(* ================================================================== *)
(** ** Emission state across the emitters *)
(* ================================================================== *)

(** What an emitter working on [variables] may do to the two shared
    objects: leave the diagnostics alone, keep every registered name, and
    register names of its own variables only. *)
Definition stateExtends (variables : list VariableInfo) (st st' : EmitState) : Prop :=
  errors st' = errors st
  /\ outputtedCSSNames st ⊆ outputtedCSSNames st'
  /\ (forall n, n ∈ outputtedCSSNames st' ->
                n ∈ outputtedCSSNames st \/ exists v, In v variables /\ cssName v = n).

(** The variables of all groups. *)
Definition groupedVariable (groups : gmap string (list VariableInfo)) (v : VariableInfo) : Prop :=
  exists k vs, groups !! k = Some vs /\ In v vs.

(** A single-mode mapping layer with two variables. *)
Definition buttonMappings : HostCollection :=
  hostCollection "C:60" "Button - 4. Mappings" [("60:0", "Default")]
    [ hostVariable "V:60" "padding/x" FLOAT [("60:0", RawNumber 12)];
      hostVariable "V:61" "padding/y" FLOAT [("60:0", RawNumber 8)] ].

Definition paddingXVariable : VariableInfo :=
  nth 0 (resolvedGraph [buttonMappings]) (namedVariable "").
Definition paddingYVariable : VariableInfo :=
  nth 1 (resolvedGraph [buttonMappings]) (namedVariable "").

(** The alias-layer variable of [spaceAliases], which shares its name with
    the foundation's. *)
Definition spaceAliasVariable : VariableInfo :=
  nth 1 (resolvedGraph [spaceFoundations; spaceAliases]) (namedVariable "").

(** The alias-layer variable of [colorAliases] and the value it holds in
    both themes once resolved. *)
Definition colorAliasVariable : VariableInfo :=
  nth 2 (resolvedGraph [colorFoundations; colorAliases]) (namedVariable "").

Definition colorAliasValue : ProcessedValue :=
  {| pv_isAlias := true; aliasId := Some "V:10"; aliasName := Some "--color-primary";
     resolved := RNull |}.

Definition resolvedAliasOptions : ExportOptions :=
  {| outputMode := Fluid; breakpointDirection := DesktopFirst; aliasMode := Resolved;
     darkModeOutput := Both; includeTimestamp := false; includeIds := false;
     colorFormat := Hex; includeLegacyFallbacks := false;
     viewportRelativeOverrides := None; nonLinearOverrides := None |}.

(* ================================================================== *)
(** ** Parts of the emitters, named *)
(* ================================================================== *)

(** The mode records [generateBreakpointCSS] builds from the collection's
    modes, and the list it sorts them into, largest width first. *)
Definition breakpointModesOf (bp : BreakpointTable) (collection : Collection) : list BpMode :=
  map (fun m => {| bm_modeId := m_modeId m; bm_name := m_name m;
                   bm_breakpointPx := default 0%Z (detectBreakpoint bp (m_name m)) |})
      (c_modes collection).

Definition sortedBreakpointModes (bp : BreakpointTable) (collection : Collection) : list BpMode :=
  JS.sortBy (fun a b => (bm_breakpointPx b <=? bm_breakpointPx a)%Z) (breakpointModesOf bp collection).

(** The collections [generateCSSOutput] keeps before sorting: the local
    ones that own a group. *)
Definition keptCollections (collectionGroups : gmap string (list VariableInfo))
    (collections : list Collection) : list Collection :=
  List.filter (fun c => negb (c_remote c) && negb (isNone (collectionGroups !! c_id c)))
              collections.

(** The variables of one collection, in their order. *)
Definition variablesOf (k : string) (variables : list VariableInfo) : list VariableInfo :=
  List.filter (fun v => String.eqb (collectionId v) k) variables.

(* ================================================================== *)
(** ** Identifier shapes *)
(* ================================================================== *)

(** Every character of [s] satisfies [p]. *)
Fixpoint allChars (p : ascii -> bool) (s : string) : bool :=
  match s with
  | EmptyString => true
  | String c r => p c && allChars p r
  end.

(** The characters of [[a-z0-9-]]. *)
Definition isCssChar (c : ascii) : bool := JS.isLower c || JS.isDigit c || isHyphen c.

(** No run of hyphens in [s] is longer than [limit], the first run
    counting [seen] hyphens already read. *)
Fixpoint runsWithin (limit seen : nat) (s : string) : bool :=
  match s with
  | EmptyString => true
  | String c r =>
      if isHyphen c then (seen <? limit)%nat && runsWithin limit (S seen) r
      else runsWithin limit 0 r
  end.

Definition startsWithHyphen (s : string) : bool :=
  match s with
  | String c _ => isHyphen c
  | EmptyString => false
  end.

Definition endsWithHyphen (s : string) : bool :=
  match JS.lastChar s with
  | Some c => isHyphen c
  | None => false
  end.

(** A trimmed identifier body over [[a-z0-9-]] whose hyphen runs have at
    most [limit] hyphens. *)
Definition isSlug (limit : nat) (s : string) : bool :=
  allChars isCssChar s && runsWithin limit 0 s
    && negb (startsWithHyphen s) && negb (endsWithHyphen s).

(* ================================================================== *)
(** ** Text-style names and variable groups *)
(* ================================================================== *)

(** [.replace(/-{n+1,}/g, '-' * n)]: a run of hyphens keeps at most
    [limit]. *)
Fixpoint capRuns (limit seen : nat) (s : string) : string :=
  match s with
  | EmptyString => EmptyString
  | String c r =>
      if isHyphen c
      then (if (seen <? limit)%nat then String c (capRuns limit (S seen) r)
            else capRuns limit seen r)
      else String c (capRuns limit 0 r)
  end.

Fixpoint skipChars (n : nat) (s : string) : string :=
  match n, s with
  | S n', String _ r => skipChars n' r
  | _, _ => s
  end.

Definition TEXT_STYLE_PREFIXES : list string := ["short-form"; "long-form"; "sf"; "lf"].

(** [.replace(/^(?:Short-form|Long-form|SF|LF)\s*\/\s*/i, '')].  The four
    alternatives exclude one another at the start of a string, and the
    white space before the slash cannot be given back to anything. *)
Definition stripStylePrefix (styleName : string) : string :=
  match find (fun p => JS.startsWith (JS.toLowerCase styleName) p) TEXT_STYLE_PREFIXES with
  | Some p =>
      match JS.dropWhile JS.isSpace (skipChars (String.length p) styleName) with
      | String "/" rest => JS.dropWhile JS.isSpace rest
      | _ => styleName
      end
  | None => styleName
  end.

Definition generateTextStyleName (styleName : string) : string :=
  let s := JS.toLowerCase (stripStylePrefix styleName) in
  let s := JS.mapChars (fun c => if Ascii.eqb c "/" then "-"%char else c) s in
  let s := collapseSpaces false s in
  let s := JS.mapChars (fun c => if JS.isLower c || JS.isDigit c || isHyphen c
                                 then c else "-"%char) s in
  let s := capRuns 1 0 s in
  JS.dropWhileEnd isHyphen (JS.dropWhile isHyphen s).

(** [variableName.lastIndexOf('/')], [None] standing for [-1]. *)
Fixpoint lastSlash (s : string) : option nat :=
  match s with
  | EmptyString => None
  | String c r =>
      match lastSlash r with
      | Some i => Some (S i)
      | None => if Ascii.eqb c "/" then Some 0%nat else None
      end
  end.

Definition getVariableGroup (variableName : string) : string :=
  match lastSlash variableName with
  | None => ""
  | Some i => String.substring 0 i variableName
  end.

(* ================================================================== *)
(** ** Non-linear deviation *)
(* ================================================================== *)

Record ModeValue := {
  mv_name : string;
  mv_value : float;
  mv_breakpointPx : Z
}.

Record Deviation := {
  deviationL : float;
  deviationT : float;
  desktopVal : float;
  laptopVal : float;
  laptopExpected : float;
  tabletVal : float;
  tabletExpected : float;
  mobileVal : float;
  modeValues : list ModeValue
}.

(** The loop that collects one number per mode; it gives up at the first
    mode without a value, with an alias or with anything but a number. *)
Fixpoint collectModeValues (variable : VariableInfo) (modes : list BpMode)
  : option (list ModeValue) :=
  match modes with
  | [] => Some []
  | m :: rest =>
      match lookupMode (valuesByMode variable) (bm_modeId m) with
      | None => None
      | Some val =>
          if pv_isAlias val then None
          else
            match resolved val with
            | RNum x =>
                collected ← collectModeValues variable rest;
                Some ({| mv_name := bm_name m; mv_value := x;
                         mv_breakpointPx := bm_breakpointPx m |} :: collected)
            | _ => None
            end
      end
  end.

(** [getNonLinearDeviation]; [None] stands for [null].  The list of mode
    values is as long as the list of modes, so with two modes at least
    its first element exists. *)
Definition getNonLinearDeviation (variable : VariableInfo) (modes : list BpMode)
  : option Deviation :=
  if (length modes <? 2)%nat then None
  else if negb (bool_decide (resolvedType variable = FLOAT)) then None
  else
    match collectModeValues variable modes with
    | None | Some [] => None
    | Some (first :: rest) =>
        if forallb (fun mv => JS.strictEq (mv_value mv) (mv_value first)) rest then None
        else
          let values := first :: rest in
          let dVal := mv_value first in
          let mVal := mv_value (List.last values first) in
          let lVal := match values !! 1%nat with Some mv => mv_value mv | None => dVal end in
          let tVal := match values !! 2%nat with Some mv => mv_value mv | None => mVal end in
          let '(devL, devT, lExp, tExp) :=
            match modes with
            | m0 :: m1 :: m2 :: m3 :: _ =>
                if negb (JS.strictEq dVal mVal) then
                  let dVP := JS.ofZ (bm_breakpointPx m0) in
                  let lVP := JS.ofZ (bm_breakpointPx m1) in
                  let tVP := JS.ofZ (bm_breakpointPx m2) in
                  let mVP := JS.ofZ (bm_breakpointPx m3) in
                  let slope := ((dVal - mVal) / (dVP - mVP))%float in
                  let lExp := (mVal + slope * (lVP - mVP))%float in
                  let tExp := (mVal + slope * (tVP - mVP))%float in
                  let range := JS.abs (dVal - mVal) in
                  if (0 <? range)%float
                  then ((JS.abs (lVal - lExp) / range)%float,
                        (JS.abs (tVal - tExp) / range)%float, lExp, tExp)
                  else (0%float, 0%float, lExp, tExp)
                else (0%float, 0%float, lVal, tVal)
            | _ => (0%float, 0%float, lVal, tVal)
            end in
          Some {| deviationL := devL; deviationT := devT;
                  desktopVal := dVal; laptopVal := lVal; laptopExpected := lExp;
                  tabletVal := tVal; tabletExpected := tExp; mobileVal := mVal;
                  modeValues := values |}
    end.

(** A four-breakpoint layout foundation whose gutter does not scale
    linearly. *)
Definition layoutFoundations : HostCollection :=
  hostCollection "C:70" "Layout - 1. Foundations"
    [("70:0", "Desktop"); ("70:1", "Laptop"); ("70:2", "Tablet"); ("70:3", "Mobile")]
    [ hostVariable "V:70" "gutter" FLOAT
        [("70:0", RawNumber 32); ("70:1", RawNumber 28);
         ("70:2", RawNumber 20); ("70:3", RawNumber 16)] ].

Definition gutterVariable : VariableInfo :=
  nth 0 (resolvedGraph [layoutFoundations]) (namedVariable "").

Definition layoutMode (i : nat) : BpMode :=
  nth i (sortedBreakpointModes BREAKPOINT_MODES (hc_collection layoutFoundations))
      desktopMode.

(** A four-breakpoint ramp whose tablet value, 63, lies on the straight
    line from 0 at 480px to 210 at 1680px. *)
Definition rampFoundations : HostCollection :=
  hostCollection "C:71" "Ramp - 1. Foundations"
    [("70:0", "Desktop"); ("70:1", "Laptop"); ("70:2", "Tablet"); ("70:3", "Mobile")]
    [ hostVariable "V:71" "ramp" FLOAT
        [("70:0", RawNumber 210); ("70:1", RawNumber 160);
         ("70:2", RawNumber 63); ("70:3", RawNumber 0)] ].

Definition rampVariable : VariableInfo :=
  nth 0 (resolvedGraph [rampFoundations]) (namedVariable "").

(** A three-breakpoint foundation with an inset of 48 at Desktop, 0 at
    Tablet and 24.375 at Mobile. *)
Definition insetFoundations : HostCollection :=
  hostCollection "C:72" "Inset - 1. Foundations"
    [("72:0", "Desktop"); ("72:1", "Tablet"); ("72:2", "Mobile")]
    [ hostVariable "V:72" "inset" FLOAT
        [("72:0", RawNumber 48); ("72:1", RawNumber 0); ("72:2", RawNumber 24.375)] ].

Definition insetVariable : VariableInfo :=
  nth 0 (resolvedGraph [insetFoundations]) (namedVariable "").

Definition insetMode (i : nat) : BpMode :=
  nth i (sortedBreakpointModes BREAKPOINT_MODES (hc_collection insetFoundations))
      desktopMode.

(** A three-breakpoint typography foundation whose weight is 400 at
    Desktop and at Mobile and 700 in between. *)
Definition emphasisFoundations : HostCollection :=
  hostCollection "C:3" "Typo - 1. Foundations"
    [("3:0", "Desktop"); ("3:1", "Tablet"); ("3:2", "Mobile")]
    [ hostVariable "V:3" "font/weight" FLOAT
        [("3:0", RawNumber 400); ("3:1", RawNumber 700); ("3:2", RawNumber 400)] ].

Definition emphasisVariables : list VariableInfo := resolvedGraph [emphasisFoundations].

Definition emphasisVariable : VariableInfo := nth 0 emphasisVariables (namedVariable "").

Definition emphasisModes : list BpMode :=
  sortedBreakpointModes BREAKPOINT_MODES (hc_collection emphasisFoundations).

(* ================================================================== *)
(** ** Hexadecimal colours *)
(* ================================================================== *)











(** The line opens a media query. *)
Definition isMediaQuery (l : string) : bool := JS.startsWith l "@media".

(** A breakpoint foundation whose radius is the same at both widths. *)
Definition shapeFoundations : HostCollection :=
  hostCollection "C:80" "Shape - 1. Foundations" [("80:0", "Desktop"); ("80:1", "Mobile")]
    [ hostVariable "V:80" "radius/base" FLOAT [("80:0", RawNumber 4); ("80:1", RawNumber 4)] ].

Definition radiusVariable : VariableInfo :=
  nth 0 (resolvedGraph [shapeFoundations]) (namedVariable "").

(* ================================================================== *)
(** * Properties *)
(* ================================================================== *)

(** ** Strings: occurrences, positions and decompositions *)

Section StringFacts.

Lemma append_empty (s : string) : "" +:+ s = s.
Proof. reflexivity. Qed.

Lemma append_cons (c : ascii) (s t : string) : String c s +:+ t = String c (s +:+ t).
Proof. reflexivity. Qed.








Lemma get_lt (s : string) : forall i,
  (i < String.length s)%nat -> exists c, String.get i s = Some c.
Proof.
  induction s as [|c s IH]; intros [|i] H; simpl in *; try lia; eauto.
  apply IH; lia.
Qed.

Lemma lastChar_cons (c d : ascii) (s : string) :
  JS.lastChar (String c (String d s)) = JS.lastChar (String d s).
Proof. reflexivity. Qed.



End StringFacts.

(** ** The unitless classifier *)

Section SegmentMatching.


Lemma lastChar_None (s : string) : JS.lastChar s = None -> s = "".
Proof.
  induction s as [|c s IH]; [reflexivity|].
  destruct s as [|d s]; [discriminate|].
  rewrite lastChar_cons. intros H. specialize (IH H). discriminate.
Qed.






End SegmentMatching.


(** ** Mode-type classification *)

Section ModeTypeFacts.

Variable bp : BreakpointTable.

Lemma resolvesAll_iff (modes : list Mode) :
  existsb (fun m => isNone (breakpointPx m)) (modeInfosOf bp modes) = false
  <-> resolvesAll bp modes.
Proof.
  unfold resolvesAll, modeInfosOf. induction modes as [|m modes IH]; simpl.
  - split; [intros _ x [] | reflexivity].
  - rewrite orb_false_iff, IH. split.
    + intros [H1 H2] x [<-|Hx]; [|now apply H2].
      destruct (detectBreakpoint bp (m_name m)); [discriminate | discriminate H1].
    + intros H. split.
      * specialize (H m (or_introl eq_refl)).
        destruct (detectBreakpoint bp (m_name m)); [reflexivity | congruence].
      * intros x Hx. apply H. now right.
Qed.

Lemma someThemeName_iff (modes : list Mode) :
  existsb (fun m => existsb (fun t => JS.includes (JS.toLowerCase (name m)) t) THEME_MODES)
          (modeInfosOf bp modes) = true
  <-> someThemeName modes.
Proof.
  unfold someThemeName, modeInfosOf, THEME_MODES.
  induction modes as [|m modes IH]; simpl.
  - split; [discriminate | intros (x & [] & _)].
  - rewrite orb_true_iff, IH, orb_false_r, orb_true_iff. split.
    + intros [H|(x & Hx & H)]; [exists m | exists x]; auto.
    + intros (x & [<-|Hx] & H); [now left | right; eauto].
Qed.

Lemma length_modeInfosOf (modes : list Mode) :
  length (modeInfosOf bp modes) = length modes.
Proof. unfold modeInfosOf. apply length_map. Qed.

End ModeTypeFacts.

(** C2, as the code has it.  The single-mode test comes first and wins: a
    list of exactly one mode is [Single] whatever its name.  For any other
    list the type is [Breakpoint] exactly when every mode name resolves to a
    known breakpoint width, [Theme] exactly when that fails and some mode
    name contains [light] or [dark], and [Single] in every remaining case. *)
Theorem detectModeType_characterisation :
  forall (bp : BreakpointTable) (modes : list Mode),
    (derivedModeType bp modes = Single
       <-> length modes = 1%nat \/ (~ resolvesAll bp modes /\ ~ someThemeName modes))
    /\ (derivedModeType bp modes = Breakpoint
       <-> length modes <> 1%nat /\ resolvesAll bp modes)
    /\ (derivedModeType bp modes = Theme
       <-> length modes <> 1%nat /\ someThemeName modes /\ ~ resolvesAll bp modes).
Proof.
  intros bp modes. unfold derivedModeType, detectModeType.
  rewrite length_modeInfosOf.
  pose proof (resolvesAll_iff bp modes) as HR.
  pose proof (someThemeName_iff bp modes) as HT.
  destruct (Nat.eqb_spec (length modes) 1) as [H1|H1].
  { repeat split; try discriminate; try tauto. }
  destruct (existsb (fun m => isNone (breakpointPx m)) (modeInfosOf bp modes)) eqn:EB;
    cbn [negb].
  - assert (NR : ~ resolvesAll bp modes) by (rewrite <- HR; discriminate).
    destruct (existsb (fun m => existsb _ THEME_MODES) (modeInfosOf bp modes)) eqn:ET.
    + assert (T : someThemeName modes) by (now apply HT).
      repeat split; try discriminate; try tauto.
    + assert (NT : ~ someThemeName modes) by (rewrite <- HT; discriminate).
      repeat split; try discriminate; try tauto.
  - assert (R : resolvesAll bp modes) by (now apply HR).
    repeat split; try discriminate; try tauto.
Qed.

(** The invariant as worded fails for the one-mode list [Desktop]: its only
    mode resolves to a breakpoint width, and the derived type is [Single]. *)
Lemma modeTypeInvariant_fails_single_desktop :
  derivedModeType BREAKPOINT_MODES [ {| m_modeId := "1:0"; m_name := "Desktop" |} ] = Single
  /\ resolvesAll BREAKPOINT_MODES [ {| m_modeId := "1:0"; m_name := "Desktop" |} ]
  /\ ~ modeTypeInvariant BREAKPOINT_MODES [ {| m_modeId := "1:0"; m_name := "Desktop" |} ].
Proof.
  assert (R : resolvesAll BREAKPOINT_MODES [ {| m_modeId := "1:0"; m_name := "Desktop" |} ]).
  { intros m [<-|[]]. vm_compute. discriminate. }
  split; [reflexivity|]. split; [exact R|].
  intros (_ & [_ H] & _). specialize (H R). vm_compute in H. discriminate.
Qed.

(** ** Grid-proportion mapping *)

(** C5, as the code has it.  The mapping is a function of the variable name
    alone.  It answers only for a name that, in lower case, contains
    [proportion] and does not contain [viewport]; any other name maps to
    nothing.  Under that guard each word of the vocabulary maps to its column
    count, and every name containing [three-quarters] (hence also [quarter])
    maps to 9, not 3: the table is scanned from the longest patterns down. *)
Theorem getProportionColumnCount_vocabulary :
  (forall variable,
      nameContains variable "proportion" = true ->
      nameContains variable "viewport" = false ->
      nameContains variable "three-quarters" = true ->
      getProportionColumnCount variable = Some 9%Z)
  /\ (forall w k variable,
        In (w, k) proportionVocabulary ->
        v_name variable = "proportion/" +:+ w ->
        getProportionColumnCount variable = Some k)
  /\ (forall variable,
        nameContains variable "proportion" = false \/ nameContains variable "viewport" = true ->
        getProportionColumnCount variable = None)
  /\ (forall v1 v2, v_name v1 = v_name v2 ->
        getProportionColumnCount v1 = getProportionColumnCount v2).
Proof.
  unfold nameContains. repeat split.
  - intros variable Hp Hv H34. unfold getProportionColumnCount.
    rewrite Hp, Hv. cbn [negb]. unfold PROPORTION_COLUMNS.
    cbn [find patterns existsb]. rewrite H34. reflexivity.
  - intros w k variable Hin Hname. unfold getProportionColumnCount. rewrite Hname.
    unfold proportionVocabulary in Hin. simpl in Hin.
    destruct Hin as [E|[E|[E|[E|[E|[E|[]]]]]]]; injection E as <- <-; vm_compute; reflexivity.
  - intros variable [H|H]; unfold getProportionColumnCount; rewrite H; [reflexivity|].
    now destruct (negb _).
  - intros v1 v2 H. unfold getProportionColumnCount. now rewrite H.
Qed.

(** The guard at work on the three-quarters rule: an admissible proportion
    name containing both [three-quarters] and [quarter] maps to 9. *)
Lemma getProportionColumnCount_vocabulary_witness :
  getProportionColumnCount (namedVariable "Layout/Proportion/Three-Quarters") = Some 9%Z.
Proof.
  apply (proj1 getProportionColumnCount_vocabulary); vm_compute; reflexivity.
Defined.

(** Without the word [proportion] in it, a name containing both
    [three-quarters] and [quarter] maps to nothing, not to 9. *)
Lemma three_quarters_without_proportion_unmapped :
  JS.includes (v_name (namedVariable "three-quarters")) "three-quarters" = true
  /\ JS.includes (v_name (namedVariable "three-quarters")) "quarter" = true
  /\ getProportionColumnCount (namedVariable "three-quarters") = None
  /\ ~ (forall variable,
          JS.includes (v_name variable) "three-quarters" = true ->
          JS.includes (v_name variable) "quarter" = true ->
          getProportionColumnCount variable = Some 9%Z).
Proof.
  repeat split; try reflexivity.
  intros H. specialize (H (namedVariable "three-quarters") eq_refl eq_refl).
  vm_compute in H. discriminate.
Qed.

(** ** Linear clamp of the fluid emitter *)

Section EmitLoops.

Lemma head_In {A} (l : list A) (x : A) : head l = Some x -> In x l.
Proof. destruct l; [discriminate|]. intros [= ->]. now left. Qed.

Lemma last_In {A} (l : list A) (x : A) : last l = Some x -> In x l.
Proof.
  induction l as [|a l IH]; [discriminate|].
  destruct l as [|b l]; [intros [= ->]; now left|].
  intros H. right. apply IH. exact H.
Qed.

(** Lines a loop body pushes for a variable, whatever the state it runs
    in, are among the lines of the loop. *)
Lemma runLoopM_lines step (L : list string) (v : VariableInfo) :
  (forall st0, exists st1, step v st0 = Some (L, st1)) ->
  forall l st lines st',
    runLoopM step l st = Some (lines, st') -> In v l -> incl L lines.
Proof.
  intros Hstep l. induction l as [|a l IH]; intros st lines st' H Hin; [destruct Hin|].
  simpl in H.
  destruct (step a st) as [[l1 st1]|] eqn:Ea; [|discriminate]. simpl in H.
  destruct (runLoopM step l st1) as [[l2 st2]|] eqn:El; [|discriminate]. simpl in H.
  injection H as <- <-.
  destruct Hin as [->|Hin].
  - destruct (Hstep st) as [s1 Hs]. rewrite Hs in Ea. injection Ea as <- <-.
    now apply incl_appl, incl_refl.
  - apply incl_appr. eapply IH; eauto.
Qed.

(** A variable that passes the gate and needs no media query is in the
    clamp-based part of the partition. *)
Lemma partitionVars_clampable modes options st lid (v : VariableInfo) value :
  lookupMode (valuesByMode v) lid = Some value ->
  shouldSkipVariable v value st = false ->
  needsMediaQueries v modes options = Some false ->
  forall variables clampable mediaQuery,
    partitionVars modes options st lid variables = Some (clampable, mediaQuery) ->
    In v variables -> In v clampable.
Proof.
  intros Hl Hs Hn variables.
  induction variables as [|a l IH]; intros cl mq H Hin; [destruct Hin|].
  simpl in H.
  destruct Hin as [->|Hin].
  - rewrite Hl, Hs, Hn in H. simpl in H.
    destruct (partitionVars modes options st lid l) as [[c m]|]; [|discriminate].
    simpl in H. injection H as <- <-. now left.
  - destruct (lookupMode (valuesByMode a) lid) as [va|]; [|eauto].
    destruct (shouldSkipVariable a va st); [eauto|].
    destruct (needsMediaQueries a modes options) as [nmq|]; [|discriminate]. simpl in H.
    destruct (partitionVars modes options st lid l) as [[c m]|]; [|discriminate].
    simpl in H. destruct nmq; injection H as <- <-.
    + eapply IH; eauto.
    + right. eapply IH; eauto.
Qed.

End EmitLoops.

Section LinearClamp.

Variables (modes : list BpMode) (options : ExportOptions) (variable : VariableInfo).
Variables (maxMode minMode : BpMode) (maxV minV : float).

Hypothesis Hmax : head modes = Some maxMode.
Hypothesis Hmin : last modes = Some minMode.
Hypothesis Hfloat : resolvedType variable = FLOAT.
Hypothesis Hnoalias : noAliasInAnyMode variable modes.
Hypothesis Hvariance : hasModeVariance variable modes options = Some true.
Hypothesis Hproportion : shouldUseProportion variable options = false.
Hypothesis Hviewport : shouldUseViewportRelative variable options = false.
Hypothesis Hpiecewise : shouldUsePiecewiseClamp variable options = false.
Hypothesis HmaxV : resolvedAt variable (bm_modeId maxMode) = RNum maxV.
Hypothesis HminV : resolvedAt variable (bm_modeId minMode) = RNum minV.
Hypothesis Hintercept :
  (0 <=? JS.round (clampIntercept minV maxV (bm_breakpointPx minMode)
                                  (bm_breakpointPx maxMode)) 2)%float = true.

Let expected : string :=
  if isUnitless variable && JS.strictEq maxV minV
  then JS.numToString (JS.round maxV 2)
  else linearClamp (unitOf variable) minV maxV
                   (bm_breakpointPx minMode) (bm_breakpointPx maxMode).

Lemma clampExpr_linearClamp :
  clampExpr (unitOf variable) maxV minV (bm_breakpointPx maxMode) (bm_breakpointPx minMode)
            (JS.min minV maxV) (JS.max minV maxV)
  = linearClamp (unitOf variable) minV maxV
                (bm_breakpointPx minMode) (bm_breakpointPx maxMode).
Proof.
  unfold clampExpr, linearClamp.
  fold (clampSlope minV maxV (bm_breakpointPx minMode) (bm_breakpointPx maxMode)).
  fold (clampIntercept minV maxV (bm_breakpointPx minMode) (bm_breakpointPx maxMode)).
  rewrite Hintercept. reflexivity.
Qed.

Lemma generateFluidValue_linear :
  generateFluidValue modes variable options
  = Some {| fr_value := expected; isViewportRelative := false |}.
Proof.
  unfold generateFluidValue. rewrite Hmax, Hmin. simpl.
  rewrite HmaxV, HminV, Hviewport.
  fold (unitOf variable). rewrite clampExpr_linearClamp. unfold expected.
  destruct (isUnitless variable && JS.strictEq maxV minV); reflexivity.
Qed.

Lemma needsMediaQueries_clampable :
  needsMediaQueries variable modes options = Some false.
Proof.
  unfold needsMediaQueries. rewrite Hvariance. simpl. rewrite Hfloat. simpl.
  f_equal. apply not_true_is_false. intros H.
  apply existsb_exists in H. destruct H as (m & Hin & H).
  destruct (lookupMode (valuesByMode variable) (bm_modeId m)) as [v|] eqn:E; [|discriminate].
  rewrite (Hnoalias m v Hin E) in H. discriminate.
Qed.

(** The default block's loop body, run for the variable in either
    direction's default mode, pushes the clamp declaration. *)
Lemma clampableStep_linear (defaultMode : BpMode) (st : EmitState) :
  defaultMode = maxMode \/ defaultMode = minMode ->
  clampableStep modes options (bm_modeId defaultMode) variable st
  = Some (idComment options variable ++ [decl "  " variable expected],
          addName st (cssName variable)).
Proof.
  intros Hd.
  assert (Hin : In defaultMode modes)
    by (destruct Hd as [->| ->]; [now apply head_In | now apply last_In]).
  assert (Hnum : exists x, resolvedAt variable (bm_modeId defaultMode) = RNum x)
    by (destruct Hd as [->| ->]; eauto).
  destruct Hnum as [q Hq]. unfold resolvedAt in Hq.
  unfold clampableStep.
  destruct (lookupMode (valuesByMode variable) (bm_modeId defaultMode)) as [value|] eqn:E;
    [|discriminate].
  pose proof (Hnoalias _ _ Hin E) as Ha. simpl.
  unfold formatCSSValue. rewrite Ha, Hq, Hfloat.
  replace (match aliasMode options with Preserved | _ => None end) with (@None string)
    by (now destruct (aliasMode options)).
  assert (Hfmt : exists s, (if isUnitless variable
                            then Some (JS.numToString (JS.round q 2))
                            else Some (JS.numToString (JS.round q 2) +:+ "px")) = Some s)
    by (destruct (isUnitless variable); eauto).
  destruct Hfmt as [s ->].
  rewrite Hvariance. simpl.
  unfold fluidDeclLines. rewrite Hproportion, Hpiecewise, generateFluidValue_linear.
  reflexivity.
Qed.

End LinearClamp.

(** *** The fluid emitter returns *)

Lemma lookup_Some_of_neq {A} (o : option A) : o <> None -> exists x, o = Some x.
Proof. destruct o; [eauto | congruence]. Qed.

Lemma modes_head (modes : list BpMode) :
  (2 <= length modes)%nat -> exists m, head modes = Some m /\ In m modes.
Proof.
  destruct modes as [|m l]; simpl; [lia|]. intros _. exists m. split; [reflexivity | now left].
Qed.

Lemma modes_last (modes : list BpMode) :
  (2 <= length modes)%nat -> exists m, last modes = Some m /\ In m modes.
Proof.
  intros H. destruct (last modes) as [m|] eqn:E.
  - exists m. split; [reflexivity | now apply last_In].
  - apply last_None in E. rewrite E in H. simpl in H. lia.
Qed.

Lemma modes_lookup (modes : list BpMode) (i : nat) :
  (i < length modes)%nat -> exists m, modes !! i = Some m.
Proof. intros H. apply lookup_lt_is_Some_2 in H. destruct H as [m H]. eauto. Qed.

Lemma hasModeVariance_returns modes options (v : VariableInfo) :
  holdsModes modes v -> exists b, hasModeVariance v modes options = Some b.
Proof.
  intros H. unfold hasModeVariance.
  destruct modes as [|m0 [|m1 l]]; [eauto | eauto |].
  destruct (lookup_Some_of_neq _ (H m0 (or_introl eq_refl))) as [v0 ->]. simpl. eauto.
Qed.

Lemma needsMediaQueries_returns modes options (v : VariableInfo) :
  holdsModes modes v -> exists b, needsMediaQueries v modes options = Some b.
Proof.
  intros H. unfold needsMediaQueries.
  destruct (hasModeVariance_returns modes options v H) as [b ->]. simpl.
  destruct (negb b); [eauto|]. destruct (negb _); eauto.
Qed.

Lemma partitionVars_returns modes options st lid (variables : list VariableInfo) :
  (forall v, In v variables -> holdsModes modes v) ->
  exists clampable mediaQuery,
    partitionVars modes options st lid variables = Some (clampable, mediaQuery)
    /\ incl clampable variables /\ incl mediaQuery variables.
Proof.
  induction variables as [|a l IH]; intros H.
  - exists [], []. repeat split; apply incl_refl.
  - destruct IH as (cl & mq & E & Hc & Hq); [intros v Hv; apply H; now right|].
    simpl.
    destruct (lookupMode (valuesByMode a) lid) as [value|].
    + destruct (shouldSkipVariable a value st).
      * exists cl, mq. repeat split; auto using incl_tl.
      * destruct (needsMediaQueries_returns modes options a (H a (or_introl eq_refl)))
          as [b ->].
        simpl. rewrite E. simpl. destruct b.
        -- exists cl, (a :: mq). repeat split; auto using incl_tl, incl_cons, in_eq.
        -- exists (a :: cl), mq. repeat split; auto using incl_tl, incl_cons, in_eq.
    + exists cl, mq. repeat split; auto using incl_tl.
Qed.

Lemma generateFluidValue_returns modes options (v : VariableInfo) :
  (2 <= length modes)%nat -> exists r, generateFluidValue modes v options = Some r.
Proof.
  intros Hm. unfold generateFluidValue.
  destruct (modes_head modes Hm) as (m0 & -> & _).
  destruct (modes_last modes Hm) as (m1 & -> & _). simpl.
  destruct (resolvedAt v (bm_modeId m0)); eauto.
  destruct (resolvedAt v (bm_modeId m1)); eauto.
  destruct (shouldUseViewportRelative v options); eauto.
  destruct (isUnitless v && JS.strictEq _ _); eauto.
Qed.

Lemma fluidDeclLines_returns modes options (v : VariableInfo) cssValue :
  (2 <= length modes)%nat -> exists ls, fluidDeclLines modes options v cssValue = Some ls.
Proof.
  intros Hm. unfold fluidDeclLines.
  destruct (shouldUseProportion v options).
  { destruct (getProportionColumnCount v); eauto. }
  destruct (shouldUsePiecewiseClamp v options).
  { destruct (modes_lookup modes 0 ltac:(lia)) as [m0 ->].
    destruct (modes_lookup modes 1 ltac:(lia)) as [m1 ->]. simpl. eauto. }
  destruct (generateFluidValue_returns modes options v Hm) as [r ->]. simpl. eauto.
Qed.

Lemma clampableStep_returns modes options (dm : BpMode) (v : VariableInfo) st :
  (2 <= length modes)%nat -> In dm modes -> holdsModes modes v ->
  exists r, clampableStep modes options (bm_modeId dm) v st = Some r.
Proof.
  intros Hm Hd H. unfold clampableStep.
  destruct (lookup_Some_of_neq _ (H dm Hd)) as [value ->]. simpl.
  destruct (formatCSSValue value v options) as [cssValue|]; [|eauto].
  destruct (hasModeVariance_returns modes options v H) as [b ->]. simpl.
  destruct (b && bool_decide (resolvedType v = FLOAT) && negb (pv_isAlias value)).
  - destruct (fluidDeclLines_returns modes options v cssValue Hm) as [ls ->]. simpl. eauto.
  - simpl. eauto.
Qed.

Lemma mediaQueryStep_returns modes options (dm : BpMode) (v : VariableInfo) st :
  In dm modes -> holdsModes modes v ->
  exists r, mediaQueryStep options (bm_modeId dm) v st = Some r.
Proof.
  intros Hd H. unfold mediaQueryStep.
  destruct (lookup_Some_of_neq _ (H dm Hd)) as [value ->]. simpl.
  destruct (formatCSSValue value v options); eauto.
Qed.

Lemma runLoopM_returns step (l : list VariableInfo) :
  (forall v st, In v l -> exists r, step v st = Some r) ->
  forall st, exists r, runLoopM step l st = Some r.
Proof.
  induction l as [|a l IH]; intros H st; simpl; [eauto|].
  destruct (H a st (or_introl eq_refl)) as [[l1 st1] ->]. simpl.
  destruct (IH (fun v s Hv => H v s (or_intror Hv)) st1) as [[l2 st2] ->]. simpl. eauto.
Qed.

Lemma filterM_returns {A} (p : A -> option bool) (l : list A) :
  (forall x, In x l -> exists b, p x = Some b) -> exists r, filterM p l = Some r.
Proof.
  induction l as [|a l IH]; intros H; simpl; [eauto|].
  destruct (H a (or_introl eq_refl)) as [b ->]. simpl.
  destruct (IH (fun x Hx => H x (or_intror Hx))) as [r ->]. simpl. eauto.
Qed.

Lemma bind_Some {A B} (x : A) (f : A -> option B) : (Some x ≫= f) = f x.
Proof. reflexivity. Qed.

Lemma piecewiseBlocks_returns modes options isDesktopFirst (clampable : list VariableInfo) :
  (forall v, In v clampable -> holdsModes modes v) ->
  exists r, piecewiseBlocks isDesktopFirst modes options clampable = Some r.
Proof.
  intros H. unfold piecewiseBlocks.
  destruct (nonLinearOverrides options) as [[|o os]|]; [now eexists| |now eexists].
  assert (Hp : forall v, In v clampable -> exists b, isPiecewiseVar modes options v = Some b).
  { intros v Hv. unfold isPiecewiseVar.
    destruct (_ && _ && _); [|now eexists].
    destruct (hasModeVariance_returns modes options v (H v Hv)) as [b ->].
    rewrite bind_Some. now eexists. }
  destruct (filterM_returns (isPiecewiseVar modes options) clampable Hp) as [pv ->].
  rewrite bind_Some. destruct pv as [|p ps]; [now eexists|].
  destruct (Nat.leb_spec 3 (length modes)) as [H3|H3]; [|now eexists].
  destruct (modes_lookup modes 0 ltac:(lia)) as [m0 ->].
  destruct (modes_lookup modes 1 ltac:(lia)) as [m1 ->].
  destruct (modes_lookup modes 2 ltac:(lia)) as [m2 ->]. rewrite !bind_Some.
  destruct isDesktopFirst; [|now eexists].
  destruct (Nat.leb_spec 4 (length modes)) as [H4|H4]; [|rewrite bind_Some; now eexists].
  destruct (modes_lookup modes 3 ltac:(lia)) as [m3 ->]. rewrite !bind_Some. now eexists.
Qed.

Lemma fallbackBlocks_returns modes options isDesktopFirst (clampable : list VariableInfo) :
  (forall v, In v clampable -> holdsModes modes v) ->
  exists r, fallbackBlocks isDesktopFirst modes options clampable = Some r.
Proof.
  intros H. unfold fallbackBlocks.
  destruct (includeLegacyFallbacks options); [|eauto].
  assert (Hp : forall v, In v clampable -> exists b, hasFallback modes options v = Some b).
  { intros v Hv. unfold hasFallback.
    destruct (hasModeVariance_returns modes options v (H v Hv)) as [b ->]. simpl. eauto. }
  destruct (filterM_returns (hasFallback modes options) clampable Hp) as [cv ->].
  simpl. destruct cv; eauto.
Qed.

(** With at least two modes and a value for every mode of every variable,
    the fluid emitter returns its lines. *)
Lemma generateFluidCSS_returns modes options (variables : list VariableInfo) st :
  (2 <= length modes)%nat ->
  holdsAllModes variables modes ->
  exists lines st', generateFluidCSS modes variables options st = Some (lines, st').
Proof.
  intros Hm H. unfold generateFluidCSS.
  destruct (modes_head modes Hm) as (m0 & E0 & I0).
  destruct (modes_last modes Hm) as (m1 & E1 & I1).
  set (isDesktopFirst := match breakpointDirection options with
                         | MobileFirst => false | DesktopFirst => true end).
  assert (Hdm : exists dm, (if isDesktopFirst then head modes else last modes) = Some dm
                           /\ In dm modes)
    by (destruct isDesktopFirst; eauto).
  destruct Hdm as (dm & -> & Idm). rewrite E0. simpl.
  assert (Hall : forall v, In v variables -> holdsModes modes v)
    by (intros v Hv m Hm'; now apply H).
  destruct (partitionVars_returns modes options st (bm_modeId m0) variables Hall)
    as (cl & mq & -> & Hc & Hq).
  simpl.
  assert (Hcl : forall v, In v cl -> holdsModes modes v)
    by (intros v Hv; apply Hall, Hc, Hv).
  assert (Hmq : forall v, In v mq -> holdsModes modes v)
    by (intros v Hv; apply Hall, Hq, Hv).
  assert (S1 : forall v s, In v cl ->
                 exists r, clampableStep modes options (bm_modeId dm) v s = Some r)
    by (intros v s Hv; apply clampableStep_returns; auto).
  destruct (runLoopM_returns _ cl S1 st) as [[cls st1] ->]. simpl.
  assert (S2 : forall v s, In v mq ->
                 exists r, mediaQueryStep options (bm_modeId dm) v s = Some r)
    by (intros v s Hv; apply (mediaQueryStep_returns modes); auto).
  destruct (runLoopM_returns _ mq S2 st1) as [[mqs st2] ->]. simpl.
  destruct (piecewiseBlocks_returns modes options isDesktopFirst cl Hcl) as [pw ->]. simpl.
  destruct (fallbackBlocks_returns modes options isDesktopFirst cl Hcl) as [fb ->]. simpl.
  eauto.
Qed.

(** C1, as the code has it.  A FLOAT variable that passes the dedup gate,
    holds no alias in any mode, varies across modes, is not given the
    proportion, viewport-relative or piecewise treatment and holds numbers in
    the two extreme breakpoint modes gets, when the rounded intercept is
    non-negative, the declaration
    [clamp(round(min,2)U, calc(round(intercept,2)U + round(slope*100,4)vw), round(max,2)U)]
    with [slope = (maxVal-minVal)/(maxPx-minPx)] and
    [intercept = minVal - slope*minPx], every operation being the binary64
    one.  The unit [U] is [px], and is omitted for a variable the unitless
    classifier accepts; a unitless variable with equal extreme values gets
    the bare rounded number instead of a clamp.  For Desktop = 1680px with
    32 and Mobile = 480px with 25.6 the value is
    [clamp(25.6px, calc(23.04px + 0.5333vw), 32px)]; for 1.5 and 0.625 the
    intercept 0.275 computed in binary64 rounds down, to [0.27px]. *)
Theorem fluid_linear_clamp_emitted :
  (forall modes variables options st lines st' variable value maxMode minMode maxV minV,
      generateFluidCSS modes variables options st = Some (lines, st') ->
      In variable variables ->
      head modes = Some maxMode ->
      last modes = Some minMode ->
      lookupMode (valuesByMode variable) (bm_modeId maxMode) = Some value ->
      shouldSkipVariable variable value st = false ->
      resolvedType variable = FLOAT ->
      noAliasInAnyMode variable modes ->
      hasModeVariance variable modes options = Some true ->
      shouldUseProportion variable options = false ->
      shouldUseViewportRelative variable options = false ->
      shouldUsePiecewiseClamp variable options = false ->
      resolvedAt variable (bm_modeId maxMode) = RNum maxV ->
      resolvedAt variable (bm_modeId minMode) = RNum minV ->
      (0 <=? JS.round (clampIntercept minV maxV (bm_breakpointPx minMode)
                                      (bm_breakpointPx maxMode)) 2)%float = true ->
      In (decl "  " variable
               (if isUnitless variable && JS.strictEq maxV minV
                then JS.numToString (JS.round maxV 2)
                else linearClamp (unitOf variable) minV maxV
                                 (bm_breakpointPx minMode) (bm_breakpointPx maxMode)))
         lines)
  /\ linearClamp "px" 25.6 32 480 1680 = "clamp(25.6px, calc(23.04px + 0.5333vw), 32px)"
  /\ linearClamp "px" 0.625 1.5 480 1680 = "clamp(0.63px, calc(0.27px + 0.0729vw), 1.5px)"
  /\ (exists lines,
        generateLines BREAKPOINT_MODES "" [typoFoundations] (exampleOptions Fluid Both)
        = Some (lines, [])
        /\ In "  --typo-size-heading: clamp(25.6px, calc(23.04px + 0.5333vw), 32px);" lines).
Proof.
  split; [|split; [vm_compute; reflexivity|split; [vm_compute; reflexivity|]]].
  - intros modes variables options st lines st' variable value maxMode minMode maxV minV
           Hgen Hin Hmax Hmin Hval Hskip Hfloat Hnoalias Hvar Hprop Hvp Hpw HmaxV HminV Hic.
    unfold generateFluidCSS in Hgen. rewrite Hmax, Hmin in Hgen.
    set (defaultMode := if match breakpointDirection options with
                           | MobileFirst => false | DesktopFirst => true end
                        then maxMode else minMode).
    assert (Hd : defaultMode = maxMode \/ defaultMode = minMode)
      by (unfold defaultMode; destruct (breakpointDirection options); auto).
    assert (Hdm : (if match breakpointDirection options with
                      | MobileFirst => false | DesktopFirst => true end
                   then Some maxMode else Some minMode) = Some defaultMode)
      by (unfold defaultMode; destruct (breakpointDirection options); reflexivity).
    rewrite Hdm in Hgen. simpl in Hgen.
    destruct (partitionVars modes options st (bm_modeId maxMode) variables)
      as [[clampable mediaQuery]|] eqn:Ep; [|discriminate]. simpl in Hgen.
    destruct (runLoopM (clampableStep modes options (bm_modeId defaultMode)) clampable st)
      as [[clampLines st1]|] eqn:Ec; [|discriminate]. simpl in Hgen.
    destruct (runLoopM (mediaQueryStep options (bm_modeId defaultMode)) mediaQuery st1)
      as [[mqLines st2]|]; [|discriminate]. simpl in Hgen.
    destruct (piecewiseBlocks _ modes options clampable) as [pw|]; [|discriminate].
    simpl in Hgen.
    destruct (fallbackBlocks _ modes options clampable) as [fb|]; [|discriminate].
    simpl in Hgen. injection Hgen as <- <-.
    assert (Hcl : In variable clampable).
    { eapply partitionVars_clampable; eauto.
      eapply needsMediaQueries_clampable; eauto. }
    right. apply in_or_app. left.
    eapply (runLoopM_lines _ _ variable); [|exact Ec|exact Hcl|].
    + intros st0. eexists.
      eapply (clampableStep_linear modes options variable maxMode minMode maxV minV); eauto.
    + apply in_or_app. right. now left.
  - eexists. split; [vm_compute; reflexivity|]. vm_compute. tauto.
Qed.

(** The general statement at the heading size of [typoFoundations], a
    clamp, and at the weight of [emphasisFoundations], whose extreme values
    are equal: a bare number. *)
Lemma fluid_linear_clamp_emitted_witness :
  (exists lines st',
     generateFluidCSS [desktopMode; mobileMode] typoVariables (exampleOptions Fluid Both)
                      emptyState = Some (lines, st')
     /\ In (decl "  " headingVariable "clamp(25.6px, calc(23.04px + 0.5333vw), 32px)") lines)
  /\ (exists lines st',
        generateFluidCSS emphasisModes emphasisVariables (exampleOptions Fluid Both)
                         emptyState = Some (lines, st')
        /\ hasModeVariance emphasisVariable emphasisModes (exampleOptions Fluid Both)
           = Some true
        /\ In "  --typo-font-weight: 400;" lines).
Proof.
  split.
  - eexists _, _. split; [vm_compute; reflexivity|].
    replace "clamp(25.6px, calc(23.04px + 0.5333vw), 32px)"
      with (if isUnitless headingVariable && JS.strictEq 32 25.6
            then JS.numToString (JS.round 32 2)
            else linearClamp (unitOf headingVariable) 25.6 32
                             (bm_breakpointPx mobileMode) (bm_breakpointPx desktopMode))
      by (vm_compute; reflexivity).
    eapply (proj1 fluid_linear_clamp_emitted
              [desktopMode; mobileMode] typoVariables (exampleOptions Fluid Both) emptyState
              _ _ headingVariable
              (literal (RNum 32)) desktopMode mobileMode 32%float 25.6%float).
    + vm_compute; reflexivity.
    + left; reflexivity.
    + reflexivity.
    + reflexivity.
    + reflexivity.
    + vm_compute; reflexivity.
    + reflexivity.
    + intros m v [<-|[<-|[]]] H; vm_compute in H; injection H as <-; reflexivity.
    + vm_compute; reflexivity.
    + vm_compute; reflexivity.
    + reflexivity.
    + reflexivity.
    + reflexivity.
    + reflexivity.
    + vm_compute; reflexivity.
  - eexists _, _. split; [vm_compute; reflexivity|]. split; [vm_compute; reflexivity|].
    replace "  --typo-font-weight: 400;"
      with (decl "  " emphasisVariable
              (if isUnitless emphasisVariable && JS.strictEq 400 400
               then JS.numToString (JS.round 400 2)
               else linearClamp (unitOf emphasisVariable) 400 400 480 1680))
      by (vm_compute; reflexivity).
    eapply (proj1 fluid_linear_clamp_emitted
              emphasisModes emphasisVariables (exampleOptions Fluid Both) emptyState
              _ _ emphasisVariable
              (literal (RNum 400))
              {| bm_modeId := "3:0"; bm_name := "Desktop"; bm_breakpointPx := 1680 |}
              {| bm_modeId := "3:2"; bm_name := "Mobile"; bm_breakpointPx := 480 |}
              400%float 400%float).
    + vm_compute; reflexivity.
    + left; reflexivity.
    + reflexivity.
    + reflexivity.
    + reflexivity.
    + vm_compute; reflexivity.
    + reflexivity.
    + intros m v [<-|[<-|[<-|[]]]] H; vm_compute in H; injection H as <-; reflexivity.
    + vm_compute; reflexivity.
    + vm_compute; reflexivity.
    + reflexivity.
    + reflexivity.
    + reflexivity.
    + reflexivity.
    + vm_compute; reflexivity.
Defined.

(** A font weight of the same collection meets every premise of the rule
    (FLOAT, no alias, mode variance, no special treatment, non-negative
    rounded intercept) and is emitted without the [px] unit. *)
Lemma fluid_clamp_unitless_has_no_px :
  exists lines st',
    generateFluidCSS [desktopMode; mobileMode] typoVariables (exampleOptions Fluid Both)
                     emptyState = Some (lines, st')
    /\ resolvedType weightVariable = FLOAT
    /\ noAliasInAnyMode weightVariable [desktopMode; mobileMode]
    /\ hasModeVariance weightVariable [desktopMode; mobileMode] (exampleOptions Fluid Both)
       = Some true
    /\ shouldUseProportion weightVariable (exampleOptions Fluid Both) = false
    /\ shouldUseViewportRelative weightVariable (exampleOptions Fluid Both) = false
    /\ shouldUsePiecewiseClamp weightVariable (exampleOptions Fluid Both) = false
    /\ (0 <=? JS.round (clampIntercept 400 700 480 1680) 2)%float = true
    /\ In "  --typo-font-weight: clamp(400, calc(280 + 25vw), 700);" lines
    /\ ~ In (decl "  " weightVariable (linearClamp "px" 400 700 480 1680)) lines.
Proof.
  eexists _, _. split; [vm_compute; reflexivity|].
  repeat split; try (vm_compute; reflexivity).
  - intros m v [<-|[<-|[]]] H; vm_compute in H; injection H as <-; reflexivity.
  - vm_compute. tauto.
  - vm_compute. intuition discriminate.
Qed.

(** ** Theme emission *)

Section ThemeFacts.

Variable options : ExportOptions.

Lemma runLoop_app step (l1 l2 : list VariableInfo) (st : EmitState) :
  runLoop step (l1 ++ l2) st
  = (fst (runLoop step l1 st) ++ fst (runLoop step l2 (snd (runLoop step l1 st))),
     snd (runLoop step l2 (snd (runLoop step l1 st)))).
Proof.
  revert st. induction l1 as [|a l1 IH]; intros st; simpl.
  - now destruct (runLoop step l2 st).
  - destruct (step a st) as [la sa]. rewrite IH.
    destruct (runLoop step l1 sa) as [lb sb]. simpl.
    destruct (runLoop step l2 sb) as [lc sc]. simpl.
    now rewrite app_assoc.
Qed.

Lemma hasName_addName (st : EmitState) (n : string) : hasName (addName st n) n = true.
Proof. unfold hasName, addName. simpl. apply bool_decide_eq_true. set_solver. Qed.

Lemma hasName_addName_mono (st : EmitState) (n m : string) :
  hasName st n = true -> hasName (addName st m) n = true.
Proof.
  unfold hasName, addName. simpl. rewrite !bool_decide_eq_true. set_solver.
Qed.

Lemma rootStep_mono (mid : string) (v : VariableInfo) (st : EmitState) (n : string) :
  hasName st n = true -> hasName (snd (rootStep options mid v st)) n = true.
Proof.
  intros H. unfold rootStep.
  destruct (lookupMode (valuesByMode v) mid) as [value|]; [|exact H].
  destruct (shouldSkipVariable v value st); [exact H|].
  destruct (formatCSSValue value v options); [|exact H].
  now apply hasName_addName_mono.
Qed.

Lemma runLoop_rootStep_mono (mid : string) (l : list VariableInfo) :
  forall st n, hasName st n = true ->
               hasName (snd (runLoop (rootStep options mid) l st)) n = true.
Proof.
  induction l as [|a l IH]; intros st n H; [exact H|]. simpl.
  pose proof (rootStep_mono mid a st n H) as Ha.
  destruct (rootStep options mid a st) as [la sa]. simpl in Ha.
  specialize (IH sa n Ha).
  destruct (runLoop (rootStep options mid) l sa) as [lb sb]. exact IH.
Qed.

Lemma runLoop_cons step (a : VariableInfo) (l : list VariableInfo) (st : EmitState) :
  runLoop step (a :: l) st
  = (fst (step a st) ++ fst (runLoop step l (snd (step a st))),
     snd (runLoop step l (snd (step a st)))).
Proof.
  simpl. destruct (step a st) as [la sa]. simpl.
  now destruct (runLoop step l sa).
Qed.

Lemma rootStep_declares mid (v : VariableInfo) (st : EmitState) value css :
  lookupMode (valuesByMode v) mid = Some value ->
  shouldSkipVariable v value st = false ->
  formatCSSValue value v options = Some css ->
  rootStep options mid v st
  = (idComment options v ++ [decl "  " v css], addName st (cssName v)).
Proof. intros Hl Hs Hf. unfold rootStep. now rewrite Hl, Hs, Hf. Qed.

(** A variable declared in the default block has its name registered
    when the loop ends. *)
Lemma declaredInRoot_registered mid st variables pre variable css :
  declaredInRoot options mid st variables pre variable css ->
  hasName (snd (runLoop (rootStep options mid) variables st)) (cssName variable) = true.
Proof.
  intros (post & value & -> & Hl & Hs & Hf).
  rewrite runLoop_app, runLoop_cons. cbn [snd].
  rewrite (rootStep_declares _ _ _ _ _ Hl Hs Hf). cbn [snd].
  apply runLoop_rootStep_mono, hasName_addName.
Qed.

Lemma declaredInRoot_In mid st variables pre variable css :
  declaredInRoot options mid st variables pre variable css -> In variable variables.
Proof. intros (post & value & -> & _). apply in_or_app. right. now left. Qed.

Lemma startsWith_append (indent rest : string) : JS.startsWith (indent +:+ rest) indent = true.
Proof.
  unfold JS.startsWith. induction indent as [|c i IH]; rewrite ?append_empty, ?append_cons.
  - now destruct rest.
  - simpl. destruct (ascii_dec c c); [exact IH | congruence].
Qed.

Lemma redeclare_indented indent mid st (v : VariableInfo) :
  Forall (fun l => JS.startsWith l indent = true) (redeclare options indent mid st v).
Proof.
  unfold redeclare.
  destruct (lookupMode (valuesByMode v) mid) as [value|]; [|constructor].
  destruct (negb (hasName st (cssName v))); [constructor|].
  destruct (formatCSSValue value v options); constructor; [|constructor].
  unfold decl. apply startsWith_append.
Qed.

Lemma redeclare_block_indented indent mid st (variables : list VariableInfo) :
  Forall (fun l => JS.startsWith l indent = true)
         (flat_map (redeclare options indent mid st) variables).
Proof.
  induction variables as [|a l IH]; simpl; [constructor|].
  apply Forall_app. split; [apply redeclare_indented | exact IH].
Qed.

(** A registered variable with a printable value in a mode is re-declared
    by every later block for that mode. *)
Lemma redeclare_In indent mid st (variables : list VariableInfo) variable value css :
  In variable variables ->
  lookupMode (valuesByMode variable) mid = Some value ->
  hasName st (cssName variable) = true ->
  formatCSSValue value variable options = Some css ->
  In (decl indent variable css) (flat_map (redeclare options indent mid st) variables).
Proof.
  intros Hin Hl Hn Hf. apply in_flat_map. exists variable. split; [exact Hin|].
  unfold redeclare. rewrite Hl, Hn, Hf. now left.
Qed.

End ThemeFacts.

(** The theme emitter returns whenever a light mode is found. *)
Lemma generateThemeCSS_returns collection (variables : list VariableInfo) options st light :
  findThemeMode "light" (c_modes collection) = Some light ->
  exists lines st', generateThemeCSS collection variables options st = Some (lines, st').
Proof.
  intros Hl. unfold generateThemeCSS. rewrite Hl. simpl.
  destruct (runLoop (rootStep options (m_modeId light)) variables st) as [b s].
  destruct (findThemeMode "dark" (c_modes collection)); eauto.
Qed.

Section ThemeBlocks.

Variables (collection : Collection) (variables : list VariableInfo).
Variables (options : ExportOptions) (st : EmitState).
Variables (lines : list string) (st' : EmitState) (light dark : Mode).

Hypothesis Hgen : generateThemeCSS collection variables options st = Some (lines, st').
Hypothesis Hlight : findThemeMode "light" (c_modes collection) = Some light.
Hypothesis Hdark : findThemeMode "dark" (c_modes collection) = Some dark.

Let body : list string := fst (runLoop (rootStep options (m_modeId light)) variables st).

(** The shape of the output when both theme modes exist. *)
Lemma generateThemeCSS_both :
  st' = snd (runLoop (rootStep options (m_modeId light)) variables st)
  /\ lines =
     ([":root {"] ++ body ++ ["}"])
       ++ (if usePrefersColorScheme options
           then prefersBlock options "light" light variables st' else [])
       ++ (if usePrefersColorScheme options
           then prefersBlock options "dark" dark variables st' else [])
       ++ [""; "/* Explicit theme selectors - These override system preferences";
           "   and enable manual theme switching via JavaScript */"]
       ++ selectorBlock options lightSelector light variables st'
       ++ (if useClass options
           then [""] ++ selectorBlock options darkSelector dark variables st' else []).
Proof.
  unfold generateThemeCSS in Hgen. rewrite Hlight, Hdark in Hgen. simpl in Hgen.
  unfold body.
  destruct (runLoop (rootStep options (m_modeId light)) variables st) as [b s].
  injection Hgen as <- <-. split; reflexivity.
Qed.

Lemma prefers_light_redeclares pre variable css :
  usePrefersColorScheme options = true ->
  declaredInRoot options (m_modeId light) st variables pre variable css ->
  declaredInBlock (prefersHeader "light") "    " ["  }"; "}"]
                  (decl "    " variable css) lines.
Proof.
  intros Hp Hd. destruct generateThemeCSS_both as [Hst ->]. rewrite Hp.
  pose proof (declaredInRoot_registered _ _ _ _ _ _ _ Hd) as Hreg. rewrite <- Hst in Hreg.
  pose proof (declaredInRoot_In _ _ _ _ _ _ _ Hd) as Hin.
  destruct Hd as (post & value & _ & Hl & _ & Hf).
  unfold declaredInBlock, prefersBlock.
  exists (([":root {"] ++ body ++ ["}"]) ++ [""]),
         (flat_map (redeclare options "    " (m_modeId light) st') variables).
  eexists. split; [|split].
  - unfold prefersHeader. simpl. repeat (rewrite <- !app_assoc; simpl). reflexivity.
  - apply redeclare_block_indented.
  - eapply redeclare_In; eauto.
Qed.

Lemma prefers_dark_redeclares pre variable css darkValue darkCss :
  usePrefersColorScheme options = true ->
  declaredInRoot options (m_modeId light) st variables pre variable css ->
  lookupMode (valuesByMode variable) (m_modeId dark) = Some darkValue ->
  formatCSSValue darkValue variable options = Some darkCss ->
  declaredInBlock (prefersHeader "dark") "    " ["  }"; "}"]
                  (decl "    " variable darkCss) lines.
Proof.
  intros Hp Hd Hl Hf. destruct generateThemeCSS_both as [Hst ->]. rewrite Hp.
  pose proof (declaredInRoot_registered _ _ _ _ _ _ _ Hd) as Hreg. rewrite <- Hst in Hreg.
  pose proof (declaredInRoot_In _ _ _ _ _ _ _ Hd) as Hin.
  unfold declaredInBlock.
  exists (([":root {"] ++ body ++ ["}"])
            ++ prefersBlock options "light" light variables st' ++ [""]),
         (flat_map (redeclare options "    " (m_modeId dark) st') variables).
  eexists. split; [|split].
  - unfold prefersBlock, prefersHeader. simpl.
    repeat (rewrite <- !app_assoc; simpl). reflexivity.
  - apply redeclare_block_indented.
  - eapply redeclare_In; eauto.
Qed.


End ThemeBlocks.

Section DarkSelectorGate.

Lemma prefix_cons (a b : ascii) (s t : string) :
  String.prefix (String a s) (String b t)
  = if ascii_dec a b then String.prefix s t else false.
Proof. reflexivity. Qed.

Lemma prefix_empty (t : string) : String.prefix "" t = true.
Proof. now destruct t. Qed.

Lemma indented_space (i l : string) :
  JS.startsWith l (String " " i) = true -> JS.startsWith l " " = true.
Proof.
  unfold JS.startsWith. destruct l as [|c l]; [discriminate|].
  rewrite !prefix_cons, prefix_empty.
  now destruct (ascii_dec " " c).
Qed.



Variable options : ExportOptions.



Lemma Forall_app_intro {A} (P : A -> Prop) (l1 l2 : list A) :
  Forall P l1 -> Forall P l2 -> Forall P (l1 ++ l2).
Proof. intros H1 H2. apply Forall_app. now split. Qed.





End DarkSelectorGate.

(** C7, as the code has it.  With a light and a dark mode present and
    prefers-color-scheme output selected, every variable declared in the
    default [:root] block is declared again in the
    [prefers-color-scheme: light] block, with the same text, and in the
    [prefers-color-scheme: dark] block whenever its dark-mode value formats
    to a value — whether or not the two texts are equal.  A dark-mode value
    the formatter suppresses (missing, or an alias that was not resolved)
    yields no declaration in the dark block. *)
Theorem theme_prefers_blocks_redeclare :
  forall collection variables options st light dark pre variable css,
    findThemeMode "light" (c_modes collection) = Some light ->
    findThemeMode "dark" (c_modes collection) = Some dark ->
    usePrefersColorScheme options = true ->
    declaredInRoot options (m_modeId light) st variables pre variable css ->
    exists lines st',
      generateThemeCSS collection variables options st = Some (lines, st')
      /\ declaredInBlock (prefersHeader "light") "    " ["  }"; "}"]
                         (decl "    " variable css) lines
      /\ (forall darkValue darkCss,
            lookupMode (valuesByMode variable) (m_modeId dark) = Some darkValue ->
            formatCSSValue darkValue variable options = Some darkCss ->
            declaredInBlock (prefersHeader "dark") "    " ["  }"; "}"]
                            (decl "    " variable darkCss) lines)
      /\ (forall darkValue,
            lookupMode (valuesByMode variable) (m_modeId dark) = Some darkValue ->
            formatCSSValue darkValue variable options = None ->
            redeclare options "    " (m_modeId dark) st' variable = []).
Proof.
  intros collection variables options st light dark pre variable css Hl Hd Hp Hroot.
  destruct (generateThemeCSS_returns collection variables options st light Hl)
    as (lines & st' & Hgen).
  exists lines, st'. split; [exact Hgen|]. split; [|split].
  - eapply prefers_light_redeclares; eauto.
  - intros darkValue darkCss Hdv Hdf. eapply prefers_dark_redeclares; eauto.
  - intros darkValue Hdv Hdf. unfold redeclare. rewrite Hdv, Hdf.
    now destruct (negb _).
Qed.

(** The statement at [primary] of [colorFoundations], whose light and dark
    colours are the same. *)
Lemma theme_prefers_blocks_redeclare_witness :
  exists lines st',
    generateThemeCSS (hc_collection colorFoundations) (resolvedGraph [colorFoundations])
                     (exampleOptions Fluid PrefersColorScheme) emptyState = Some (lines, st')
    /\ declaredInBlock (prefersHeader "light") "    " ["  }"; "}"]
                       (decl "    " primaryVariable "#ffffff") lines
    /\ declaredInBlock (prefersHeader "dark") "    " ["  }"; "}"]
                       (decl "    " primaryVariable "#ffffff") lines.
Proof.
  assert (Hroot : declaredInRoot (exampleOptions Fluid PrefersColorScheme) (m_modeId lightMode)
                    emptyState (resolvedGraph [colorFoundations]) [] primaryVariable "#ffffff").
  { exists [accentVariable], (literal (RStr "#ffffff")).
    repeat split; vm_compute; reflexivity. }
  destruct (theme_prefers_blocks_redeclare
              (hc_collection colorFoundations) (resolvedGraph [colorFoundations])
              (exampleOptions Fluid PrefersColorScheme) emptyState
              lightMode darkMode [] primaryVariable "#ffffff"
              eq_refl eq_refl eq_refl Hroot)
    as (lines & st' & Hgen & HL & HD & _).
  exists lines, st'. split; [exact Hgen|]. split; [exact HL|].
  apply (HD (literal (RStr "#ffffff"))); vm_compute; reflexivity.
Defined.

(** [accent] of [colorFoundations] is declared in the default block and,
    its dark value being an unresolved alias, is absent from the
    [prefers-color-scheme: dark] block, which holds [primary] alone. *)
Lemma theme_dark_block_omits_unformattable :
  generateLines BREAKPOINT_MODES "" [colorFoundations] (exampleOptions Fluid PrefersColorScheme)
  = Some ([ "/* ==========================================================================";
            "   DESIGN TOKENS — Generated from Figma Variables";
            "   Mode: Fluid (clamp)";
            "   Direction: Desktop-first (max-width)";
            "   ========================================================================== */";
            "";
            "/* --------------------------------------------------------------------------";
            "   COLOR - 1. FOUNDATIONS";
            "   -------------------------------------------------------------------------- */";
            "";
            ":root {";
            "  --color-primary: #ffffff;";
            "  --color-accent: #ff0000;";
            "}";
            "";
            "@media (prefers-color-scheme: light) {";
            "  :root {";
            "    --color-primary: #ffffff;";
            "    --color-accent: #ff0000;";
            "  }";
            "}";
            "";
            "@media (prefers-color-scheme: dark) {";
            "  :root {";
            "    --color-primary: #ffffff;";
            "  }";
            "}";
            "";
            "/* Explicit theme selectors - These override system preferences";
            "   and enable manual theme switching via JavaScript */";
            lightSelector;
            "  --color-primary: #ffffff;";
            "  --color-accent: #ff0000;";
            "}";
            "" ],
          ["Broken alias: accent references unknown variable"])
  /\ declaredInRoot (exampleOptions Fluid PrefersColorScheme) "10:0" emptyState
                    (resolvedGraph [colorFoundations]) [primaryVariable] accentVariable "#ff0000"
  /\ (forall css,
        ~ In (decl "    " accentVariable css)
             (flat_map (redeclare (exampleOptions Fluid PrefersColorScheme) "    " "10:1"
                          (snd (runLoop (rootStep (exampleOptions Fluid PrefersColorScheme) "10:0")
                                        (resolvedGraph [colorFoundations]) emptyState)))
                       (resolvedGraph [colorFoundations]))).
Proof.
  split; [vm_compute; reflexivity|]. split.
  - exists [], (literal (RStr "#ff0000")). repeat split; vm_compute; reflexivity.
  - intros css H. apply in_flat_map in H. destruct H as (v & Hv & H).
    vm_compute in Hv. destruct Hv as [<-|[<-|[]]].
    + vm_compute in H. destruct H as [H|[]]. discriminate H.
    + vm_compute in H. exact H.
Qed.



(** ** Deduplication and the circular-alias gate across collections *)

(** C3, at a failing input.  [spaceFoundations] and [spaceAliases] both
    produce [--space-fixed-1].  In fixed output the default block of the
    alias layer skips the duplicate, and the media-query block that follows
    declares it again with the alias layer's own value [10px]: the test
    there asks whether the name was registered, which the foundation did.
    This holds for both orders in which the host can supply the
    collections.  The fluid emitter, which works from the variables that
    passed the gate, emits the foundation's declaration only. *)
Theorem dedup_fixed_mode_reemits_duplicate :
  let fixedLines :=
    [ "/* ==========================================================================";
      "   DESIGN TOKENS — Generated from Figma Variables";
      "   Mode: Fixed (per-breakpoint)";
      "   Direction: Desktop-first (max-width)";
      "   ========================================================================== */";
      "";
      "/* --------------------------------------------------------------------------";
      "   SPACE - 1. FOUNDATIONS";
      "   -------------------------------------------------------------------------- */";
      "";
      ":root {";
      "  --space-fixed-1: 16px;";
      "}";
      "";
      "@media (max-width: 1679px) {";
      "  :root {";
      "    --space-fixed-1: 8px;";
      "  }";
      "}";
      "";
      "/* --------------------------------------------------------------------------";
      "   SPACE - 2. ALIASES";
      "   -------------------------------------------------------------------------- */";
      "";
      ":root {";
      "}";
      "";
      "@media (max-width: 1679px) {";
      "  :root {";
      "    --space-fixed-1: 10px;";
      "  }";
      "}";
      "" ] in
  map cssName (resolvedGraph [spaceFoundations; spaceAliases])
  = ["--space-fixed-1"; "--space-fixed-1"]
  /\ map v_layerType (resolvedGraph [spaceFoundations; spaceAliases]) = [Foundations; Aliases]
  /\ generateLines BREAKPOINT_MODES "" [spaceFoundations; spaceAliases] (exampleOptions Fixed Both)
     = Some (fixedLines, [])
  /\ generateLines BREAKPOINT_MODES "" [spaceAliases; spaceFoundations] (exampleOptions Fixed Both)
     = Some (fixedLines, [])
  /\ In "    --space-fixed-1: 10px;" fixedLines
  /\ generateLines BREAKPOINT_MODES "" [spaceAliases; spaceFoundations] (exampleOptions Fluid Both)
     = Some ([ "/* ==========================================================================";
               "   DESIGN TOKENS — Generated from Figma Variables";
               "   Mode: Fluid (clamp)";
               "   Direction: Desktop-first (max-width)";
               "   ========================================================================== */";
               "";
               "/* --------------------------------------------------------------------------";
               "   SPACE - 1. FOUNDATIONS";
               "   -------------------------------------------------------------------------- */";
               "";
               ":root {";
               "  --space-fixed-1: clamp(8px, calc(4.8px + 0.6667vw), 16px);";
               "}";
               "";
               "/* --------------------------------------------------------------------------";
               "   SPACE - 2. ALIASES";
               "   -------------------------------------------------------------------------- */";
               "";
               ":root {";
               "}";
               "" ], []).
Proof.
  cbv zeta. repeat split; try (vm_compute; reflexivity).
  vm_compute. tauto.
Qed.

(** C4, at a failing input.  The only variable of [surfaceAliases] is an
    alias whose target resolves to the variable's own identifier; the gate
    skips it in the default block and no diagnostic is recorded, and the
    theme blocks that follow declare it all the same, as
    [--surface-base: var(--surface-base)]: the foundation registered that
    name. *)
Theorem self_alias_reemitted_in_theme_blocks :
  (forall mid value,
      lookupMode (valuesByMode surfaceAliasVariable) mid = Some value ->
      pv_isAlias value = true /\ aliasName value = Some (cssName surfaceAliasVariable))
  /\ (forall mid value st,
        lookupMode (valuesByMode surfaceAliasVariable) mid = Some value ->
        shouldSkipVariable surfaceAliasVariable value st = true)
  /\ generateLines BREAKPOINT_MODES "" [surfaceFoundations; surfaceAliases]
                   (exampleOptions Fluid PrefersColorScheme)
     = Some ([ "/* ==========================================================================";
               "   DESIGN TOKENS — Generated from Figma Variables";
               "   Mode: Fluid (clamp)";
               "   Direction: Desktop-first (max-width)";
               "   ========================================================================== */";
               "";
               "/* --------------------------------------------------------------------------";
               "   SURFACE - 1. FOUNDATIONS";
               "   -------------------------------------------------------------------------- */";
               "";
               ":root {";
               "  --surface-base: #ffffff;";
               "}";
               "";
               "@media (prefers-color-scheme: light) {";
               "  :root {";
               "    --surface-base: #ffffff;";
               "  }";
               "}";
               "";
               "@media (prefers-color-scheme: dark) {";
               "  :root {";
               "    --surface-base: #000000;";
               "  }";
               "}";
               "";
               "/* Explicit theme selectors - These override system preferences";
               "   and enable manual theme switching via JavaScript */";
               lightSelector;
               "  --surface-base: #ffffff;";
               "}";
               "";
               "/* --------------------------------------------------------------------------";
               "   SURFACE - 2. ALIASES";
               "   -------------------------------------------------------------------------- */";
               "";
               ":root {";
               "}";
               "";
               "@media (prefers-color-scheme: light) {";
               "  :root {";
               "    --surface-base: var(--surface-base);";
               "  }";
               "}";
               "";
               "@media (prefers-color-scheme: dark) {";
               "  :root {";
               "    --surface-base: var(--surface-base);";
               "  }";
               "}";
               "";
               "/* Explicit theme selectors - These override system preferences";
               "   and enable manual theme switching via JavaScript */";
               lightSelector;
               "  --surface-base: var(--surface-base);";
               "}";
               "" ], []).
Proof.
  assert (V : forall mid value,
             lookupMode (valuesByMode surfaceAliasVariable) mid = Some value ->
             pv_isAlias value = true /\ aliasName value = Some (cssName surfaceAliasVariable)).
  { intros mid value H. vm_compute in H.
    repeat match type of H with
           | (if ?b then _ else _) = _ => destruct b
           end; try discriminate H; injection H as <-; split; reflexivity. }
  split; [exact V|]. split.
  - intros mid value st H. destruct (V mid value H) as [Ha Hn].
    unfold shouldSkipVariable. rewrite Ha, Hn. simpl.
    rewrite bool_decide_eq_true_2; reflexivity.
  - vm_compute; reflexivity.
Qed.

(** ** Collection ordering *)

Section LayerOrder.

Variable nm : string.

Let lower := JS.toLowerCase nm.

(** The comparator's rank and the rank of the derived layer type differ
    exactly for a name that says [2.1] without saying [extended] (or
    [foundation]). *)
Lemma layerOrder_vs_layerType :
  layerOrder nm = layerRank (layerType (parseCollectionName nm))
  <-> ~ (JS.includes lower "2.1" = true
         /\ JS.includes lower "extended" = false
         /\ JS.includes lower "foundation" = false).
Proof.
  unfold layerOrder, parseCollectionName, lower. cbn [layerType].
  destruct (JS.includes (JS.toLowerCase nm) "foundation");
    destruct (JS.includes (JS.toLowerCase nm) "extended");
    destruct (JS.includes (JS.toLowerCase nm) "2.1");
    destruct (JS.includes (JS.toLowerCase nm) "alias");
    destruct (JS.includes (JS.toLowerCase nm) "mapping");
    cbn; split; try tauto; try discriminate; try (intros _ [? [? ?]]; discriminate);
    intros H; exfalso; apply H; auto.
Qed.

End LayerOrder.

(** C6, at a failing input.  The collection named [Space - 2.1 Aliases] is
    of layer type aliases-extended (rank 2), and the sort comparator ranks
    it 1, like [Space - 2. Aliases]: its own keyword match does not know
    [2.1].  Supplied in that order, the two collections tie and the
    aliases-extended section is emitted before the aliases section.  Rank and
    layer type disagree for exactly the names that contain [2.1] and neither
    [extended] nor [foundation]. *)
Theorem layer_rank_ignores_2_1 :
  layerType (parseCollectionName "Space - 2.1 Aliases") = AliasesExtended
  /\ layerType (parseCollectionName "Space - 2. Aliases") = Aliases
  /\ domain (parseCollectionName "Space - 2.1 Aliases")
     = domain (parseCollectionName "Space - 2. Aliases")
  /\ layerOrder "Space - 2.1 Aliases" = 1%Z
  /\ layerOrder "Space - 2. Aliases" = 1%Z
  /\ map c_name
         (sortCollections
            (groupByCollection (resolvedGraph [spaceAliasesExtended; spaceAliasesPlain]))
            [hc_collection spaceAliasesExtended; hc_collection spaceAliasesPlain])
     = ["Space - 2.1 Aliases"; "Space - 2. Aliases"]
  /\ generateLines BREAKPOINT_MODES "" [spaceAliasesExtended; spaceAliasesPlain]
                   (exampleOptions Fluid Both)
     = Some ([ "/* ==========================================================================";
               "   DESIGN TOKENS — Generated from Figma Variables";
               "   Mode: Fluid (clamp)";
               "   Direction: Desktop-first (max-width)";
               "   ========================================================================== */";
               "";
               "/* --------------------------------------------------------------------------";
               "   SPACE - 2.1 ALIASES";
               "   -------------------------------------------------------------------------- */";
               "";
               ":root {";
               "  --space-gap-wide: 24px;";
               "}";
               "";
               "/* --------------------------------------------------------------------------";
               "   SPACE - 2. ALIASES";
               "   -------------------------------------------------------------------------- */";
               "";
               ":root {";
               "  --space-gap-base: 16px;";
               "}";
               "" ], [])
  /\ (forall nm,
        layerOrder nm = layerRank (layerType (parseCollectionName nm))
        <-> ~ (JS.includes (JS.toLowerCase nm) "2.1" = true
               /\ JS.includes (JS.toLowerCase nm) "extended" = false
               /\ JS.includes (JS.toLowerCase nm) "foundation" = false)).
Proof.
  repeat split; try (vm_compute; reflexivity); apply layerOrder_vs_layerType.
Qed.

(** ** Broken aliases *)

Section AliasResolution.

Variable variableMap : gmap string VariableInfo.


Lemma resolveModes_cons varName mid value (l : list (string * ProcessedValue)) :
  resolveModes variableMap varName ((mid, value) :: l)
  = ((mid, fst (resolveValue variableMap varName value))
       :: fst (resolveModes variableMap varName l),
     snd (resolveValue variableMap varName value)
       ++ snd (resolveModes variableMap varName l)).
Proof.
  simpl. destruct (resolveValue variableMap varName value) as [v' e].
  now destruct (resolveModes variableMap varName l).
Qed.

Lemma resolveAliases_cons (v : VariableInfo) (l : list VariableInfo) :
  resolveAliases variableMap (v :: l)
  = (withValues v (fst (resolveModes variableMap (v_name v) (valuesByMode v)))
       :: fst (resolveAliases variableMap l),
     snd (resolveModes variableMap (v_name v) (valuesByMode v))
       ++ snd (resolveAliases variableMap l)).
Proof.
  simpl. destruct (resolveModes variableMap (v_name v) (valuesByMode v)) as [vals e].
  now destruct (resolveAliases variableMap l).
Qed.



Lemma length_resolveAliases (l : list VariableInfo) :
  length (fst (resolveAliases variableMap l)) = length l.
Proof.
  induction l as [|v l IH]; [reflexivity|].
  rewrite resolveAliases_cons. cbn [fst length]. now rewrite IH.
Qed.

End AliasResolution.



(** ** The generation pass returns *)

Section GraphShape.

Lemma lookupMode_setMode_same vals mid v : lookupMode (setMode vals mid v) mid <> None.
Proof.
  induction vals as [|[k w] r IH]; simpl.
  - now rewrite String.eqb_refl.
  - destruct (String.eqb k mid) eqn:E; simpl; rewrite E; [discriminate | exact IH].
Qed.

Lemma lookupMode_setMode_keeps vals mid v k :
  lookupMode vals k <> None -> lookupMode (setMode vals mid v) k <> None.
Proof.
  induction vals as [|[k' w] r IH]; simpl; [congruence|].
  destruct (String.eqb k' mid) eqn:E; simpl.
  - destruct (String.eqb k' k); [discriminate | auto].
  - destruct (String.eqb k' k); [discriminate | auto].
Qed.

Lemma foldl_setMode_holds (f : Mode -> ProcessedValue) (modes : list Mode) :
  forall acc,
    (forall k, lookupMode acc k <> None ->
               lookupMode (foldl (fun a m => setMode a (m_modeId m) (f m)) acc modes) k <> None)
    /\ (forall m, In m modes ->
                  lookupMode (foldl (fun a m => setMode a (m_modeId m) (f m)) acc modes)
                             (m_modeId m) <> None).
Proof.
  induction modes as [|a l IH]; intros acc; simpl.
  - split; [auto | intros m []].
  - destruct (IH (setMode acc (m_modeId a) (f a))) as [K H]. split.
    + intros k Hk. apply K. now apply lookupMode_setMode_keeps.
    + intros m [<-|Hm]; [|now apply H].
      apply K, lookupMode_setMode_same.
Qed.

Lemma collectVariable_holds collection variable :
  holdsCollectionModes collection (collectVariable collection variable).
Proof.
  intros m Hm. unfold collectVariable. cbn [valuesByMode].
  now apply (foldl_setMode_holds
               (fun mode => processValue (lookupRaw (hv_valuesByMode variable) (m_modeId mode))
                                         (hv_resolvedType variable))).
Qed.

Lemma resolveModes_keeps variableMap varName vals k :
  lookupMode vals k <> None ->
  lookupMode (fst (resolveModes variableMap varName vals)) k <> None.
Proof.
  induction vals as [|[mid value] r IH]; [auto|].
  rewrite resolveModes_cons. cbn [fst lookupMode].
  destruct (String.eqb mid k); [discriminate | exact IH].
Qed.

Lemma resolveAliases_In variableMap (l : list VariableInfo) v :
  In v (fst (resolveAliases variableMap l)) ->
  exists v0, In v0 l
             /\ v = withValues v0 (fst (resolveModes variableMap (v_name v0) (valuesByMode v0))).
Proof.
  induction l as [|a l IH]; [intros []|].
  rewrite resolveAliases_cons. cbn [fst]. intros [<-|H].
  - exists a. split; [now left | reflexivity].
  - destruct (IH H) as (v0 & Hin & ->). exists v0. split; [now right | reflexivity].
Qed.

Lemma collectVariables_In host v0 :
  In v0 (collectVariables host) ->
  exists hc hv, In hc host /\ v0 = collectVariable (hc_collection hc) hv.
Proof.
  unfold collectVariables. rewrite in_flat_map. intros (hc & Hhc & H).
  destruct (c_remote (hc_collection hc)); [destruct H|].
  apply in_map_iff in H. destruct H as (hv & <- & _). eauto.
Qed.

(** A variable of the resolved graph belongs to a host collection, carries
    its identity and holds a value for each of its modes. *)
Lemma resolvedGraph_shape host v :
  In v (resolvedGraph host) ->
  exists hc, In hc host
             /\ collectionId v = c_id (hc_collection hc)
             /\ holdsCollectionModes (hc_collection hc) v.
Proof.
  intros H. apply resolveAliases_In in H. destruct H as (v0 & H0 & ->).
  apply collectVariables_In in H0. destruct H0 as (hc & hv & Hhc & ->).
  exists hc. split; [exact Hhc|]. split; [reflexivity|].
  intros m Hm. cbn [valuesByMode withValues].
  apply resolveModes_keeps. now apply collectVariable_holds.
Qed.

Lemma groupByCollection_step_In (groups : gmap string (list VariableInfo)) (a : VariableInfo)
      k vs v :
  <[ collectionId a := default [] (groups !! collectionId a) ++ [a] ]> groups !! k = Some vs ->
  In v vs ->
  (v = a /\ collectionId a = k) \/ (exists ws, groups !! k = Some ws /\ In v ws).
Proof.
  intros H Hv. destruct (decide (collectionId a = k)) as [E|E].
  - rewrite E, lookup_insert_eq in H. injection H as <-.
    apply in_app_or in Hv. destruct Hv as [Hv|[<-|[]]]; [|now left].
    right. destruct (groups !! k) as [ws|] eqn:G; [|destruct Hv].
    exists ws. split; [reflexivity | exact Hv].
  - rewrite lookup_insert_ne in H by exact E. right. eauto.
Qed.

Lemma groupByCollection_foldl_In (l : list VariableInfo) :
  forall (groups : gmap string (list VariableInfo)) k vs v,
    foldl (fun (g : gmap string (list VariableInfo)) a =>
             <[ collectionId a := default [] (g !! collectionId a) ++ [a] ]> g)
          groups l !! k = Some vs ->
    In v vs ->
    (In v l /\ collectionId v = k) \/ (exists ws, groups !! k = Some ws /\ In v ws).
Proof.
  induction l as [|a l IH]; intros groups k vs v H Hv; simpl in H.
  - right. eauto.
  - destruct (IH _ _ _ _ H Hv) as [[Hin Hk]|(ws & Hws & Hw)].
    + left. split; [now right | exact Hk].
    + destruct (groupByCollection_step_In _ _ _ _ _ Hws Hw) as [[-> Hk]|Hold].
      * left. split; [now left | exact Hk].
      * now right.
Qed.

Lemma groupByCollection_In (l : list VariableInfo) k vs v :
  groupByCollection l !! k = Some vs -> In v vs -> In v l /\ collectionId v = k.
Proof.
  intros H Hv. unfold groupByCollection in H.
  destruct (groupByCollection_foldl_In _ _ _ _ _ H Hv) as [R|(ws & Hws & _)]; [exact R|].
  rewrite lookup_empty in Hws. discriminate.
Qed.

Lemma insertBy_In {A} (le : A -> A -> bool) (x y : A) (l : list A) :
  In y (JS.insertBy le x l) -> y = x \/ In y l.
Proof.
  induction l as [|a l IH]; simpl.
  - intros [<-|[]]. now left.
  - destruct (le x a); simpl.
    + intros [<-|H]; auto.
    + intros [<-|H]; [auto|]. destruct (IH H); auto.
Qed.

Lemma sortBy_In {A} (le : A -> A -> bool) (y : A) (l : list A) :
  In y (JS.sortBy le l) -> In y l.
Proof.
  unfold JS.sortBy. induction l as [|a l IH]; simpl; [auto|].
  intros H. apply insertBy_In in H. destruct H as [->|H]; auto.
Qed.

Lemma insertBy_length {A} (le : A -> A -> bool) (x : A) (l : list A) :
  length (JS.insertBy le x l) = S (length l).
Proof.
  induction l as [|a l IH]; simpl; [reflexivity|].
  destruct (le x a); simpl; [reflexivity | now rewrite IH].
Qed.

Lemma sortBy_length {A} (le : A -> A -> bool) (l : list A) :
  length (JS.sortBy le l) = length l.
Proof.
  unfold JS.sortBy. induction l as [|a l IH]; simpl; [reflexivity|].
  now rewrite insertBy_length, IH.
Qed.

End GraphShape.

Section EmittersReturn.

Variables (bp : BreakpointTable) (options : ExportOptions).

Lemma head_nonempty {A} (l : list A) : l <> [] -> exists x, head l = Some x.
Proof. destruct l; [congruence | eauto]. Qed.

Lemma last_nonempty {A} (l : list A) : l <> [] -> exists x, last l = Some x.
Proof.
  intros H. destruct (last l) as [x|] eqn:E; [eauto|].
  apply last_None in E. contradiction.
Qed.

Lemma generateSteppedCSS_returns modes (variables : list VariableInfo) st :
  modes <> [] -> exists r, generateSteppedCSS modes variables options st = Some r.
Proof.
  intros H. unfold generateSteppedCSS.
  destruct (head_nonempty modes H) as [h Hh]. destruct (last_nonempty modes H) as [l Hl].
  rewrite Hh, Hl.
  destruct (breakpointDirection options); rewrite bind_Some;
    destruct (runLoop _ variables st); now eexists.
Qed.

Lemma generateSingleModeCSS_returns collection (variables : list VariableInfo) st :
  c_modes collection <> [] ->
  exists r, generateSingleModeCSS collection variables options st = Some r.
Proof.
  intros H. unfold generateSingleModeCSS.
  destruct (head_nonempty _ H) as [h ->]. rewrite bind_Some.
  destruct (runLoop _ variables st). now eexists.
Qed.

Lemma generateThemeCSS_returns_nonempty collection (variables : list VariableInfo) st :
  c_modes collection <> [] ->
  exists r, generateThemeCSS collection variables options st = Some r.
Proof.
  intros H. unfold generateThemeCSS.
  destruct (head_nonempty _ H) as [h Hh].
  assert (D : exists dm, match findThemeMode "light" (c_modes collection) with
                         | Some m => Some m
                         | None => head (c_modes collection)
                         end = Some dm)
    by (destruct (findThemeMode "light" (c_modes collection)); eauto).
  destruct D as [dm ->]. rewrite bind_Some.
  destruct (runLoop _ variables st).
  destruct (findThemeMode "dark" (c_modes collection));
    destruct (findThemeMode "light" (c_modes collection)); now eexists.
Qed.

Lemma generateBreakpointCSS_returns collection (variables : list VariableInfo) st :
  c_modes collection <> [] ->
  (forall v, In v variables -> holdsCollectionModes collection v) ->
  exists r, generateBreakpointCSS bp collection variables options st = Some r.
Proof.
  intros Hne H. unfold generateBreakpointCSS.
  set (modes := map (fun m => {| bm_modeId := m_modeId m; bm_name := m_name m;
                                 bm_breakpointPx := default 0%Z (detectBreakpoint bp (m_name m)) |})
                    (c_modes collection)).
  set (sortedModes := JS.sortBy (fun a b => (bm_breakpointPx b <=? bm_breakpointPx a)%Z) modes).
  assert (Hlen : length sortedModes = length (c_modes collection))
    by (unfold sortedModes, modes; now rewrite sortBy_length, length_map).
  assert (Hs : sortedModes <> []).
  { intros E. rewrite E in Hlen. destruct (c_modes collection); [congruence | discriminate]. }
  assert (Hall : holdsAllModes variables sortedModes).
  { intros v m Hv Hm. apply sortBy_In in Hm. unfold modes in Hm.
    apply in_map_iff in Hm. destruct Hm as (m0 & <- & Hm0). now apply (H v Hv). }
  destruct (outputMode options).
  - destruct (Nat.leb_spec 2 (length sortedModes)) as [H2|H2].
    + destruct (generateFluidCSS_returns sortedModes options variables st H2 Hall)
        as (lines & st' & ->). now eexists.
    + now apply generateSteppedCSS_returns.
  - now apply generateSteppedCSS_returns.
Qed.

Lemma sectionLines_returns collection (variables : list VariableInfo) st :
  c_modes collection <> [] ->
  (forall v, In v variables -> holdsCollectionModes collection v) ->
  exists r, sectionLines bp options collection variables st = Some r.
Proof.
  intros Hne H. unfold sectionLines.
  assert (B : exists r,
             match detectModeType (modeInfosOf bp (c_modes collection)) with
             | Breakpoint => generateBreakpointCSS bp collection variables options st
             | Theme => generateThemeCSS collection variables options st
             | Single => generateSingleModeCSS collection variables options st
             end = Some r).
  { destruct (detectModeType _).
    - now apply generateBreakpointCSS_returns.
    - now apply generateThemeCSS_returns_nonempty.
    - now apply generateSingleModeCSS_returns. }
  destruct B as [[body st'] ->]. rewrite bind_Some. now eexists.
Qed.

Lemma emitCollections_returns (groups : gmap string (list VariableInfo))
      (sorted : list Collection) :
  (forall c, In c sorted ->
             c_modes c <> []
             /\ (forall vs v, groups !! c_id c = Some vs -> In v vs ->
                              holdsCollectionModes c v)) ->
  forall st, exists r, emitCollections bp options groups sorted st = Some r.
Proof.
  induction sorted as [|c l IH]; intros H st; simpl; [now eexists|].
  assert (Hl : forall c0, In c0 l ->
                 c_modes c0 <> []
                 /\ (forall vs v, groups !! c_id c0 = Some vs -> In v vs ->
                                  holdsCollectionModes c0 v))
    by (intros c0 Hc0; apply H; now right).
  destruct (H c (or_introl eq_refl)) as [Hne Hv].
  destruct (groups !! c_id c) as [[|v vs]|] eqn:G; [now apply IH | | now apply IH].
  destruct (sectionLines_returns c (v :: vs) st Hne (fun x Hx => Hv _ x eq_refl Hx))
    as [[l1 st1] ->].
  rewrite bind_Some.
  destruct (IH Hl st1) as [[l2 st2] ->]. rewrite bind_Some. now eexists.
Qed.

End EmittersReturn.

(** X27. The generation pass runs to completion on every well-formed host
    document, whatever its aliases refer to: no emitter dereferences a
    missing mode or value. *)
Lemma generateLines_returns bp timestamp host options :
  wellFormedHost host ->
  exists lines errs, generateLines bp timestamp host options = Some (lines, errs).
Proof.
  intros [Hmodes Hids]. unfold generateLines.
  pose proof (resolvedGraph_shape host) as Shape. unfold resolvedGraph in Shape.
  destruct (resolveAliases (buildVariableMap (collectVariables host)) (collectVariables host))
    as [allVariables errs]. cbn [fst] in Shape.
  unfold generateCSSLines.
  set (st0 := {| outputtedCSSNames := ∅; errors := errs |}).
  destruct (emitCollections_returns bp options (groupByCollection allVariables)
              (sortCollections (groupByCollection allVariables) (map hc_collection host)))
    with (st := st0) as [[body st'] E].
  - intros c Hc. unfold sortCollections in Hc. apply sortBy_In in Hc.
    apply filter_In in Hc. destruct Hc as [Hc _].
    apply in_map_iff in Hc. destruct Hc as (hc & <- & Hhc).
    split; [now apply Hmodes|].
    intros vs v G Hv. destruct (groupByCollection_In _ _ _ _ G Hv) as [Hin Hk].
    destruct (Shape v Hin) as (hc' & Hhc' & Hid & Hholds).
    rewrite (Hids hc hc' Hhc Hhc') by congruence. exact Hholds.
  - rewrite E, !bind_Some. now eexists _, _.
Qed.




(** ** The shared emission state *)

Section StateDiscipline.

Lemma stateExtends_refl variables st : stateExtends variables st st.
Proof. split; [reflexivity|]. split; [set_solver | auto]. Qed.

Lemma stateExtends_trans variables st1 st2 st3 :
  stateExtends variables st1 st2 -> stateExtends variables st2 st3 ->
  stateExtends variables st1 st3.
Proof.
  intros (E1 & S1 & N1) (E2 & S2 & N2). split; [congruence|]. split; [set_solver|].
  intros n Hn. destruct (N2 n Hn) as [H|H]; [apply N1, H | now right].
Qed.

Lemma stateExtends_weaken (P Q : list VariableInfo) st st' :
  (forall v, In v P -> In v Q) -> stateExtends P st st' -> stateExtends Q st st'.
Proof.
  intros HPQ (E & S & N). split; [exact E|]. split; [exact S|].
  intros n Hn. destruct (N n Hn) as [H|(v & Hv & Hc)]; [now left|].
  right. exists v. split; [apply HPQ, Hv | exact Hc].
Qed.

Lemma stateExtends_addName variables st v :
  In v variables -> stateExtends variables st (addName st (cssName v)).
Proof.
  intros Hv. split; [reflexivity|]. split; [unfold addName; simpl; set_solver|].
  intros n Hn. unfold addName in Hn. simpl in Hn.
  apply elem_of_union in Hn. destruct Hn as [Hn|Hn]; [|now left].
  apply elem_of_singleton in Hn. right. exists v. split; [exact Hv | congruence].
Qed.

Lemma runLoop_extends step (variables : list VariableInfo) :
  (forall v st, In v variables -> stateExtends variables st (snd (step v st))) ->
  forall l st, (forall v, In v l -> In v variables) ->
               stateExtends variables st (snd (runLoop step l st)).
Proof.
  intros Hstep. induction l as [|a l IH]; intros st Hl; [apply stateExtends_refl|].
  rewrite runLoop_cons. cbn [snd].
  eapply stateExtends_trans.
  - apply Hstep, Hl. now left.
  - apply IH. intros v Hv. apply Hl. now right.
Qed.

Lemma runLoopM_extends step (variables : list VariableInfo) :
  (forall v st r, In v variables -> step v st = Some r -> stateExtends variables st (snd r)) ->
  forall l st r, (forall v, In v l -> In v variables) ->
                 runLoopM step l st = Some r -> stateExtends variables st (snd r).
Proof.
  intros Hstep. induction l as [|a l IH]; intros st r Hl H; simpl in H.
  - injection H as <-. apply stateExtends_refl.
  - destruct (step a st) as [[l1 st1]|] eqn:E1; [|discriminate]. rewrite bind_Some in H.
    destruct (runLoopM step l st1) as [[l2 st2]|] eqn:E2; [|discriminate].
    rewrite bind_Some in H. injection H as <-. cbn [snd].
    eapply stateExtends_trans.
    + apply (Hstep a st (l1, st1)); [apply Hl; now left | exact E1].
    + apply (IH st1 (l2, st2)); [intros v Hv; apply Hl; now right | exact E2].
Qed.

Variable options : ExportOptions.

Lemma rootStep_extends variables mid v st :
  In v variables -> stateExtends variables st (snd (rootStep options mid v st)).
Proof.
  intros Hv. unfold rootStep.
  destruct (lookupMode (valuesByMode v) mid) as [value|]; [|apply stateExtends_refl].
  destruct (shouldSkipVariable v value st); [apply stateExtends_refl|].
  destruct (formatCSSValue value v options); [|apply stateExtends_refl].
  now apply stateExtends_addName.
Qed.

Lemma steppedRootStep_extends variables mid v st :
  In v variables -> stateExtends variables st (snd (steppedRootStep options mid v st)).
Proof.
  intros Hv. unfold steppedRootStep.
  destruct (lookupMode (valuesByMode v) mid) as [value|]; [|apply stateExtends_refl].
  destruct (shouldSkipVariable v value st); [apply stateExtends_refl|].
  destruct (getProportionColumnCount v); [now apply stateExtends_addName|].
  destruct (formatCSSValue value v options); [|apply stateExtends_refl].
  now apply stateExtends_addName.
Qed.

Lemma clampableStep_extends variables modes mid v st r :
  In v variables -> clampableStep modes options mid v st = Some r ->
  stateExtends variables st (snd r).
Proof.
  intros Hv H. unfold clampableStep in H.
  destruct (lookupMode (valuesByMode v) mid) as [value|]; [|discriminate].
  rewrite bind_Some in H.
  destruct (formatCSSValue value v options) as [cssValue|].
  - destruct (hasModeVariance v modes options) as [hv|]; [|discriminate].
    rewrite bind_Some in H.
    destruct (if hv && bool_decide (resolvedType v = FLOAT) && negb (pv_isAlias value)
              then fluidDeclLines modes options v cssValue
              else Some [decl "  " v cssValue]) as [body|]; [|discriminate].
    rewrite bind_Some in H. injection H as <-. now apply stateExtends_addName.
  - injection H as <-. apply stateExtends_refl.
Qed.

Lemma mediaQueryStep_extends variables mid v st r :
  In v variables -> mediaQueryStep options mid v st = Some r ->
  stateExtends variables st (snd r).
Proof.
  intros Hv H. unfold mediaQueryStep in H.
  destruct (lookupMode (valuesByMode v) mid) as [value|]; [|discriminate].
  rewrite bind_Some in H.
  destruct (formatCSSValue value v options) as [cssValue|]; injection H as <-.
  - now apply stateExtends_addName.
  - apply stateExtends_refl.
Qed.

Lemma partitionVars_In modes st lid (variables : list VariableInfo) :
  forall clampable mediaQuery,
    partitionVars modes options st lid variables = Some (clampable, mediaQuery) ->
    forall v, In v clampable \/ In v mediaQuery -> In v variables.
Proof.
  induction variables as [|a l IH]; intros clampable mediaQuery H v Hv; simpl in H.
  - injection H as <- <-. destruct Hv as [[]|[]].
  - destruct (lookupMode (valuesByMode a) lid) as [value|];
      [|right; now apply (IH _ _ H)].
    destruct (shouldSkipVariable a value st); [right; now apply (IH _ _ H)|].
    destruct (needsMediaQueries a modes options) as [nmq|]; [|discriminate].
    rewrite bind_Some in H.
    destruct (partitionVars modes options st lid l) as [[c m]|]; [|discriminate].
    rewrite bind_Some in H. specialize (IH c m eq_refl v).
    destruct nmq; injection H as <- <-; simpl in Hv; simpl; tauto.
Qed.

Lemma generateSingleModeCSS_extends collection variables st r :
  generateSingleModeCSS collection variables options st = Some r ->
  stateExtends variables st (snd r).
Proof.
  unfold generateSingleModeCSS. intros H.
  destruct (head (c_modes collection)) as [mode|]; [|discriminate]. rewrite bind_Some in H.
  pose proof (runLoop_extends (rootStep options (m_modeId mode)) variables
                (fun v st0 Hv => rootStep_extends variables _ v st0 Hv)
                variables st (fun v Hv => Hv)) as E.
  destruct (runLoop _ variables st) as [body st']. injection H as <-. exact E.
Qed.

Lemma generateThemeCSS_extends collection variables st r :
  generateThemeCSS collection variables options st = Some r ->
  stateExtends variables st (snd r).
Proof.
  unfold generateThemeCSS. intros H.
  destruct (match findThemeMode "light" (c_modes collection) with
            | Some m => Some m
            | None => head (c_modes collection)
            end) as [mode|]; [|discriminate].
  rewrite bind_Some in H.
  pose proof (runLoop_extends (rootStep options (m_modeId mode)) variables
                (fun v st0 Hv => rootStep_extends variables _ v st0 Hv)
                variables st (fun v Hv => Hv)) as E.
  destruct (runLoop _ variables st) as [body st'].
  destruct (findThemeMode "dark" (c_modes collection));
    destruct (findThemeMode "light" (c_modes collection)); injection H as <-; exact E.
Qed.

Lemma generateSteppedCSS_extends modes variables st r :
  generateSteppedCSS modes variables options st = Some r ->
  stateExtends variables st (snd r).
Proof.
  unfold generateSteppedCSS. intros H.
  destruct (if match breakpointDirection options with MobileFirst => false | _ => true end
            then head modes else last modes) as [mode|]; [|discriminate].
  rewrite bind_Some in H.
  pose proof (runLoop_extends (steppedRootStep options (bm_modeId mode)) variables
                (fun v st0 Hv => steppedRootStep_extends variables _ v st0 Hv)
                variables st (fun v Hv => Hv)) as E.
  destruct (runLoop _ variables st) as [body st']. injection H as <-. exact E.
Qed.

Lemma generateFluidCSS_extends modes variables st r :
  generateFluidCSS modes variables options st = Some r ->
  stateExtends variables st (snd r).
Proof.
  unfold generateFluidCSS. intros H.
  destruct (if match breakpointDirection options with MobileFirst => false | _ => true end
            then head modes else last modes) as [dm|]; [|discriminate].
  rewrite bind_Some in H.
  destruct (head modes) as [lm|]; [|discriminate]. rewrite bind_Some in H.
  destruct (partitionVars modes options st (bm_modeId lm) variables) as [[cv mv]|] eqn:P;
    [|discriminate].
  rewrite bind_Some in H.
  destruct (runLoopM (clampableStep modes options (bm_modeId dm)) cv st) as [[cl st1]|] eqn:R1;
    [|discriminate].
  rewrite bind_Some in H.
  destruct (runLoopM (mediaQueryStep options (bm_modeId dm)) mv st1) as [[ml st2]|] eqn:R2;
    [|discriminate].
  rewrite bind_Some in H.
  destruct (piecewiseBlocks _ modes options cv) as [pw|]; [|discriminate].
  rewrite bind_Some in H.
  destruct (fallbackBlocks _ modes options cv) as [fb|]; [|discriminate].
  rewrite bind_Some in H. injection H as <-. cbn [snd].
  pose proof (partitionVars_In _ _ _ _ _ _ P) as Hin.
  eapply stateExtends_trans.
  - apply (runLoopM_extends (clampableStep modes options (bm_modeId dm)) variables
             (fun v st0 r0 Hv => clampableStep_extends variables modes _ v st0 r0 Hv)
             cv st (cl, st1)); [|exact R1].
    intros v Hv. apply Hin. now left.
  - apply (runLoopM_extends (mediaQueryStep options (bm_modeId dm)) variables
             (fun v st0 r0 Hv => mediaQueryStep_extends variables _ v st0 r0 Hv)
             mv st1 (ml, st2)); [|exact R2].
    intros v Hv. apply Hin. now right.
Qed.

Lemma generateBreakpointCSS_extends bp collection variables st r :
  generateBreakpointCSS bp collection variables options st = Some r ->
  stateExtends variables st (snd r).
Proof.
  unfold generateBreakpointCSS. intros H.
  destruct (outputMode options).
  - destruct (2 <=? _)%nat;
      [now apply generateFluidCSS_extends in H | now apply generateSteppedCSS_extends in H].
  - now apply generateSteppedCSS_extends in H.
Qed.

Lemma sectionLines_extends bp collection variables st r :
  sectionLines bp options collection variables st = Some r ->
  stateExtends variables st (snd r).
Proof.
  unfold sectionLines. intros H.
  destruct (match detectModeType (modeInfosOf bp (c_modes collection)) with
            | Breakpoint => generateBreakpointCSS bp collection variables options st
            | Theme => generateThemeCSS collection variables options st
            | Single => generateSingleModeCSS collection variables options st
            end) as [[body st']|] eqn:E; [|discriminate].
  rewrite bind_Some in H. injection H as <-. cbn [snd].
  destruct (detectModeType _).
  - now apply generateBreakpointCSS_extends in E.
  - now apply generateThemeCSS_extends in E.
  - now apply generateSingleModeCSS_extends in E.
Qed.

End StateDiscipline.

Lemma emitCollections_extends bp options (groups : gmap string (list VariableInfo))
      (sorted : list Collection) :
  forall st r,
    emitCollections bp options groups sorted st = Some r ->
    errors (snd r) = errors st
    /\ outputtedCSSNames st ⊆ outputtedCSSNames (snd r)
    /\ (forall n, n ∈ outputtedCSSNames (snd r) ->
                  n ∈ outputtedCSSNames st
                  \/ exists v, groupedVariable groups v /\ cssName v = n).
Proof.
  induction sorted as [|c l IH]; intros st r H; simpl in H.
  - injection H as <-. split; [reflexivity|]. split; [set_solver | auto].
  - destruct (groups !! c_id c) as [[|v vs]|] eqn:G; [exact (IH _ _ H) | | exact (IH _ _ H)].
    destruct (sectionLines bp options c (v :: vs) st) as [[l1 st1]|] eqn:S; [|discriminate].
    rewrite bind_Some in H.
    destruct (emitCollections bp options groups l st1) as [[l2 st2]|] eqn:E; [|discriminate].
    rewrite bind_Some in H. injection H as <-. cbn [snd].
    apply sectionLines_extends in S. destruct S as (E1 & S1 & N1). cbn [snd] in *.
    destruct (IH st1 _ E) as (E2 & S2 & N2). cbn [snd] in *.
    split; [congruence|]. split; [etransitivity; eassumption|].
    intros n Hn. destruct (N2 n Hn) as [Hn1|Hn1]; [|now right].
    destruct (N1 n Hn1) as [Hn0|(w & Hw & Hc)]; [now left|].
    right. exists w. split; [|exact Hc]. now exists (c_id c), (v :: vs).
Qed.

(** X1. The emitters never add a diagnostic, never forget a registered name
    and register names of their own variables only. *)
Theorem emitters_keep_diagnostics :
  forall bp timestamp (groups : gmap string (list VariableInfo)) collections options st lines st',
    generateCSSLines bp timestamp groups collections options st = Some (lines, st') ->
    errors st' = errors st
    /\ outputtedCSSNames st ⊆ outputtedCSSNames st'
    /\ (forall n, n ∈ outputtedCSSNames st' ->
                  n ∈ outputtedCSSNames st
                  \/ exists v, groupedVariable groups v /\ cssName v = n).
Proof.
  intros bp timestamp groups collections options st lines st' H.
  unfold generateCSSLines in H.
  destruct (emitCollections bp options groups (sortCollections groups collections) st)
    as [[body st1]|] eqn:E; [|discriminate].
  rewrite bind_Some in H. injection H as <- <-.
  exact (emitCollections_extends _ _ _ _ _ _ E).
Qed.

(** ** Diagnostics *)

Section Diagnostics.

Lemma buildVariableMap_foldl_None (l : list VariableInfo) :
  forall (m : gmap string VariableInfo) k,
    foldl (fun (m : gmap string VariableInfo) v => <[ v_id v := v ]> m) m l !! k = None
    <-> m !! k = None /\ forall v, In v l -> v_id v <> k.
Proof.
  induction l as [|a l IH]; intros m k; simpl.
  - split; [intros H; split; [exact H | intros v []] | intros [H _]; exact H].
  - rewrite IH. split.
    + intros [H1 H2]. apply lookup_insert_None in H1. destruct H1 as [H1 Hne].
      split; [exact H1|]. intros v [<-|Hv]; [exact Hne | now apply H2].
    + intros [H1 H2]. split.
      * apply lookup_insert_None. split; [exact H1 | apply H2; now left].
      * intros v Hv. apply H2. now right.
Qed.

Lemma buildVariableMap_None (l : list VariableInfo) k :
  buildVariableMap l !! k = None <-> forall v, In v l -> v_id v <> k.
Proof.
  unfold buildVariableMap. rewrite buildVariableMap_foldl_None.
  split; [intros [_ H]; exact H | intros H; split; [apply lookup_empty | exact H]].
Qed.

Lemma resolveValue_errors variableMap varName value e :
  In e (snd (resolveValue variableMap varName value)) ->
  e = brokenAliasMessage varName
  /\ exists target, pv_isAlias value = true /\ aliasId value = Some target
                    /\ variableMap !! target = None.
Proof.
  unfold resolveValue.
  destruct (pv_isAlias value) eqn:A; [|intros []].
  destruct (aliasId value) as [target|] eqn:I; [|intros []].
  destruct (JS.truthy target); [|intros []].
  destruct (variableMap !! target) eqn:L; [intros []|].
  intros [<-|[]]. split; [reflexivity|]. now exists target.
Qed.

Lemma resolveModes_errors variableMap varName (vals : list (string * ProcessedValue)) e :
  In e (snd (resolveModes variableMap varName vals)) ->
  e = brokenAliasMessage varName
  /\ exists mid value target,
       In (mid, value) vals /\ pv_isAlias value = true /\ aliasId value = Some target
       /\ variableMap !! target = None.
Proof.
  induction vals as [|[mid value] r IH]; [intros []|].
  rewrite resolveModes_cons. cbn [snd]. intros H. apply in_app_or in H.
  destruct H as [H|H].
  - apply resolveValue_errors in H. destruct H as (-> & target & A & I & L).
    split; [reflexivity|]. exists mid, value, target. split; [now left | auto].
  - destruct (IH H) as (-> & m & v & t & Hin & A & I & L).
    split; [reflexivity|]. exists m, v, t. split; [now right | auto].
Qed.

Lemma resolveAliases_errors variableMap (l : list VariableInfo) e :
  In e (snd (resolveAliases variableMap l)) ->
  exists v mid value target,
    In v l /\ In (mid, value) (valuesByMode v)
    /\ pv_isAlias value = true /\ aliasId value = Some target
    /\ variableMap !! target = None /\ e = brokenAliasMessage (v_name v).
Proof.
  induction l as [|a l IH]; [intros []|].
  rewrite resolveAliases_cons. cbn [snd]. intros H. apply in_app_or in H.
  destruct H as [H|H].
  - apply resolveModes_errors in H. destruct H as (-> & m & v & t & Hin & A & I & L).
    exists a, m, v, t. split; [now left | auto].
  - destruct (IH H) as (v & m & x & t & Hv & R). exists v, m, x, t. split; [now right | exact R].
Qed.

Lemma setMode_In vals mid v k w :
  In (k, w) (setMode vals mid v) -> In (k, w) vals \/ (k = mid /\ w = v).
Proof.
  induction vals as [|[k' w'] r IH]; simpl.
  - intros [H|[]]. injection H as <- <-. now right.
  - destruct (String.eqb k' mid) eqn:E; simpl.
    + apply String.eqb_eq in E. subst k'.
      intros [H|H]; [injection H as <- <-; now right | left; now right].
    + intros [H|H]; [left; now left|]. destruct (IH H) as [H'|H']; [left; now right | now right].
Qed.

Lemma foldl_setMode_In (f : Mode -> ProcessedValue) (modes : list Mode) :
  forall acc k w,
    In (k, w) (foldl (fun a m => setMode a (m_modeId m) (f m)) acc modes) ->
    In (k, w) acc \/ exists m, In m modes /\ k = m_modeId m /\ w = f m.
Proof.
  induction modes as [|a l IH]; intros acc k w H; simpl in H; [now left|].
  destruct (IH _ _ _ H) as [H'|(m & Hm & R)].
  - apply setMode_In in H'. destruct H' as [H'|[-> ->]]; [now left|].
    right. exists a. split; [now left | auto].
  - right. exists m. split; [now right | exact R].
Qed.

Lemma collectVariable_values collection variable k w :
  In (k, w) (valuesByMode (collectVariable collection variable)) ->
  exists m, In m (c_modes collection) /\ k = m_modeId m
            /\ w = processValue (lookupRaw (hv_valuesByMode variable) (m_modeId m))
                                (hv_resolvedType variable).
Proof.
  unfold collectVariable. cbn [valuesByMode]. intros H.
  apply (foldl_setMode_In
           (fun mode => processValue (lookupRaw (hv_valuesByMode variable) (m_modeId mode))
                                     (hv_resolvedType variable))) in H.
  destruct H as [[]|H]. exact H.
Qed.

Lemma processValue_alias raw ty target :
  pv_isAlias (processValue raw ty) = true ->
  aliasId (processValue raw ty) = Some target ->
  raw = RawAlias target.
Proof. destruct raw, ty; simpl; intros A I; congruence. Qed.

Lemma collectVariables_source host v0 :
  In v0 (collectVariables host) ->
  exists hc hv, In hc host /\ c_remote (hc_collection hc) = false
                /\ In hv (hc_variables hc) /\ v0 = collectVariable (hc_collection hc) hv.
Proof.
  unfold collectVariables. rewrite in_flat_map. intros (hc & Hhc & H).
  destruct (c_remote (hc_collection hc)) eqn:R; [destruct H|].
  apply in_map_iff in H. destruct H as (hv & <- & Hhv). now exists hc, hv.
Qed.

End Diagnostics.

(** X2. Every diagnostic of a generation pass is the broken-alias message
    of a variable of a local collection that, in one of the collection's
    modes, refers to a variable identity no collected variable has; the
    emitters add none, so the diagnostics depend on the document only. *)
Theorem diagnostics_name_dangling_aliases :
  forall bp timestamp host options lines errs,
    generateLines bp timestamp host options = Some (lines, errs) ->
    errs = snd (resolveAliases (buildVariableMap (collectVariables host)) (collectVariables host))
    /\ forall e, In e errs ->
         exists hc hv mode target,
           In hc host /\ c_remote (hc_collection hc) = false
           /\ In hv (hc_variables hc) /\ In mode (c_modes (hc_collection hc))
           /\ lookupRaw (hv_valuesByMode hv) (m_modeId mode) = RawAlias target
           /\ (forall v, In v (collectVariables host) -> v_id v <> target)
           /\ e = brokenAliasMessage (hv_name hv).
Proof.
  intros bp timestamp host options lines errs H. unfold generateLines in H.
  destruct (resolveAliases (buildVariableMap (collectVariables host)) (collectVariables host))
    as [allVariables errs0] eqn:R.
  unfold generateCSSLines in H.
  destruct (emitCollections bp options (groupByCollection allVariables)
              (sortCollections (groupByCollection allVariables) (map hc_collection host))
              {| outputtedCSSNames := ∅; errors := errs0 |})
    as [[ls st]|] eqn:G; [|discriminate].
  rewrite !bind_Some in H. injection H as <- <-.
  apply emitCollections_extends in G. destruct G as (E & _). cbn [errors snd] in E.
  split; [exact E|]. rewrite E. intros e He.
  assert (He' : In e (snd (resolveAliases (buildVariableMap (collectVariables host))
                                          (collectVariables host)))) by now rewrite R.
  apply resolveAliases_errors in He'.
  destruct He' as (v & mid & value & target & Hv & Hin & A & I & L & ->).
  apply collectVariables_source in Hv. destruct Hv as (hc & hv & Hhc & Hr & Hhv & ->).
  apply collectVariable_values in Hin. destruct Hin as (m & Hm & -> & ->).
  exists hc, hv, m, target. repeat split; try assumption.
  - now apply processValue_alias with (ty := hv_resolvedType hv).
  - now apply buildVariableMap_None.
Qed.

(** ** The dedup gate *)

Lemma partitionVars_gated modes options st lid (pre post : list VariableInfo) v :
  (forall value, lookupMode (valuesByMode v) lid = Some value ->
                 shouldSkipVariable v value st = true) ->
  partitionVars modes options st lid (pre ++ v :: post)
  = partitionVars modes options st lid (pre ++ post).
Proof.
  intros Hgate. induction pre as [|a pre IH]; simpl.
  - destruct (lookupMode (valuesByMode v) lid) as [value|] eqn:L; [|reflexivity].
    now rewrite (Hgate value eq_refl).
  - now rewrite IH.
Qed.

(** X3. A variable the gate rejects (no value in the largest mode, a
    self-alias, or a registered name outside the foundations) leaves no
    trace in fluid output: the emitter returns what it returns without the
    variable. *)
Theorem fluid_gated_variable_omitted :
  forall modes options st pre v post largest,
    head modes = Some largest ->
    (forall value, lookupMode (valuesByMode v) (bm_modeId largest) = Some value ->
                   shouldSkipVariable v value st = true) ->
    generateFluidCSS modes (pre ++ v :: post) options st
    = generateFluidCSS modes (pre ++ post) options st.
Proof.
  intros modes options st pre v post largest Hh Hgate.
  unfold generateFluidCSS. rewrite Hh.
  destruct (if match breakpointDirection options with MobileFirst => false | _ => true end
            then Some largest else last modes) as [dm|]; [|reflexivity].
  rewrite !bind_Some.
  now rewrite (partitionVars_gated modes options st (bm_modeId largest) pre post v Hgate).
Qed.

(** X4. Within one default block, and across the blocks of earlier
    collections, a name outside the foundations is declared once: a
    variable that is not a foundation and is declared in the [:root] loop
    has a name that was not registered when the loop started and differs
    from the name of every variable the loop declared before it. *)
Theorem root_block_declares_name_once :
  forall options mid st variables pre1 v1 css1 pre2 v2 css2,
    declaredInRoot options mid st variables pre1 v1 css1 ->
    declaredInRoot options mid st variables pre2 v2 css2 ->
    (length pre1 < length pre2)%nat ->
    v_layerType v2 <> Foundations ->
    hasName st (cssName v2) = false /\ cssName v1 <> cssName v2.
Proof.
  intros options mid st variables pre1 v1 css1 pre2 v2 css2 D1 D2 Hlt Hl.
  destruct D2 as (post2 & value2 & E2 & L2 & S2 & F2).
  assert (Hfree : hasName (snd (runLoop (rootStep options mid) pre2 st)) (cssName v2) = false).
  { unfold shouldSkipVariable in S2.
    destruct (pv_isAlias value2 && bool_decide (aliasName value2 = Some (cssName v2)));
      [discriminate|].
    destruct (hasName _ (cssName v2)) eqn:Hn; [|reflexivity].
    rewrite bool_decide_eq_false_2 in S2 by exact Hl. discriminate. }
  split.
  - destruct (hasName st (cssName v2)) eqn:Hn; [|reflexivity].
    rewrite (runLoop_rootStep_mono options mid pre2 st _ Hn) in Hfree. discriminate.
  - intros Heq.
    destruct D1 as (post1 & value1 & E1 & L1 & S1 & F1).
    assert (Hsplit : exists mid2, pre2 = pre1 ++ v1 :: mid2).
    { rewrite E1 in E2. clear - E2 Hlt. revert pre2 E2 Hlt.
      induction pre1 as [|a p IH]; intros pre2 E2 Hlt.
      - destruct pre2 as [|b q]; [simpl in Hlt; lia|].
        simpl in E2. injection E2 as -> _. now exists q.
      - destruct pre2 as [|b q]; [simpl in Hlt; lia|].
        simpl in E2. injection E2 as -> E2. simpl in Hlt.
        destruct (IH q E2 ltac:(lia)) as [m ->]. now exists m. }
    destruct Hsplit as [mid2 ->].
    rewrite runLoop_app, runLoop_cons in Hfree. cbn [snd] in Hfree.
    rewrite (rootStep_declares options mid v1 _ value1 css1 L1 S1 F1) in Hfree.
    cbn [snd] in Hfree.
    rewrite (runLoop_rootStep_mono options mid mid2 _ (cssName v2)) in Hfree; [discriminate|].
    rewrite <- Heq. apply hasName_addName.
Qed.

(** The emitters on [colorFoundations], started with one diagnostic. *)
Lemma emitters_keep_diagnostics_witness :
  exists lines st',
    generateCSSLines BREAKPOINT_MODES "" (groupByCollection (resolvedGraph [colorFoundations]))
                     [hc_collection colorFoundations] (exampleOptions Fluid Both)
                     {| outputtedCSSNames := ∅; errors := ["earlier"] |} = Some (lines, st')
    /\ errors st' = ["earlier"]
    /\ hasName st' "--color-primary" = true.
Proof.
  destruct (generateCSSLines BREAKPOINT_MODES "" (groupByCollection (resolvedGraph [colorFoundations]))
              [hc_collection colorFoundations] (exampleOptions Fluid Both)
              {| outputtedCSSNames := ∅; errors := ["earlier"] |}) as [[lines st']|] eqn:E.
  - exists lines, st'. split; [reflexivity|].
    destruct (emitters_keep_diagnostics _ _ _ _ _ _ _ _ E) as (He & _ & _).
    split; [exact He|].
    vm_compute in E. injection E as _ <-. vm_compute. reflexivity.
  - vm_compute in E. discriminate E.
Defined.

(** The diagnostic of [colorFoundations] names one of its variables. *)
Lemma diagnostics_name_dangling_aliases_witness :
  exists hv, In hv (hc_variables colorFoundations)
             /\ In (brokenAliasMessage (hv_name hv))
                   (snd (resolveAliases (buildVariableMap (collectVariables [colorFoundations]))
                                        (collectVariables [colorFoundations]))).
Proof.
  destruct (generateLines BREAKPOINT_MODES "" [colorFoundations] (exampleOptions Fluid Both))
    as [[lines errs]|] eqn:E.
  - destruct (diagnostics_name_dangling_aliases _ _ _ _ _ _ E) as [Herrs Hall].
    destruct (Hall "Broken alias: accent references unknown variable")
      as (hc & hv & mode & target & Hhc & _ & Hhv & _ & _ & _ & He).
    + rewrite Herrs. vm_compute. now left.
    + destruct Hhc as [<-|[]]. exists hv. split; [exact Hhv|].
      rewrite <- He. vm_compute. now left.
  - vm_compute in E. discriminate E.
Defined.

(** The alias layer of [spaceAliases] once the foundation has registered the name. *)
Lemma fluid_gated_variable_omitted_witness :
  generateFluidCSS [ {| bm_modeId := "2:0"; bm_name := "Desktop"; bm_breakpointPx := 1680 |};
                     {| bm_modeId := "2:1"; bm_name := "Mobile"; bm_breakpointPx := 480 |} ]
                   [spaceAliasVariable] (exampleOptions Fluid Both)
                   (addName emptyState "--space-fixed-1")
  = Some ([":root {"; "}"], addName emptyState "--space-fixed-1").
Proof.
  refine (eq_trans (fluid_gated_variable_omitted
             [ {| bm_modeId := "2:0"; bm_name := "Desktop"; bm_breakpointPx := 1680 |};
               {| bm_modeId := "2:1"; bm_name := "Mobile"; bm_breakpointPx := 480 |} ]
             (exampleOptions Fluid Both) (addName emptyState "--space-fixed-1")
             [] spaceAliasVariable []
             {| bm_modeId := "2:0"; bm_name := "Desktop"; bm_breakpointPx := 1680 |}
             eq_refl _) _).
  - intros value H. vm_compute in H. injection H as <-. vm_compute. reflexivity.
  - vm_compute. reflexivity.
Defined.

(** The two paddings of [buttonMappings]. *)
Lemma root_block_declares_name_once_witness :
  hasName emptyState (cssName paddingYVariable) = false
  /\ cssName paddingXVariable <> cssName paddingYVariable.
Proof.
  apply (root_block_declares_name_once (exampleOptions Fluid Both) "60:0" emptyState
           (resolvedGraph [buttonMappings])
           [] paddingXVariable "12px" [paddingXVariable] paddingYVariable "8px").
  - exists [paddingYVariable], (literal (RNum 12)). repeat split; vm_compute; reflexivity.
  - exists [], (literal (RNum 8)). repeat split; vm_compute; reflexivity.
  - simpl. lia.
  - vm_compute. discriminate.
Defined.

(** ** Alias values in the resolved graph *)

Section AliasValues.

Lemma buildVariableMap_foldl_Some (l : list VariableInfo) :
  forall (m : gmap string VariableInfo) k t,
    foldl (fun (m : gmap string VariableInfo) v => <[ v_id v := v ]> m) m l !! k = Some t ->
    m !! k = Some t \/ (In t l /\ v_id t = k).
Proof.
  induction l as [|a l IH]; intros m k t H; simpl in H; [now left|].
  destruct (IH _ _ _ H) as [H'|[Hin Hk]].
  - destruct (decide (v_id a = k)) as [E|E].
    + rewrite E, lookup_insert_eq in H'. injection H' as <-. right. split; [now left | exact E].
    + rewrite lookup_insert_ne in H' by exact E. now left.
  - right. split; [now right | exact Hk].
Qed.

Lemma buildVariableMap_Some (l : list VariableInfo) k t :
  buildVariableMap l !! k = Some t -> In t l /\ v_id t = k.
Proof.
  intros H. apply buildVariableMap_foldl_Some in H. destruct H as [H|H]; [|exact H].
  rewrite lookup_empty in H. discriminate.
Qed.

Lemma resolveModes_In variableMap varName (vals : list (string * ProcessedValue)) mid value' :
  In (mid, value') (fst (resolveModes variableMap varName vals)) ->
  exists value, In (mid, value) vals /\ value' = fst (resolveValue variableMap varName value).
Proof.
  induction vals as [|[k w] r IH]; [intros []|].
  rewrite resolveModes_cons. cbn [fst]. intros [H|H].
  - injection H as <- <-. exists w. split; [now left | reflexivity].
  - destruct (IH H) as (value & Hin & ->). exists value. split; [now right | reflexivity].
Qed.

Lemma generateCSSName_truthy varName dom lt : JS.truthy (generateCSSName varName dom lt) = true.
Proof.
  unfold generateCSSName.
  destruct lt; repeat match goal with |- context [if ?b then _ else _] => destruct b end;
    rewrite !append_cons; reflexivity.
Qed.

(** An alias value of the resolved graph, traced back to the raw alias it
    comes from. *)
Lemma graph_alias_value host v mid value :
  In v (resolvedGraph host) -> In (mid, value) (valuesByMode v) -> pv_isAlias value = true ->
  exists v0 target,
    In v0 (collectVariables host)
    /\ v = withValues v0 (fst (resolveModes (buildVariableMap (collectVariables host))
                                            (v_name v0) (valuesByMode v0)))
    /\ In (mid, processValue (RawAlias target) (resolvedType v0)) (valuesByMode v0)
    /\ value = fst (resolveValue (buildVariableMap (collectVariables host)) (v_name v0)
                                 (processValue (RawAlias target) (resolvedType v0))).
Proof.
  intros Hv Hin A. unfold resolvedGraph in Hv.
  apply resolveAliases_In in Hv. destruct Hv as (v0 & Hv0 & ->).
  cbn [valuesByMode withValues] in Hin.
  apply resolveModes_In in Hin. destruct Hin as (value0 & Hin0 & ->).
  pose proof Hv0 as Hsrc.
  apply collectVariables_source in Hsrc. destruct Hsrc as (hc & hv & _ & _ & _ & E0).
  pose proof Hin0 as Hraw. rewrite E0 in Hraw.
  apply collectVariable_values in Hraw. destruct Hraw as (m & _ & _ & Ev).
  assert (A0 : pv_isAlias value0 = true).
  { destruct (pv_isAlias value0) eqn:P; [reflexivity|].
    unfold resolveValue in A. rewrite P in A. cbn [fst] in A. congruence. }
  assert (T : exists target, lookupRaw (hv_valuesByMode hv) (m_modeId m) = RawAlias target).
  { rewrite Ev in A0. destruct (lookupRaw (hv_valuesByMode hv) (m_modeId m)); [eauto| | | | |];
      destruct (hv_resolvedType hv); discriminate A0. }
  destruct T as [target T]. rewrite T in Ev.
  exists v0, target. split; [exact Hv0|]. split; [reflexivity|].
  assert (Ety : resolvedType v0 = hv_resolvedType hv) by (rewrite E0; reflexivity).
  rewrite Ety, <- Ev. split; [exact Hin0 | reflexivity].
Qed.

End AliasValues.

(** X5. With alias mode [resolved] no alias value is ever printed: the
    formatter returns null for every alias value of the resolved graph,
    whether its target exists or not, because an alias never receives a
    resolved literal. *)
Theorem resolved_mode_prints_no_alias :
  forall host options v mid value,
    aliasMode options = Resolved ->
    In v (resolvedGraph host) ->
    In (mid, value) (valuesByMode v) ->
    pv_isAlias value = true ->
    formatCSSValue value v options = None.
Proof.
  intros host options v mid value Hm Hv Hin A.
  destruct (graph_alias_value host v mid value Hv Hin A) as (v0 & target & _ & _ & _ & ->).
  unfold formatCSSValue. rewrite Hm.
  unfold resolveValue. cbn [processValue pv_isAlias aliasId].
  destruct (JS.truthy target); [|reflexivity].
  destruct (buildVariableMap (collectVariables host) !! target); reflexivity.
Qed.

(** X6. With alias mode [preserved] an alias value of the resolved graph is
    printed as a reference to the emitted name of the collected variable
    that carries the target identity, whatever the types involved; it is
    printed as nothing exactly when the target identity is empty or no
    collected variable carries it. *)
Theorem preserved_alias_prints_target_name :
  forall host options v mid value,
    aliasMode options = Preserved ->
    In v (resolvedGraph host) ->
    In (mid, value) (valuesByMode v) ->
    pv_isAlias value = true ->
    exists target,
      aliasId value = Some target
      /\ ((exists t, In t (collectVariables host) /\ v_id t = target /\ target <> ""
                     /\ formatCSSValue value v options = Some ("var(" +:+ cssName t +:+ ")"))
          \/ ((target = "" \/ forall t, In t (collectVariables host) -> v_id t <> target)
              /\ formatCSSValue value v options = None)).
Proof.
  intros host options v mid value Hm Hv Hin A.
  destruct (graph_alias_value host v mid value Hv Hin A) as (v0 & target & _ & _ & _ & ->).
  exists target. unfold resolveValue. cbn [processValue pv_isAlias aliasId].
  destruct (JS.truthy target) eqn:T.
  - destruct (buildVariableMap (collectVariables host) !! target) as [t|] eqn:L.
    + cbn [fst aliasId]. split; [reflexivity|]. left.
      destruct (buildVariableMap_Some _ _ _ L) as [Ht Hid].
      exists t. split; [exact Ht|]. split; [exact Hid|]. split.
      * intros ->. discriminate T.
      * unfold formatCSSValue. rewrite Hm. cbn [pv_isAlias aliasName].
        assert (Tn : JS.truthy (cssName t) = true).
        { apply collectVariables_In in Ht. destruct Ht as (hc & hv & _ & ->).
          apply generateCSSName_truthy. }
        now rewrite Tn.
    + cbn [fst aliasId]. split; [reflexivity|]. right. split.
      * right. now apply buildVariableMap_None.
      * unfold formatCSSValue. rewrite Hm. reflexivity.
  - cbn [fst aliasId]. split; [reflexivity|]. right. split.
    + left. unfold JS.truthy in T. apply negb_false_iff, String.eqb_eq in T. exact T.
    + unfold formatCSSValue. rewrite Hm. reflexivity.
Qed.

(** The alias of [colorAliases] under alias mode [resolved]. *)
Lemma resolved_mode_prints_no_alias_witness :
  formatCSSValue colorAliasValue colorAliasVariable resolvedAliasOptions = None.
Proof.
  apply (resolved_mode_prints_no_alias [colorFoundations; colorAliases] resolvedAliasOptions
           colorAliasVariable "20:0" colorAliasValue eq_refl).
  - vm_compute. right. right. left. reflexivity.
  - vm_compute. left. reflexivity.
  - reflexivity.
Defined.

(** The alias of [colorAliases] under alias mode [preserved]. *)
Lemma preserved_alias_prints_target_name_witness :
  formatCSSValue colorAliasValue colorAliasVariable (exampleOptions Fluid Both)
  = Some "var(--color-primary)".
Proof.
  destruct (preserved_alias_prints_target_name [colorFoundations; colorAliases]
              (exampleOptions Fluid Both) colorAliasVariable "20:0" colorAliasValue eq_refl)
    as (target & Ht & [(t & _ & _ & _ & Hf)|[_ Hf]]).
  - vm_compute. right. right. left. reflexivity.
  - vm_compute. left. reflexivity.
  - reflexivity.
  - vm_compute. reflexivity.
  - vm_compute in Hf. discriminate Hf.
Defined.

(** ** [Array.prototype.sort] *)

Section Sorting.

Context {A : Type} (le : A -> A -> bool).

Lemma insertBy_perm (x : A) (l : list A) : Permutation (JS.insertBy le x l) (x :: l).
Proof.
  induction l as [|y l IH]; simpl; [reflexivity|].
  destruct (le x y); [reflexivity|].
  etransitivity; [apply perm_skip, IH | apply perm_swap].
Qed.

Lemma sortBy_perm (l : list A) : Permutation (JS.sortBy le l) l.
Proof.
  unfold JS.sortBy. induction l as [|x l IH]; simpl; [reflexivity|].
  etransitivity; [apply insertBy_perm | apply perm_skip, IH].
Qed.

(** Elements that tie with each other keep their order. *)
Lemma insertBy_filter (p : A -> bool) (x : A) (l : list A) :
  (forall y, In y l -> p x = true -> p y = true -> le x y = true) ->
  List.filter p (JS.insertBy le x l) = List.filter p (x :: l).
Proof.
  induction l as [|y l IH]; intros H; [reflexivity|].
  simpl. destruct (le x y) eqn:E; [reflexivity|].
  simpl. simpl in IH. rewrite IH by (intros z Hz; apply H; now right).
  destruct (p x) eqn:Px; [|reflexivity].
  destruct (p y) eqn:Py; [|reflexivity].
  rewrite (H y (or_introl eq_refl) eq_refl Py) in E. discriminate.
Qed.

Lemma sortBy_filter (p : A -> bool) (l : list A) :
  (forall x y, In x l -> In y l -> p x = true -> p y = true -> le x y = true) ->
  List.filter p (JS.sortBy le l) = List.filter p l.
Proof.
  unfold JS.sortBy. induction l as [|x l IH]; intros H; [reflexivity|].
  cbn [foldr]. rewrite insertBy_filter.
  - simpl. rewrite IH by (intros a b Ha Hb; apply H; now right). reflexivity.
  - intros y Hy. apply H; [now left|]. right. now apply (sortBy_In le).
Qed.

Hypothesis le_total : forall a b, le a b = true \/ le b a = true.
Hypothesis le_trans : forall a b c, le a b = true -> le b c = true -> le a c = true.

Lemma insertBy_sorted (x : A) (l : list A) :
  StronglySorted (fun a b => le a b = true) l ->
  StronglySorted (fun a b => le a b = true) (JS.insertBy le x l).
Proof.
  induction 1 as [|y l Hs IH Hall]; simpl.
  - constructor; constructor.
  - destruct (le x y) eqn:E.
    + constructor; [now constructor|]. constructor; [exact E|].
      rewrite List.Forall_forall in *. intros z Hz. apply (le_trans x y z E), Hall, Hz.
    + constructor; [exact IH|].
      rewrite List.Forall_forall in *. intros z Hz.
      apply (insertBy_In le) in Hz. destruct Hz as [->|Hz]; [|now apply Hall].
      destruct (le_total x y) as [C|C]; [congruence | exact C].
Qed.

Lemma sortBy_sorted (l : list A) : StronglySorted (fun a b => le a b = true) (JS.sortBy le l).
Proof.
  unfold JS.sortBy. induction l as [|x l IH]; simpl; [constructor|].
  now apply insertBy_sorted.
Qed.

End Sorting.

(** ** Ordering of modes and collections *)

Section Ordering.

Lemma StronglySorted_impl {A} (R S : A -> A -> Prop) (l : list A) :
  (forall a b, R a b -> S a b) -> StronglySorted R l -> StronglySorted S l.
Proof.
  intros H. induction 1 as [|x l Hs IH Hall]; constructor; [exact IH|].
  rewrite List.Forall_forall in *. intros y Hy. apply H, Hall, Hy.
Qed.

Lemma ascii_compare_trans (a b c : ascii) :
  Ascii.compare a b = Lt -> Ascii.compare b c = Lt -> Ascii.compare a c = Lt.
Proof. unfold Ascii.compare. rewrite !N.compare_lt_iff. lia. Qed.

Lemma string_compare_trans (a : string) :
  forall b c, String.compare a b = Lt -> String.compare b c = Lt -> String.compare a c = Lt.
Proof.
  induction a as [|x a IH]; intros [|y b] [|z c]; simpl; try congruence.
  destruct (Ascii.compare x y) eqn:Exy; try discriminate;
    destruct (Ascii.compare y z) eqn:Eyz; try discriminate; intros H1 H2.
  - apply Ascii.compare_eq_iff in Exy. subst y. rewrite Eyz. now apply (IH b c).
  - apply Ascii.compare_eq_iff in Exy. subst y. now rewrite Eyz.
  - apply Ascii.compare_eq_iff in Eyz. subst z. now rewrite Exy.
  - now rewrite (ascii_compare_trans x y z Exy Eyz).
Qed.

Lemma string_compare_refl (a : string) : String.compare a a = Eq.
Proof.
  pose proof (String.compare_antisym a a) as H.
  destruct (String.compare a a); simpl in H; congruence.
Qed.

(** The comparator of [generateCSSOutput] as a lexicographic order. *)
Lemma compareCollections_le (a b : Collection) :
  (compareCollections a b <= 0)%Z
  <-> String.compare (domain (parseCollectionName (c_name a)))
                     (domain (parseCollectionName (c_name b))) = Lt
      \/ (domain (parseCollectionName (c_name a)) = domain (parseCollectionName (c_name b))
          /\ (layerOrder (c_name a) <= layerOrder (c_name b))%Z).
Proof.
  unfold compareCollections, localeCompare.
  set (da := domain (parseCollectionName (c_name a))).
  set (db := domain (parseCollectionName (c_name b))).
  destruct (String.eqb da db) eqn:E; simpl.
  - apply String.eqb_eq in E. rewrite E, string_compare_refl.
    split; [intros H; right; split; [reflexivity | lia] | intros [H|[_ H]]; [discriminate | lia]].
  - apply String.eqb_neq in E.
    destruct (String.compare da db) eqn:C.
    + apply String.compare_eq_iff in C. contradiction.
    + split; [now left | lia].
    + split; [lia | intros [H|[H _]]; [discriminate | contradiction]].
Qed.

Lemma compareCollections_total (a b : Collection) :
  (compareCollections a b <= 0)%Z \/ (compareCollections b a <= 0)%Z.
Proof.
  rewrite !compareCollections_le.
  set (da := domain (parseCollectionName (c_name a))).
  set (db := domain (parseCollectionName (c_name b))).
  destruct (String.compare da db) eqn:C.
  - apply String.compare_eq_iff in C.
    destruct (Z.le_ge_cases (layerOrder (c_name a)) (layerOrder (c_name b)));
      [left | right]; right; split; [exact C | assumption | now symmetry | lia].
  - left. now left.
  - right. left. rewrite String.compare_antisym, C. reflexivity.
Qed.

Lemma compareCollections_trans (a b c : Collection) :
  (compareCollections a b <= 0)%Z -> (compareCollections b c <= 0)%Z ->
  (compareCollections a c <= 0)%Z.
Proof.
  rewrite !compareCollections_le.
  intros [H1|[E1 L1]] [H2|[E2 L2]].
  - left. eapply string_compare_trans; eassumption.
  - left. now rewrite <- E2.
  - left. now rewrite E1.
  - right. split; [congruence | lia].
Qed.

Lemma compareCollections_tie (c x y : Collection) :
  compareCollections c x = 0%Z -> compareCollections c y = 0%Z ->
  (compareCollections x y <= 0)%Z.
Proof.
  intros Hx Hy.
  assert (T : forall d, compareCollections c d = 0%Z ->
                        domain (parseCollectionName (c_name c)) = domain (parseCollectionName (c_name d))
                        /\ layerOrder (c_name c) = layerOrder (c_name d)).
  { intros d. unfold compareCollections, localeCompare.
    destruct (String.eqb _ _) eqn:E; simpl.
    - apply String.eqb_eq in E. intros H. split; [exact E | lia].
    - apply String.eqb_neq in E. destruct (String.compare _ _) eqn:C; try discriminate.
      apply String.compare_eq_iff in C. contradiction. }
  destruct (T x Hx) as [Dx Lx]. destruct (T y Hy) as [Dy Ly].
  apply compareCollections_le. right. split; [congruence | lia].
Qed.

End Ordering.

Lemma sortedBreakpointModes_sorted bp collection :
  Permutation (sortedBreakpointModes bp collection) (breakpointModesOf bp collection)
  /\ StronglySorted (fun a b => (bm_breakpointPx b <= bm_breakpointPx a)%Z)
                    (sortedBreakpointModes bp collection).
Proof.
  split; [apply sortBy_perm|].
  unfold sortedBreakpointModes.
  eapply StronglySorted_impl; [|apply sortBy_sorted].
  - intros a b H. apply Z.leb_le, H.
  - intros a b. rewrite !Z.leb_le. lia.
  - intros a b c. rewrite !Z.leb_le. lia.
Qed.

(** X7. [generateBreakpointCSS] hands its emitters the collection's modes in
    descending order of width; modes of equal width keep the order the
    collection lists them in. *)
Theorem breakpoint_modes_sorted_descending :
  forall bp collection variables options st,
    generateBreakpointCSS bp collection variables options st
    = (if match outputMode options with Fluid => true | Fixed => false end
          && (2 <=? length (sortedBreakpointModes bp collection))%nat
       then generateFluidCSS (sortedBreakpointModes bp collection) variables options st
       else generateSteppedCSS (sortedBreakpointModes bp collection) variables options st)
    /\ Permutation (sortedBreakpointModes bp collection) (breakpointModesOf bp collection)
    /\ StronglySorted (fun a b => (bm_breakpointPx b <= bm_breakpointPx a)%Z)
                      (sortedBreakpointModes bp collection)
    /\ forall w, List.filter (fun m => (bm_breakpointPx m =? w)%Z) (sortedBreakpointModes bp collection)
                 = List.filter (fun m => (bm_breakpointPx m =? w)%Z) (breakpointModesOf bp collection).
Proof.
  intros bp collection variables options st. split; [|split; [|split]].
  - unfold generateBreakpointCSS. fold (breakpointModesOf bp collection).
    fold (sortedBreakpointModes bp collection).
    destruct (outputMode options); reflexivity.
  - apply sortedBreakpointModes_sorted.
  - apply sortedBreakpointModes_sorted.
  - intros w. apply sortBy_filter.
    intros x y _ _ Hx Hy. apply Z.eqb_eq in Hx, Hy. apply Z.leb_le. lia.
Qed.

(** ** Grouping *)

Lemma groupByCollection_foldl (l : list VariableInfo) :
  forall (groups : gmap string (list VariableInfo)) k,
    foldl (fun (g : gmap string (list VariableInfo)) v =>
             <[ collectionId v := default [] (g !! collectionId v) ++ [v] ]> g)
          groups l !! k
    = match variablesOf k l with
      | [] => groups !! k
      | vs => Some (default [] (groups !! k) ++ vs)
      end.
Proof.
  induction l as [|a l IH]; intros groups k; [reflexivity|].
  cbn [foldl]. rewrite IH. unfold variablesOf. cbn [List.filter].
  destruct (String.eqb (collectionId a) k) eqn:E.
  - apply String.eqb_eq in E. rewrite E, lookup_insert_eq.
    destruct (List.filter _ l); simpl; [reflexivity|]. now rewrite <- app_assoc.
  - apply String.eqb_neq in E. now rewrite lookup_insert_ne by exact E.
Qed.

(** X9. [groupByCollection] maps a collection identity to the variables
    carrying it, in their order, and holds no entry for an identity no
    variable carries. *)
Theorem groupByCollection_lookup :
  forall (variables : list VariableInfo) k,
    groupByCollection variables !! k
    = match variablesOf k variables with
      | [] => None
      | vs => Some vs
      end.
Proof.
  intros variables k. unfold groupByCollection.
  rewrite groupByCollection_foldl, lookup_empty. reflexivity.
Qed.

(** ** Dispatch to the breakpoint emitter *)

Lemma detectBreakpoint_Some bp modeName w :
  detectBreakpoint bp modeName = Some w ->
  exists e, In e (breakpointEntries bp)
            /\ JS.includes (JS.toLowerCase modeName) (fst e) = true /\ w = snd e.
Proof.
  unfold detectBreakpoint.
  destruct (find _ (breakpointEntries bp)) as [e|] eqn:F; [|discriminate].
  intros H. injection H as <-. apply find_some in F. destruct F as [Hin Hinc].
  now exists e.
Qed.

(** X10. A section classified as breakpoint-driven that has a mode at all
    has at least two, each carrying the width of a table keyword its
    lower-cased name contains (the zero default is never taken); with
    fluid output such a section is always written by the fluid emitter. *)
Theorem breakpoint_section_modes :
  forall bp collection,
    detectModeType (modeInfosOf bp (c_modes collection)) = Breakpoint ->
    c_modes collection <> [] ->
    (2 <= length (sortedBreakpointModes bp collection))%nat
    /\ Forall (fun m => exists e, In e (breakpointEntries bp)
                                  /\ JS.includes (JS.toLowerCase (bm_name m)) (fst e) = true
                                  /\ bm_breakpointPx m = snd e)
              (sortedBreakpointModes bp collection)
    /\ forall variables options st,
         outputMode options = Fluid ->
         generateBreakpointCSS bp collection variables options st
         = generateFluidCSS (sortedBreakpointModes bp collection) variables options st.
Proof.
  intros bp collection Hd Hne. unfold detectModeType in Hd.
  rewrite length_modeInfosOf in Hd.
  destruct (length (c_modes collection) =? 1)%nat eqn:L1; [discriminate|].
  apply Nat.eqb_neq in L1.
  destruct (existsb (fun m => isNone (breakpointPx m)) (modeInfosOf bp (c_modes collection)))
    eqn:Ex; cbn [negb] in Hd.
  { destruct (existsb _ (modeInfosOf bp (c_modes collection))) in Hd; discriminate Hd. }
  assert (Hlen : (2 <= length (sortedBreakpointModes bp collection))%nat).
  { unfold sortedBreakpointModes, breakpointModesOf. rewrite sortBy_length, length_map.
    destruct (c_modes collection) as [|a [|b l]]; simpl in *; [congruence | lia | lia]. }
  split; [exact Hlen|]. split.
  - rewrite List.Forall_forall. intros m Hm.
    unfold sortedBreakpointModes in Hm. apply sortBy_In in Hm.
    unfold breakpointModesOf in Hm. apply in_map_iff in Hm. destruct Hm as (m0 & <- & Hm0).
    cbn [bm_name bm_breakpointPx].
    destruct (detectBreakpoint bp (m_name m0)) as [w|] eqn:D.
    + destruct (detectBreakpoint_Some _ _ _ D) as (e & He & Hi & ->). now exists e.
    + exfalso. assert (T : existsb (fun m => isNone (breakpointPx m))
                                   (modeInfosOf bp (c_modes collection)) = true).
      { apply existsb_exists.
        exists {| modeId := m_modeId m0; name := m_name m0;
                  breakpointPx := detectBreakpoint bp (m_name m0) |}.
        split; [|cbn [breakpointPx]; now rewrite D].
        unfold modeInfosOf. apply in_map_iff. now exists m0. }
      congruence.
  - intros variables options st Hf. unfold generateBreakpointCSS.
    fold (breakpointModesOf bp collection). fold (sortedBreakpointModes bp collection).
    rewrite Hf. apply Nat.leb_le in Hlen. now rewrite Hlen.
Qed.

(** The section of [typoFoundations]. *)
Lemma breakpoint_section_modes_witness :
  generateBreakpointCSS BREAKPOINT_MODES (hc_collection typoFoundations) typoVariables
                        (exampleOptions Fluid Both) emptyState
  = generateFluidCSS [desktopMode; mobileMode] typoVariables (exampleOptions Fluid Both)
                     emptyState.
Proof.
  destruct (breakpoint_section_modes BREAKPOINT_MODES (hc_collection typoFoundations))
    as (_ & _ & H).
  - vm_compute. reflexivity.
  - discriminate.
  - exact (H typoVariables (exampleOptions Fluid Both) emptyState eq_refl).
Defined.

(** ** Identifier generation *)

Section Slugs.

Lemma allChars_impl (p q : ascii -> bool) (s : string) :
  (forall c, p c = true -> q c = true) -> allChars p s = true -> allChars q s = true.
Proof.
  intros H. induction s as [|c r IH]; simpl; [auto|].
  rewrite !andb_true_iff. intros [Hc Hr]. split; [apply H, Hc | apply IH, Hr].
Qed.

Lemma allChars_app (p : ascii -> bool) (s t : string) :
  allChars p (s +:+ t) = allChars p s && allChars p t.
Proof.
  induction s as [|c r IH]; rewrite ?append_empty, ?append_cons; simpl; [reflexivity|].
  now rewrite IH, andb_assoc.
Qed.

Lemma allChars_mapChars (q : ascii -> bool) (f : ascii -> ascii) (s : string) :
  (forall c, q (f c) = true) -> allChars q (JS.mapChars f s) = true.
Proof. intros H. induction s as [|c r IH]; simpl; [reflexivity|]. now rewrite H, IH. Qed.

Lemma allChars_capRuns (q : ascii -> bool) (limit : nat) (s : string) :
  forall seen, allChars q s = true -> allChars q (capRuns limit seen s) = true.
Proof.
  induction s as [|c r IH]; intros seen; simpl; [auto|].
  rewrite andb_true_iff. intros [Hc Hr].
  destruct (isHyphen c); [destruct (seen <? limit)%nat|]; simpl; rewrite ?Hc; simpl;
    apply IH, Hr.
Qed.

Lemma allChars_dropWhile (q p : ascii -> bool) (s : string) :
  allChars q s = true -> allChars q (JS.dropWhile p s) = true.
Proof.
  induction s as [|c r IH]; simpl; [auto|].
  rewrite andb_true_iff. intros [Hc Hr].
  destruct (p c); [auto|]. simpl. now rewrite Hc, Hr.
Qed.

Lemma allChars_revOnto (q : ascii -> bool) (s : string) :
  forall acc, allChars q (JS.revOnto s acc) = allChars q s && allChars q acc.
Proof.
  induction s as [|c r IH]; intros acc; simpl; [reflexivity|].
  rewrite IH. simpl. destruct (q c), (allChars q r); reflexivity.
Qed.

Lemma allChars_reverse (q : ascii -> bool) (s : string) :
  allChars q (JS.reverse s) = allChars q s.
Proof. unfold JS.reverse. rewrite allChars_revOnto. simpl. apply andb_true_r. Qed.

Lemma allChars_dropWhileEnd (q p : ascii -> bool) (s : string) :
  allChars q s = true -> allChars q (JS.dropWhileEnd p s) = true.
Proof.
  intros H. unfold JS.dropWhileEnd. rewrite allChars_reverse.
  apply allChars_dropWhile. now rewrite allChars_reverse.
Qed.

(** *** [dropWhileEnd], structurally *)

Lemma append_nil_r (s : string) : s +:+ "" = s.
Proof. induction s as [|c r IH]; rewrite ?append_empty, ?append_cons; congruence. Qed.

Lemma append_assoc_s (a b c : string) : (a +:+ b) +:+ c = a +:+ (b +:+ c).
Proof. induction a as [|x a IH]; rewrite ?append_empty, ?append_cons; congruence. Qed.

Lemma revOnto_app (s : string) : forall acc, JS.revOnto s acc = JS.reverse s +:+ acc.
Proof.
  unfold JS.reverse. induction s as [|c r IH]; intros acc; simpl.
  - now rewrite append_empty.
  - rewrite IH, (IH (String c "")), append_assoc_s, append_cons, append_empty. reflexivity.
Qed.

Lemma reverse_cons (c : ascii) (r : string) :
  JS.reverse (String c r) = JS.reverse r +:+ String c "".
Proof. unfold JS.reverse at 1. simpl. apply revOnto_app. Qed.

Lemma reverse_snoc (u : string) (c : ascii) :
  JS.reverse (u +:+ String c "") = String c (JS.reverse u).
Proof.
  induction u as [|x u IH]; rewrite ?append_empty, ?append_cons.
  - reflexivity.
  - rewrite !reverse_cons, IH, append_cons. reflexivity.
Qed.

Lemma reverse_empty_iff (s : string) : JS.reverse s = "" <-> s = "".
Proof.
  split; [|intros ->; reflexivity].
  destruct s as [|c r]; [reflexivity|]. rewrite reverse_cons.
  destruct (JS.reverse r); rewrite ?append_empty, ?append_cons; discriminate.
Qed.

Lemma dropWhile_snoc (p : ascii -> bool) (u : string) (c : ascii) :
  JS.dropWhile p (u +:+ String c "")
  = match JS.dropWhile p u with
    | EmptyString => if p c then "" else String c ""
    | w => w +:+ String c ""
    end.
Proof.
  induction u as [|x u IH]; rewrite ?append_empty, ?append_cons; simpl.
  - reflexivity.
  - destruct (p x); [exact IH|]. now rewrite append_cons.
Qed.

Lemma dropWhileEnd_cons (p : ascii -> bool) (c : ascii) (r : string) :
  JS.dropWhileEnd p (String c r)
  = match JS.dropWhileEnd p r with
    | EmptyString => if p c then "" else String c ""
    | r' => String c r'
    end.
Proof.
  unfold JS.dropWhileEnd. rewrite reverse_cons, dropWhile_snoc.
  destruct (JS.dropWhile p (JS.reverse r)) as [|x w] eqn:D.
  - destruct (p c); reflexivity.
  - rewrite reverse_snoc.
    destruct (JS.reverse (String x w)) eqn:R; [|reflexivity].
    apply (proj1 (reverse_empty_iff _)) in R. discriminate R.
Qed.

Lemma dropWhileEnd_empty (p : ascii -> bool) : JS.dropWhileEnd p "" = "".
Proof. reflexivity. Qed.

Lemma dropWhile_head (p : ascii -> bool) (s : string) :
  match JS.dropWhile p s with String c _ => p c = false | EmptyString => True end.
Proof.
  induction s as [|c r IH]; simpl; [exact I|].
  destruct (p c) eqn:E; [exact IH | exact E].
Qed.

Lemma dropWhileEnd_last (p : ascii -> bool) (s : string) :
  match JS.lastChar (JS.dropWhileEnd p s) with Some c => p c = false | None => True end.
Proof.
  induction s as [|c r IH]; [exact I|].
  rewrite dropWhileEnd_cons.
  destruct (JS.dropWhileEnd p r) as [|x w] eqn:D.
  - destruct (p c) eqn:E; simpl; [exact I | exact E].
  - rewrite lastChar_cons. exact IH.
Qed.

Lemma dropWhileEnd_head (p : ascii -> bool) (s : string) :
  match s with String c _ => p c = false | EmptyString => True end ->
  match JS.dropWhileEnd p s with String c _ => p c = false | EmptyString => True end.
Proof.
  destruct s as [|c r]; [auto|]. intros H. rewrite dropWhileEnd_cons.
  destruct (JS.dropWhileEnd p r); [rewrite H|]; exact H.
Qed.

Lemma dropWhile_fixed (p : ascii -> bool) (s : string) :
  match s with String c _ => p c = false | EmptyString => True end ->
  JS.dropWhile p s = s.
Proof. destruct s as [|c r]; [auto|]. simpl. now intros ->. Qed.

Lemma dropWhileEnd_fixed (p : ascii -> bool) (s : string) :
  match JS.lastChar s with Some c => p c = false | None => True end ->
  JS.dropWhileEnd p s = s.
Proof.
  induction s as [|c r IH]; [auto|]. intros H. rewrite dropWhileEnd_cons.
  destruct r as [|x w].
  - simpl in H. rewrite dropWhileEnd_empty. now rewrite H.
  - rewrite lastChar_cons in H. now rewrite (IH H).
Qed.

(** *** Hyphen runs *)

Lemma runsWithin_capRuns (limit : nat) (s : string) :
  forall seen, (seen <= limit)%nat -> runsWithin limit seen (capRuns limit seen s) = true.
Proof.
  induction s as [|c r IH]; intros seen H; simpl; [reflexivity|].
  destruct (isHyphen c) eqn:E.
  - destruct (Nat.ltb_spec seen limit) as [L|L]; simpl.
    + rewrite E. apply andb_true_iff. split; [now apply Nat.ltb_lt | apply IH; lia].
    + now apply IH.
  - simpl. rewrite E. apply IH. lia.
Qed.

Lemma runsWithin_mono (limit : nat) (s : string) :
  forall seen seen', (seen' <= seen)%nat ->
                     runsWithin limit seen s = true -> runsWithin limit seen' s = true.
Proof.
  induction s as [|c r IH]; intros seen seen' H; simpl; [auto|].
  destruct (isHyphen c); [|auto].
  rewrite !andb_true_iff, !Nat.ltb_lt. intros [L R].
  split; [lia | apply (IH (S seen)); [lia | exact R]].
Qed.

Lemma runsWithin_dropWhile (limit : nat) (s : string) :
  forall seen, runsWithin limit seen s = true ->
               runsWithin limit 0 (JS.dropWhile isHyphen s) = true.
Proof.
  induction s as [|c r IH]; intros seen; simpl; [auto|].
  destruct (isHyphen c) eqn:E.
  - rewrite andb_true_iff. intros [_ R]. now apply (IH (S seen)).
  - simpl. now rewrite E.
Qed.

Lemma runsWithin_dropWhileEnd (limit : nat) (s : string) :
  forall seen, runsWithin limit seen s = true ->
               runsWithin limit seen (JS.dropWhileEnd isHyphen s) = true.
Proof.
  induction s as [|c r IH]; intros seen; [auto|].
  rewrite dropWhileEnd_cons. simpl.
  destruct (isHyphen c) eqn:E.
  - rewrite andb_true_iff. intros [L R]. specialize (IH (S seen) R).
    destruct (JS.dropWhileEnd isHyphen r); [reflexivity|].
    cbn [runsWithin]. rewrite E, L. exact IH.
  - intros R. specialize (IH 0%nat R).
    destruct (JS.dropWhileEnd isHyphen r); cbn [runsWithin]; rewrite E; [reflexivity | exact IH].
Qed.

Lemma capRuns_fixed (limit : nat) (s : string) :
  forall seen, runsWithin limit seen s = true -> capRuns limit seen s = s.
Proof.
  induction s as [|c r IH]; intros seen; simpl; [auto|].
  destruct (isHyphen c).
  - rewrite andb_true_iff. intros [L R]. rewrite L. now rewrite (IH _ R).
  - intros R. now rewrite (IH _ R).
Qed.

Lemma capHyphens_capRuns (s : string) : forall seen, capHyphens seen s = capRuns 2 seen s.
Proof.
  induction s as [|c r IH]; intros seen; simpl; [reflexivity|].
  destruct (isHyphen c); [destruct (seen <? 2)%nat|]; now rewrite IH.
Qed.

(** *** Characters *)

Lemma isHyphen_eq (c : ascii) : isHyphen c = true -> c = "-"%char.
Proof. unfold isHyphen. apply Ascii.eqb_eq. Qed.

Lemma isCssChar_cases (c : ascii) :
  isCssChar c = true ->
  JS.isUpper c = false /\ JS.isSpace c = false
  /\ Ascii.eqb c "/" = false /\ Ascii.eqb c "." = false /\ Ascii.eqb c "," = false.
Proof.
  unfold isCssChar. rewrite !orb_true_iff. intros [[H|H]|H].
  - pose proof H as Hb. unfold JS.isLower in H. unfold JS.isUpper, JS.isSpace.
    apply andb_true_iff in H. destruct H as [H1 H2].
    apply Nat.leb_le in H1, H2.
    repeat split.
    + apply andb_false_iff. right. apply Nat.leb_gt. lia.
    + apply orb_false_iff. split; [apply andb_false_iff; right; apply Nat.leb_gt; lia|].
      apply Nat.eqb_neq. lia.
    + apply Ascii.eqb_neq. intros E. rewrite E in Hb. discriminate Hb.
    + apply Ascii.eqb_neq. intros E. rewrite E in Hb. discriminate Hb.
    + apply Ascii.eqb_neq. intros E. rewrite E in Hb. discriminate Hb.
  - pose proof H as Hb. unfold JS.isDigit in H. unfold JS.isUpper, JS.isSpace.
    apply andb_true_iff in H. destruct H as [H1 H2].
    apply Nat.leb_le in H1, H2.
    repeat split.
    + apply andb_false_iff. left. apply Nat.leb_gt. lia.
    + apply orb_false_iff. split; [apply andb_false_iff; right; apply Nat.leb_gt; lia|].
      apply Nat.eqb_neq. lia.
    + apply Ascii.eqb_neq. intros E. rewrite E in Hb. discriminate Hb.
    + apply Ascii.eqb_neq. intros E. rewrite E in Hb. discriminate Hb.
    + apply Ascii.eqb_neq. intros E. rewrite E in Hb. discriminate Hb.
  - apply isHyphen_eq in H. subst c. repeat split; reflexivity.
Qed.

Lemma mapChars_fixed (q : ascii -> bool) (f : ascii -> ascii) (s : string) :
  (forall c, q c = true -> f c = c) -> allChars q s = true -> JS.mapChars f s = s.
Proof.
  intros H. induction s as [|c r IH]; simpl; [auto|].
  rewrite andb_true_iff. intros [Hc Hr]. now rewrite (H c Hc), (IH Hr).
Qed.

Lemma collapseSpaces_fixed (s : string) :
  forall b, allChars isCssChar s = true -> collapseSpaces b s = s.
Proof.
  induction s as [|c r IH]; intros b; simpl; [auto|].
  rewrite andb_true_iff. intros [Hc Hr].
  destruct (isCssChar_cases c Hc) as (_ & -> & _). now rewrite (IH false Hr).
Qed.

End Slugs.

Section SlugShape.

Lemma slug_chars (s : string) : allChars isCssChar (slug s) = true.
Proof.
  unfold slug. apply allChars_dropWhileEnd, allChars_dropWhile.
  rewrite capHyphens_capRuns. apply allChars_capRuns, allChars_mapChars.
  intros c. unfold isCssChar.
  destruct (JS.isLower c || JS.isDigit c || isHyphen c) eqn:E; [exact E | reflexivity].
Qed.

Lemma trimmed_shape (limit : nat) (s : string) :
  allChars isCssChar s = true -> runsWithin limit 0 s = true ->
  isSlug limit (JS.dropWhileEnd isHyphen (JS.dropWhile isHyphen s)) = true.
Proof.
  intros Hc Hr. unfold isSlug. rewrite !andb_true_iff. repeat split.
  - now apply allChars_dropWhileEnd, allChars_dropWhile.
  - apply runsWithin_dropWhileEnd. now apply (runsWithin_dropWhile limit s 0).
  - pose proof (dropWhileEnd_head isHyphen _ (dropWhile_head isHyphen s)) as H.
    unfold startsWithHyphen.
    destruct (JS.dropWhileEnd isHyphen (JS.dropWhile isHyphen s)); [reflexivity | now rewrite H].
  - pose proof (dropWhileEnd_last isHyphen (JS.dropWhile isHyphen s)) as H.
    unfold endsWithHyphen.
    destruct (JS.lastChar _); [now rewrite H | reflexivity].
Qed.

Lemma trimmed_fixed (limit : nat) (s : string) :
  isSlug limit s = true -> JS.dropWhileEnd isHyphen (JS.dropWhile isHyphen s) = s.
Proof.
  unfold isSlug. rewrite !andb_true_iff, !negb_true_iff. intros [[[_ _] Hs] He].
  rewrite (dropWhile_fixed isHyphen s).
  - apply dropWhileEnd_fixed. unfold endsWithHyphen in He.
    destruct (JS.lastChar s); [exact He | exact I].
  - unfold startsWithHyphen in Hs. destruct s; [exact I | exact Hs].
Qed.

Lemma slug_fixed (s : string) : isSlug 2 s = true -> slug s = s.
Proof.
  intros H. pose proof H as H0. unfold isSlug in H0.
  rewrite !andb_true_iff in H0. destruct H0 as [[[Hc Hr] _] _].
  unfold slug.
  assert (E1 : JS.toLowerCase s = s).
  { unfold JS.toLowerCase. apply (mapChars_fixed isCssChar); [|exact Hc].
    intros c Hcc. unfold JS.lowerChar. now destruct (isCssChar_cases c Hcc) as (-> & _). }
  rewrite E1.
  assert (E2 : JS.mapChars (fun c => if Ascii.eqb c "/" || Ascii.eqb c "." || Ascii.eqb c ","
                                     then "-"%char else c) s = s).
  { apply (mapChars_fixed isCssChar); [|exact Hc].
    intros c Hcc. now destruct (isCssChar_cases c Hcc) as (_ & _ & -> & -> & ->). }
  rewrite E2, (collapseSpaces_fixed s false Hc).
  assert (E3 : JS.mapChars (fun c => if JS.isLower c || JS.isDigit c || isHyphen c
                                     then c else "-"%char) s = s).
  { apply (mapChars_fixed isCssChar); [|exact Hc].
    intros c Hcc. unfold isCssChar in Hcc. now rewrite Hcc. }
  rewrite E3, capHyphens_capRuns, (capRuns_fixed 2 s 0 Hr).
  now apply (trimmed_fixed 2).
Qed.

End SlugShape.

(** X13. The identifier body [generateCSSName] derives from a variable name
    consists of lower-case letters, digits and hyphens, has no run of three
    hyphens and neither starts nor ends with a hyphen; the bodies it can
    produce are exactly the strings it leaves unchanged, so deriving a body
    from a body changes nothing. *)
Theorem slug_normal_form :
  forall s, isSlug 2 (slug s) = true /\ (slug s = s <-> isSlug 2 s = true).
Proof.
  intros s.
  assert (N : forall t, isSlug 2 (slug t) = true).
  { intros t. unfold slug. apply trimmed_shape.
    - rewrite capHyphens_capRuns. apply allChars_capRuns, allChars_mapChars.
      intros c. unfold isCssChar.
      destruct (JS.isLower c || JS.isDigit c || isHyphen c) eqn:E; [exact E | reflexivity].
    - rewrite capHyphens_capRuns. apply runsWithin_capRuns. lia. }
  split; [apply N|]. split.
  - intros E. rewrite <- E. apply N.
  - apply slug_fixed.
Qed.

Section Names.

Lemma takeWhile_all (p : ascii -> bool) (s : string) : allChars p (JS.takeWhile p s) = true.
Proof.
  induction s as [|c r IH]; simpl; [reflexivity|].
  destruct (p c) eqn:E; simpl; [now rewrite E | reflexivity].
Qed.

Lemma lowerChar_alpha (c : ascii) : JS.isAlpha c = true -> JS.isLower (JS.lowerChar c) = true.
Proof.
  unfold JS.isAlpha, JS.lowerChar. destruct (JS.isUpper c) eqn:U; simpl; [intros _ | auto].
  unfold JS.isUpper in U. apply andb_true_iff in U. destruct U as [U1 U2].
  apply Nat.leb_le in U1, U2. unfold JS.isLower.
  rewrite nat_ascii_embedding by lia.
  apply andb_true_iff. split; apply Nat.leb_le; lia.
Qed.

Lemma toLowerCase_alpha (s : string) :
  allChars JS.isAlpha s = true -> allChars JS.isLower (JS.toLowerCase s) = true.
Proof.
  induction s as [|c r IH]; simpl; [auto|].
  rewrite andb_true_iff. intros [Hc Hr]. rewrite (lowerChar_alpha c Hc). exact (IH Hr).
Qed.

Lemma matchCollectionName_letters nm d l :
  matchCollectionName nm = Some (d, l) -> d = JS.takeWhile JS.isAlpha nm /\ d <> "".
Proof.
  unfold matchCollectionName.
  destruct (String.eqb (JS.takeWhile JS.isAlpha nm) "") eqn:E; [discriminate|].
  apply String.eqb_neq in E.
  destruct (JS.dropWhile JS.isSpace (JS.dropWhile JS.isAlpha nm)) as [|c rest]; [discriminate|].
  destruct (Ascii.eqb_spec c "-") as [->|N].
  - destruct (JS.dropWhile JS.isSpace rest) as [|b body].
    + destruct (JS.lastChar rest) as [x|]; [|discriminate].
      destruct (JS.isLineTerminator x); [discriminate|].
      intros H. injection H as <- _. now split.
    + destruct (JS.existsChar JS.isLineTerminator (String b body)); [discriminate|].
      intros H. injection H as <- _. now split.
  - intros H. exfalso.
    destruct c as [[] [] [] [] [] [] [] []]; try discriminate H. now apply N.
Qed.

(** The domain of a collection whose name has the shape the parser
    matches: a non-empty word of lower-case letters. *)
Lemma parseCollectionName_domain nm :
  matchCollectionName nm <> None ->
  allChars JS.isLower (domain (parseCollectionName nm)) = true
  /\ domain (parseCollectionName nm) <> "".
Proof.
  intros H. unfold parseCollectionName. cbn [domain].
  destruct (matchCollectionName nm) as [[d l]|] eqn:M; [|contradiction].
  destruct (matchCollectionName_letters nm d l M) as [-> Hne]. split.
  - apply toLowerCase_alpha, takeWhile_all.
  - destruct (JS.takeWhile JS.isAlpha nm); [contradiction | discriminate].
Qed.

End Names.

Lemma generateCSSName_alphabet varName dom lt :
  allChars isCssChar dom = true ->
  exists body, generateCSSName varName dom lt = "--" +:+ body
               /\ allChars isCssChar body = true.
Proof.
  intros Hd.
  assert (A : allChars isCssChar (dom +:+ "-" +:+ slug varName) = true)
    by (rewrite !allChars_app, Hd, slug_chars; reflexivity).
  unfold generateCSSName.
  destruct lt;
    repeat match goal with |- context [if ?b then _ else _] => destruct b end;
    eexists; (split; [reflexivity|]); first [exact A | apply slug_chars].
Qed.

(** X14. [generateCSSName] returns two hyphens followed by the identifier
    body, with or without the domain and a hyphen in front of it.  A
    mapping never takes the domain; a foundation or alias always ends up
    being the domain or starting with the domain and a hyphen; and over a
    domain of [[a-z0-9-]] characters the whole name stays in that
    alphabet. *)
Theorem generateCSSName_shape :
  forall varName dom lt,
    exists body,
      generateCSSName varName dom lt = "--" +:+ body
      /\ (body = slug varName \/ body = dom +:+ "-" +:+ slug varName)
      /\ (lt = Mappings -> body = slug varName)
      /\ (lt = Foundations \/ lt = Aliases \/ lt = AliasesExtended ->
          body = dom \/ JS.startsWith body (dom +:+ "-") = true)
      /\ (allChars isCssChar dom = true -> allChars isCssChar body = true).
Proof.
  intros varName dom lt.
  assert (P : forall body, body = slug varName \/ body = dom +:+ "-" +:+ slug varName ->
                           allChars isCssChar dom = true -> allChars isCssChar body = true).
  { intros body [->| ->] Hd; [apply slug_chars|].
    rewrite !allChars_app, Hd, slug_chars. reflexivity. }
  assert (S : JS.startsWith (dom +:+ "-" +:+ slug varName) (dom +:+ "-") = true).
  { rewrite <- append_assoc_s. apply startsWith_append. }
  unfold generateCSSName.
  destruct lt.
  - destruct (JS.startsWith (slug varName) (dom +:+ "-")) eqn:E1;
      [|destruct (String.eqb (slug varName) dom) eqn:E2]; cbn [negb andb].
    + exists (slug varName). repeat split; auto; discriminate.
    + exists (slug varName). apply String.eqb_eq in E2. repeat split; auto; discriminate.
    + exists (dom +:+ "-" +:+ slug varName). repeat split; auto; discriminate.
  - destruct (JS.startsWith (slug varName) (dom +:+ "-")) eqn:E1;
      [|destruct (String.eqb (slug varName) dom) eqn:E2]; cbn [negb andb].
    + exists (slug varName). repeat split; auto; discriminate.
    + exists (slug varName). apply String.eqb_eq in E2. repeat split; auto; discriminate.
    + exists (dom +:+ "-" +:+ slug varName). repeat split; auto; discriminate.
  - destruct (JS.startsWith (slug varName) (dom +:+ "-")) eqn:E1;
      [|destruct (String.eqb (slug varName) dom) eqn:E2]; cbn [negb andb].
    + exists (slug varName). repeat split; auto; discriminate.
    + exists (slug varName). apply String.eqb_eq in E2. repeat split; auto; discriminate.
    + exists (dom +:+ "-" +:+ slug varName). repeat split; auto; discriminate.
  - exists (slug varName). repeat split; auto;
      try discriminate; try (intros [H|[H|H]]; discriminate H).
  - destruct (negb (existsb _ commonDomains) && negb (JS.startsWith (slug varName) (dom +:+ "-"))).
    + exists (dom +:+ "-" +:+ slug varName). repeat split; auto;
        try discriminate; try (intros [H|[H|H]]; discriminate H).
    + exists (slug varName). repeat split; auto;
        try discriminate; try (intros [H|[H|H]]; discriminate H).
Qed.


(** X15. Every variable collected from a collection whose name has the
    "Domain - Layer" shape receives an emitted name made of two hyphens
    and characters of [[a-z0-9-]] only. *)
Theorem collected_cssName_alphabet :
  forall host v,
    In v (collectVariables host) ->
    matchCollectionName (collectionName v) <> None ->
    exists body, cssName v = "--" +:+ body /\ allChars isCssChar body = true.
Proof.
  intros host v Hv Hm.
  apply collectVariables_In in Hv. destruct Hv as (hc & hv & _ & ->).
  cbn [cssName collectionName collectVariable] in *.
  apply generateCSSName_alphabet.
  destruct (parseCollectionName_domain _ Hm) as [Hl _].
  apply (allChars_impl JS.isLower); [|exact Hl].
  intros c Hc. unfold isCssChar. now rewrite Hc.
Qed.

(** The first variable of [typoFoundations]. *)
Lemma collected_cssName_alphabet_witness :
  exists body, cssName (nth 0 (collectVariables [typoFoundations]) (namedVariable ""))
               = "--" +:+ body
               /\ allChars isCssChar body = true.
Proof.
  apply (collected_cssName_alphabet [typoFoundations]).
  - vm_compute. left. reflexivity.
  - vm_compute. discriminate.
Defined.

Section TextStyleNames.

Lemma allChars_skipChars (q : ascii -> bool) (s : string) :
  forall n, allChars q s = true -> allChars q (skipChars n s) = true.
Proof.
  induction s as [|c r IH]; intros [|n]; simpl; auto.
  rewrite andb_true_iff. intros [_ Hr]. now apply IH.
Qed.

Lemma stripStylePrefix_fixed (s : string) :
  allChars isCssChar s = true -> stripStylePrefix s = s.
Proof.
  intros H. unfold stripStylePrefix.
  destruct (find _ TEXT_STYLE_PREFIXES) as [p|]; [|reflexivity].
  pose proof (allChars_dropWhile isCssChar JS.isSpace _
                (allChars_skipChars isCssChar s (String.length p) H)) as A.
  destruct (JS.dropWhile JS.isSpace (skipChars (String.length p) s)) as [|c rest];
    [reflexivity|].
  simpl in A. apply andb_true_iff in A. destruct A as [Hc _].
  destruct (isCssChar_cases c Hc) as (_ & _ & Hs & _).
  destruct c as [[] [] [] [] [] [] [] []]; try reflexivity. discriminate Hs.
Qed.

Lemma textStyleName_fixed (s : string) : isSlug 1 s = true -> generateTextStyleName s = s.
Proof.
  intros H. pose proof H as H0. unfold isSlug in H0.
  rewrite !andb_true_iff in H0. destruct H0 as [[[Hc Hr] _] _].
  unfold generateTextStyleName. rewrite (stripStylePrefix_fixed s Hc).
  assert (E1 : JS.toLowerCase s = s).
  { unfold JS.toLowerCase. apply (mapChars_fixed isCssChar); [|exact Hc].
    intros c Hcc. unfold JS.lowerChar. now destruct (isCssChar_cases c Hcc) as (-> & _). }
  rewrite E1.
  assert (E2 : JS.mapChars (fun c => if Ascii.eqb c "/" then "-"%char else c) s = s).
  { apply (mapChars_fixed isCssChar); [|exact Hc].
    intros c Hcc. now destruct (isCssChar_cases c Hcc) as (_ & _ & -> & _). }
  rewrite E2, (collapseSpaces_fixed s false Hc).
  assert (E3 : JS.mapChars (fun c => if JS.isLower c || JS.isDigit c || isHyphen c
                                     then c else "-"%char) s = s).
  { apply (mapChars_fixed isCssChar); [|exact Hc].
    intros c Hcc. unfold isCssChar in Hcc. now rewrite Hcc. }
  rewrite E3, (capRuns_fixed 1 s 0 Hr).
  now apply (trimmed_fixed 1).
Qed.

End TextStyleNames.

(** X16. The name [generateTextStyleName] derives from a text style consists
    of lower-case letters, digits and single hyphens and neither starts
    nor ends with a hyphen; the names it can produce are exactly the
    strings it leaves unchanged. *)
Theorem textStyleName_normal_form :
  forall s, isSlug 1 (generateTextStyleName s) = true
            /\ (generateTextStyleName s = s <-> isSlug 1 s = true).
Proof.
  intros s.
  assert (N : forall t, isSlug 1 (generateTextStyleName t) = true).
  { intros t. unfold generateTextStyleName. apply trimmed_shape.
    - apply allChars_capRuns, allChars_mapChars.
      intros c. unfold isCssChar.
      destruct (JS.isLower c || JS.isDigit c || isHyphen c) eqn:E; [exact E | reflexivity].
    - apply runsWithin_capRuns. lia. }
  split; [apply N|]. split.
  - intros E. rewrite <- E. apply N.
  - apply textStyleName_fixed.
Qed.

(** ** Variable groups *)

Section Groups.

Lemma lastSlash_None (s : string) :
  lastSlash s = None <-> allChars (fun c => negb (Ascii.eqb c "/")) s = true.
Proof.
  induction s as [|c r IH]; simpl; [tauto|].
  destruct (lastSlash r) as [i|].
  - split; [discriminate|]. rewrite andb_true_iff. intros [_ H]. apply IH in H. discriminate.
  - destruct (Ascii.eqb c "/"); simpl.
    + split; discriminate.
    + split; [intros _; now apply IH | reflexivity].
Qed.

Lemma lastSlash_Some (s : string) :
  forall i, lastSlash s = Some i ->
            exists leaf, s = String.substring 0 i s +:+ "/" +:+ leaf
                         /\ allChars (fun c => negb (Ascii.eqb c "/")) leaf = true.
Proof.
  induction s as [|c r IH]; intros i; simpl; [discriminate|].
  destruct (lastSlash r) as [j|] eqn:L.
  - intros H. injection H as <-. destruct (IH j eq_refl) as (leaf & E & A).
    exists leaf. split; [|exact A]. simpl. rewrite append_cons. now rewrite <- E.
  - destruct (Ascii.eqb_spec c "/") as [->|N]; [|discriminate].
    intros H. injection H as <-. exists r. split.
    + simpl. now rewrite append_empty, append_cons, append_empty.
    + now apply lastSlash_None.
Qed.

End Groups.

(** X17. [getVariableGroup] splits a variable name at its last slash: a name
    without a slash has the empty group, and any other name is its group,
    a slash, and a last segment that holds no slash. *)
Theorem getVariableGroup_splits_at_last_slash :
  forall variableName,
    (allChars (fun c => negb (Ascii.eqb c "/")) variableName = true
     /\ getVariableGroup variableName = "")
    \/ (exists leaf,
          variableName = getVariableGroup variableName +:+ "/" +:+ leaf
          /\ allChars (fun c => negb (Ascii.eqb c "/")) leaf = true).
Proof.
  intros variableName. unfold getVariableGroup.
  destruct (lastSlash variableName) as [i|] eqn:L.
  - right. now apply lastSlash_Some.
  - left. split; [now apply lastSlash_None | reflexivity].
Qed.

(** ** Collection names *)

Section CollectionNames.

Lemma takeWhile_app (p : ascii -> bool) (d x : string) :
  allChars p d = true -> JS.takeWhile p (d +:+ x) = d +:+ JS.takeWhile p x.
Proof.
  induction d as [|c r IH]; rewrite ?append_empty, ?append_cons; simpl; [auto|].
  rewrite andb_true_iff. intros [Hc Hr]. rewrite Hc. now rewrite (IH Hr).
Qed.

Lemma dropWhile_app (p : ascii -> bool) (d x : string) :
  allChars p d = true -> JS.dropWhile p (d +:+ x) = JS.dropWhile p x.
Proof.
  induction d as [|c r IH]; rewrite ?append_empty, ?append_cons; simpl; [auto|].
  rewrite andb_true_iff. intros [Hc Hr]. rewrite Hc. exact (IH Hr).
Qed.

Lemma isSpace_not_alpha (c : ascii) : JS.isSpace c = true -> JS.isAlpha c = false.
Proof.
  unfold JS.isSpace, JS.isAlpha, JS.isUpper, JS.isLower.
  rewrite orb_true_iff, andb_true_iff, !Nat.leb_le, Nat.eqb_eq. intros H.
  apply orb_false_iff. split; apply andb_false_iff; left; apply Nat.leb_gt; lia.
Qed.

Lemma takeWhile_alpha_separator (sp y : string) :
  allChars JS.isSpace sp = true -> JS.takeWhile JS.isAlpha (sp +:+ String "-" y) = "".
Proof.
  destruct sp as [|c r]; rewrite ?append_empty, ?append_cons; simpl; [reflexivity|].
  rewrite andb_true_iff. intros [Hc _]. now rewrite (isSpace_not_alpha c Hc).
Qed.

Lemma dropWhile_alpha_separator (sp y : string) :
  allChars JS.isSpace sp = true ->
  JS.dropWhile JS.isAlpha (sp +:+ String "-" y) = sp +:+ String "-" y.
Proof.
  destruct sp as [|c r]; rewrite ?append_empty, ?append_cons; simpl; [reflexivity|].
  rewrite andb_true_iff. intros [Hc _]. now rewrite (isSpace_not_alpha c Hc).
Qed.

Lemma existsChar_dropWhile (q p : ascii -> bool) (s : string) :
  JS.existsChar q s = false -> JS.existsChar q (JS.dropWhile p s) = false.
Proof.
  induction s as [|c r IH]; simpl; [auto|].
  rewrite orb_false_iff. intros [Hc Hr].
  destruct (p c); [auto|]. simpl. now rewrite Hc, Hr.
Qed.

Lemma trim_dropWhile (s : string) : JS.trim (JS.dropWhile JS.isSpace s) = JS.trim s.
Proof.
  unfold JS.trim. now rewrite (dropWhile_fixed JS.isSpace _ (dropWhile_head JS.isSpace s)).
Qed.

End CollectionNames.

(** X18. A collection name made of a word of letters, a hyphen with any
    white space around it, and a layer text with no line break and some
    visible character parses into the lower-cased word as domain and the
    trimmed text as layer. *)
Theorem parseCollectionName_round_trip :
  forall D sp1 sp2 L,
    D <> "" -> allChars JS.isAlpha D = true ->
    allChars JS.isSpace sp1 = true -> allChars JS.isSpace sp2 = true ->
    JS.existsChar JS.isLineTerminator L = false -> JS.trim L <> "" ->
    domain (parseCollectionName (D +:+ sp1 +:+ "-" +:+ sp2 +:+ L)) = JS.toLowerCase D
    /\ layer (parseCollectionName (D +:+ sp1 +:+ "-" +:+ sp2 +:+ L)) = JS.trim L.
Proof.
  intros D sp1 sp2 L HD HA H1 H2 HL HT.
  assert (M : matchCollectionName (D +:+ sp1 +:+ "-" +:+ sp2 +:+ L)
              = Some (D, JS.dropWhile JS.isSpace L)).
  { unfold matchCollectionName. rewrite append_cons, append_empty.
    rewrite (takeWhile_app _ D _ HA), (dropWhile_app _ D _ HA).
    rewrite (takeWhile_alpha_separator sp1 _ H1), (dropWhile_alpha_separator sp1 _ H1).
    rewrite append_nil_r, (dropWhile_app _ sp1 _ H1).
    destruct (String.eqb_spec D "") as [E|_]; [contradiction|].
    assert (E : JS.dropWhile JS.isSpace (String "-" (sp2 +:+ L)) = String "-" (sp2 +:+ L))
      by reflexivity.
    rewrite E. cbv iota beta.
    rewrite (dropWhile_app _ sp2 _ H2).
    pose proof (existsChar_dropWhile _ JS.isSpace L HL) as HE.
    destruct (JS.dropWhile JS.isSpace L) as [|b body] eqn:B.
    - exfalso. apply HT. unfold JS.trim. now rewrite B.
    - cbv iota beta. now rewrite HE. }
  unfold parseCollectionName. rewrite M. cbn [domain layer].
  split; [reflexivity | apply trim_dropWhile].
Qed.

(** The name of [typoFoundations]. *)
Lemma parseCollectionName_round_trip_witness :
  domain (parseCollectionName "Typo - 1. Foundations") = "typo"
  /\ layer (parseCollectionName "Typo - 1. Foundations") = "1. Foundations".
Proof.
  apply (parseCollectionName_round_trip "Typo" " " " " "1. Foundations");
    try reflexivity; discriminate.
Defined.

(** ** Collection order *)

(** X8. When the names of the local collections that own variables follow
    the pattern [Domain - Layer], the domains [generateCSSOutput] compares
    are non-empty words of lower-case letters, which [localeCompare] puts in
    alphabetical order.  The collections are then emitted in ascending order
    of domain and, within a domain, of the rank the comparator derives from
    the collection name: the emitted list is a permutation of the kept
    collections, every collection compares less than or equal to all
    collections after it, and collections that tie keep the order the host
    lists them in. *)
Theorem collections_sorted_by_domain_then_rank :
  forall (groups : gmap string (list VariableInfo)) collections,
    Forall (fun c => matchCollectionName (c_name c) <> None)
           (keptCollections groups collections) ->
    Forall (fun c => allChars JS.isLower (domain (parseCollectionName (c_name c))) = true
                     /\ domain (parseCollectionName (c_name c)) <> "")
           (sortCollections groups collections)
    /\ Permutation (sortCollections groups collections) (keptCollections groups collections)
    /\ StronglySorted (fun a b => (compareCollections a b <= 0)%Z)
                      (sortCollections groups collections)
    /\ forall c, List.filter (fun d => (compareCollections c d =? 0)%Z)
                             (sortCollections groups collections)
                 = List.filter (fun d => (compareCollections c d =? 0)%Z)
                               (keptCollections groups collections).
Proof.
  intros groups collections Hnames. unfold sortCollections.
  fold (keptCollections groups collections).
  assert (P : Permutation (JS.sortBy (fun a b => (compareCollections a b <=? 0)%Z)
                                     (keptCollections groups collections))
                          (keptCollections groups collections)) by apply sortBy_perm.
  split; [|split; [exact P|split]].
  - eapply Permutation_Forall; [symmetry; exact P|].
    eapply Forall_impl; [exact Hnames|].
    intros c Hc. now apply parseCollectionName_domain.
  - eapply StronglySorted_impl; [|apply sortBy_sorted].
    + intros a b H. apply Z.leb_le, H.
    + intros a b. rewrite !Z.leb_le. apply compareCollections_total.
    + intros a b c. rewrite !Z.leb_le. apply compareCollections_trans.
  - intros c. apply sortBy_filter.
    intros x y _ _ Hx Hy. apply Z.eqb_eq in Hx, Hy. apply Z.leb_le.
    now apply (compareCollections_tie c).
Qed.

(** Three collections the host lists as Typo, Color aliases, Color
    foundations. *)
Lemma collections_sorted_by_domain_then_rank_witness :
  map c_name
      (sortCollections
         (groupByCollection (resolvedGraph [typoFoundations; colorAliases; colorFoundations]))
         (map hc_collection [typoFoundations; colorAliases; colorFoundations]))
  = ["Color - 1. Foundations"; "Color - 2. Aliases"; "Typo - 1. Foundations"]
  /\ StronglySorted (fun a b => (compareCollections a b <= 0)%Z)
       (sortCollections
          (groupByCollection (resolvedGraph [typoFoundations; colorAliases; colorFoundations]))
          (map hc_collection [typoFoundations; colorAliases; colorFoundations])).
Proof.
  split; [vm_compute; reflexivity|].
  apply (collections_sorted_by_domain_then_rank
           (groupByCollection (resolvedGraph [typoFoundations; colorAliases; colorFoundations]))
           (map hc_collection [typoFoundations; colorAliases; colorFoundations])).
  replace (keptCollections _ _)
    with (map hc_collection [typoFoundations; colorAliases; colorFoundations])
    by (vm_compute; reflexivity).
  repeat constructor; vm_compute; discriminate.
Defined.

(** ** Non-linear deviation *)

Section DeviationFacts.

(** What [getNonLinearDeviation] records for a mode. *)
Let recorded (v : VariableInfo) (m : BpMode) (mv : ModeValue) : Prop :=
  resolvedAt v (bm_modeId m) = RNum (mv_value mv)
  /\ mv_name mv = bm_name m
  /\ mv_breakpointPx mv = bm_breakpointPx m.

Lemma collectModeValues_cons variable m rest vals :
  collectModeValues variable (m :: rest) = Some vals ->
  exists x tl, vals = {| mv_name := bm_name m; mv_value := x;
                         mv_breakpointPx := bm_breakpointPx m |} :: tl
               /\ resolvedAt variable (bm_modeId m) = RNum x
               /\ (forall val, lookupMode (valuesByMode variable) (bm_modeId m) = Some val ->
                               pv_isAlias val = false)
               /\ collectModeValues variable rest = Some tl.
Proof.
  simpl. unfold resolvedAt.
  destruct (lookupMode (valuesByMode variable) (bm_modeId m)) as [val|]; [|discriminate].
  destruct (pv_isAlias val) eqn:A; [discriminate|].
  destruct (resolved val) as [|x|]; try discriminate.
  destruct (collectModeValues variable rest) as [tl|]; [|discriminate].
  rewrite bind_Some. intros H. injection H as <-. exists x, tl.
  repeat split. intros val' [= <-]. exact A.
Qed.

Lemma collectModeValues_recorded variable modes :
  forall vals,
    collectModeValues variable modes = Some vals ->
    Forall2 (recorded variable) modes vals /\ noAliasInAnyMode variable modes.
Proof.
  induction modes as [|m rest IH]; intros vals H.
  - injection H as <-. split; [constructor|]. intros m v [].
  - apply collectModeValues_cons in H. destruct H as (x & tl & -> & R & A & C).
    destruct (IH tl C) as [F N]. split.
    + constructor; [|exact F]. now repeat split.
    + intros m' v [<-|Hin] L; [now apply A | now apply (N m')].
Qed.

Lemma collectModeValues_returns variable modes :
  Forall (fun m => exists val x,
              lookupMode (valuesByMode variable) (bm_modeId m) = Some val
              /\ pv_isAlias val = false /\ resolved val = RNum x) modes ->
  exists vals, collectModeValues variable modes = Some vals.
Proof.
  induction 1 as [|m rest (val & x & L & A & R) _ [tl IH]]; [now eexists|].
  simpl. rewrite L, A, R, IH. rewrite bind_Some. now eexists.
Qed.

Lemma recorded_value variable modes vals m x :
  Forall2 (recorded variable) modes vals ->
  In m modes -> resolvedAt variable (bm_modeId m) = RNum x ->
  exists mv, In mv vals /\ mv_value mv = x.
Proof.
  induction 1 as [|m' mv ms mvs (R & _) _ IH]; intros Hin Hx; [destruct Hin|].
  destruct Hin as [->|Hin].
  - exists mv. split; [now left|]. rewrite Hx in R. now injection R.
  - destruct (IH Hin Hx) as (mv' & I & E). exists mv'. split; [now right | exact E].
Qed.

End DeviationFacts.

(** X19. [getNonLinearDeviation] returns a result exactly for a FLOAT
    variable that holds, in each of at least two modes, a number that is
    not an alias, one of which after the first differs from the first.  The
    result lists one value per mode, with the mode's name and width, and
    for four modes its desktop, laptop, tablet and mobile values are the
    variable's numbers in those modes.  The expected values and the
    deviations are binary64 results: for 210, 160, 63 and 0 at 1680, 1366,
    840 and 480 pixels the expected tablet value is 62.99999999999999 and
    the tablet deviation is not zero, although 63 lies on the straight line
    between the extreme modes. *)
Theorem deviation_reports_mode_values :
  (forall v modes d,
      getNonLinearDeviation v modes = Some d ->
      resolvedType v = FLOAT
      /\ (2 <= length modes)%nat
      /\ noAliasInAnyMode v modes
      /\ Forall2 (fun m mv => resolvedAt v (bm_modeId m) = RNum (mv_value mv)
                              /\ mv_name mv = bm_name m
                              /\ mv_breakpointPx mv = bm_breakpointPx m)
                 modes (modeValues d)
      /\ existsb (fun mv => negb (JS.strictEq (mv_value mv) (desktopVal d)))
                 (tail (modeValues d)) = true)
  /\ (forall v m0 m1 m2 m3 d,
        getNonLinearDeviation v [m0; m1; m2; m3] = Some d ->
        resolvedAt v (bm_modeId m0) = RNum (desktopVal d)
        /\ resolvedAt v (bm_modeId m1) = RNum (laptopVal d)
        /\ resolvedAt v (bm_modeId m2) = RNum (tabletVal d)
        /\ resolvedAt v (bm_modeId m3) = RNum (mobileVal d))
  /\ (forall v m0 modes x0,
        resolvedType v = FLOAT ->
        Forall (fun m => exists val x,
                    lookupMode (valuesByMode v) (bm_modeId m) = Some val
                    /\ pv_isAlias val = false /\ resolved val = RNum x) (m0 :: modes) ->
        resolvedAt v (bm_modeId m0) = RNum x0 ->
        (exists m x, In m modes /\ resolvedAt v (bm_modeId m) = RNum x
                     /\ JS.strictEq x x0 = false) ->
        exists d, getNonLinearDeviation v (m0 :: modes) = Some d)
  /\ (exists d,
        getNonLinearDeviation rampVariable
          [layoutMode 0; layoutMode 1; layoutMode 2; layoutMode 3] = Some d
        /\ JS.numToString (tabletVal d) = "63"
        /\ JS.numToString (tabletExpected d) = "62.99999999999999"
        /\ JS.numToString (deviationT d) = "3.3835368369528583e-17").
Proof.
  split; [|split; [|split]].
  - intros v modes d H. unfold getNonLinearDeviation in H.
    destruct (length modes <? 2)%nat eqn:L; [discriminate|].
    apply Nat.ltb_ge in L.
    destruct (bool_decide (resolvedType v = FLOAT)) eqn:T; [|discriminate].
    apply bool_decide_eq_true_1 in T. cbn [negb] in H.
    destruct (collectModeValues v modes) as [[|first rest]|] eqn:C; try discriminate.
    destruct (collectModeValues_recorded _ _ _ C) as [F N].
    destruct (forallb _ rest) eqn:A; [discriminate|].
    match type of H with
    | (match ?E with _ => _ end) = _ => destruct E as [[[devL devT] lExp] tExp]
    end.
    apply (inj Some) in H. subst d. cbn [modeValues desktopVal tail].
    split; [exact T|]. split; [exact L|]. split; [exact N|]. split; [exact F|].
    clear -A. induction rest as [|a l IH]; [discriminate A|].
    cbn [existsb forallb] in *.
    destruct (JS.strictEq (mv_value a) (mv_value first)); [apply IH, A | reflexivity].
  - intros v m0 m1 m2 m3 d H. unfold getNonLinearDeviation in H.
    cbn [length Nat.ltb Nat.leb] in H.
    destruct (negb (bool_decide (resolvedType v = FLOAT))); [discriminate|].
    destruct (collectModeValues v [m0; m1; m2; m3]) as [vals|] eqn:C; [|discriminate].
    apply collectModeValues_cons in C. destruct C as (x0 & t0 & -> & R0 & _ & C).
    apply collectModeValues_cons in C. destruct C as (x1 & t1 & -> & R1 & _ & C).
    apply collectModeValues_cons in C. destruct C as (x2 & t2 & -> & R2 & _ & C).
    apply collectModeValues_cons in C. destruct C as (x3 & t3 & -> & R3 & _ & C).
    simpl in C. injection C as <-.
    destruct (forallb _ _); [discriminate|].
    match type of H with
    | (match ?E with _ => _ end) = _ => destruct E as [[[devL devT] lExp] tExp]
    end.
    apply (inj Some) in H. subst d. now repeat split.
  - intros v m0 modes x0 T F R0 (m & x & Hin & Rm & Hne).
    unfold getNonLinearDeviation.
    destruct modes as [|m1 modes]; [destruct Hin|].
    cbn [length Nat.ltb Nat.leb]. rewrite T. rewrite bool_decide_eq_true_2 by reflexivity.
    cbn [negb].
    destruct (collectModeValues_returns _ _ F) as [vals C]. rewrite C.
    destruct (collectModeValues_recorded _ _ _ C) as [F2 _].
    inversion F2 as [|m0' first ms rest (Rf & _) Frest]; subst.
    rewrite R0 in Rf. injection Rf as Rf.
    destruct (recorded_value _ _ _ m x Frest Hin Rm) as (mv & Imv & Emv).
    assert (A : forallb (fun mv => JS.strictEq (mv_value mv) (mv_value first)) rest = false).
    { apply not_true_is_false. intros A. rewrite forallb_forall in A.
      specialize (A mv Imv). rewrite Emv, <- Rf, Hne in A. discriminate A. }
    rewrite A.
    match goal with
    | |- exists d, (match ?E with _ => _ end) = _ => destruct E as [[[devL devT] lExp] tExp]
    end.
    now eexists.
  - eexists. split; [vm_compute; reflexivity|]. repeat split; vm_compute; reflexivity.
Qed.

(** The gutter of [layoutFoundations]: 32, 28, 20 and 16. *)
Lemma deviation_reports_mode_values_witness :
  exists d,
    getNonLinearDeviation gutterVariable [layoutMode 0; layoutMode 1; layoutMode 2; layoutMode 3]
    = Some d
    /\ resolvedType gutterVariable = FLOAT
    /\ map mv_name (modeValues d) = ["Desktop"; "Laptop"; "Tablet"; "Mobile"]
    /\ JS.numToString (tabletExpected d) = "20.8".
Proof.
  destruct (getNonLinearDeviation gutterVariable
              [layoutMode 0; layoutMode 1; layoutMode 2; layoutMode 3]) as [d|] eqn:E.
  - exists d. split; [reflexivity|].
    destruct (proj1 deviation_reports_mode_values gutterVariable _ d E) as (T & _).
    split; [exact T|].
    vm_compute in E. apply (inj Some) in E. subst d. split; vm_compute; reflexivity.
  - vm_compute in E. discriminate E.
Defined.

(** ** Hexadecimal colours *)

Section HexColours.






End HexColours.



(** ** Clamp segments *)

(** X21. The clamp [generatePiecewiseClampValue] prints for a segment
    depends on the direction it is asked for, which the desktop-first and
    the mobile-first branch of the fluid emitter choose differently: between
    0 at the 840px mode and 24.375 at the 480px mode the intercept
    [toValue - slope * toVP] is 56.875 up to the binary64 rounding of the
    slope, and rounds to 56.88 from the wider mode and to 56.87 from the
    narrower one. *)
Theorem piecewise_segment_depends_on_direction :
  insetMode 1 = {| bm_modeId := "72:1"; bm_name := "Tablet"; bm_breakpointPx := 840 |}
  /\ insetMode 2 = {| bm_modeId := "72:2"; bm_name := "Mobile"; bm_breakpointPx := 480 |}
  /\ resolvedAt insetVariable "72:1" = RNum 0
  /\ resolvedAt insetVariable "72:2" = RNum 24.375
  /\ generatePiecewiseClampValue (insetMode 1) (insetMode 2) insetVariable
     = "clamp(0px, calc(56.88px + -6.7708vw), 24.38px)"
  /\ generatePiecewiseClampValue (insetMode 2) (insetMode 1) insetVariable
     = "clamp(0px, calc(56.87px + -6.7708vw), 24.38px)".
Proof. repeat split; vm_compute; reflexivity. Qed.

(** ** Rounding *)

(** X11. [round] is [Math.round(value * 10^decimals) / 10^decimals] in
    binary64.  It leaves 25.6 alone and takes 23.040000000000003 to 23.04;
    a tie goes up, 0.625 to 0.63 and -0.625 to -0.62; 1.005 goes to 1,
    since the product 100.49999999999999 is below the tie; [NaN] and the
    infinities pass through; and rounding a rounded value again can change
    it. *)
Theorem round_binary64_cases :
  JS.round 25.6 2 = 25.6%float
  /\ JS.round 23.040000000000003 2 = 23.04%float
  /\ JS.round 0.625 2 = 0.63%float
  /\ JS.round (-0.625) 2 = (-0.62)%float
  /\ (1.005 * 100 = 100.49999999999999)%float
  /\ JS.round 1.005 2 = 1%float
  /\ JS.numToString (JS.round nan 2) = "NaN"
  /\ JS.numToString (JS.round infinity 2) = "Infinity"
  /\ JS.numToString (JS.round 40299985598774.336 2) = "40299985598774.34"
  /\ JS.numToString (JS.round (JS.round 40299985598774.336 2) 2) = "40299985598774.35".
Proof. repeat split; vm_compute; reflexivity. Qed.

(** ** Mode order *)

Section ModeOrder.

Lemma existsb_perm {A} (f : A -> bool) (l l' : list A) :
  Permutation l l' -> existsb f l = existsb f l'.
Proof.
  intros P.
  destruct (existsb f l) eqn:E; symmetry.
  - apply existsb_exists in E. destruct E as (x & Hx & Hf).
    apply existsb_exists. exists x. split; [|exact Hf]. now apply (Permutation_in _ P).
  - destruct (existsb f l') eqn:E'; [|reflexivity].
    apply existsb_exists in E'. destruct E' as (x & Hx & Hf).
    assert (T : existsb f l = true).
    { apply existsb_exists. exists x. split; [|exact Hf].
      apply (Permutation_in _ (Permutation_sym P)), Hx. }
    congruence.
Qed.

Lemma StronglySorted_head_last {A} (R : A -> A -> Prop) (l : list A) (h t : A) :
  StronglySorted R l -> (forall x, R x x) -> head l = Some h -> last l = Some t ->
  forall x, In x l -> R h x /\ R x t.
Proof.
  intros S Rrefl. revert h. induction S as [|a l S IH F]; intros h Hh Ht x Hx; [destruct Hx|].
  simpl in Hh. injection Hh as <-.
  rewrite List.Forall_forall in F.
  destruct l as [|b l'].
  - simpl in Ht. injection Ht as <-. destruct Hx as [<-|[]]. now split.
  - assert (Ht' : last (b :: l') = Some t) by exact Ht.
    assert (Tin : In t (b :: l')) by (now apply last_In).
    destruct Hx as [<-|Hx].
    + split; [apply Rrefl | apply F, Tin].
    + split; [apply F, Hx|]. exact (proj2 (IH b eq_refl Ht' x Hx)).
Qed.

End ModeOrder.

(** X22. The classification of a collection does not depend on the order
    in which its modes are listed. *)
Theorem detectModeType_order_independent :
  forall modes modes', Permutation modes modes' -> detectModeType modes = detectModeType modes'.
Proof.
  intros modes modes' P. unfold detectModeType.
  rewrite (Permutation_length P).
  rewrite (existsb_perm (fun m => isNone (breakpointPx m)) _ _ P).
  now rewrite (existsb_perm _ modes modes' P).
Qed.

(** The modes of [typoFoundations], swapped. *)
Lemma detectModeType_order_independent_witness :
  detectModeType (modeInfosOf BREAKPOINT_MODES
                    [ {| m_modeId := "1:1"; m_name := "Mobile" |};
                      {| m_modeId := "1:0"; m_name := "Desktop" |} ])
  = detectModeType (modeInfosOf BREAKPOINT_MODES (c_modes (hc_collection typoFoundations))).
Proof.
  apply detectModeType_order_independent. apply perm_swap.
Defined.

(** X23. Whatever the order of the collection's modes, the fluid emitter
    interpolates between the widest and the narrowest of them: the first
    of the sorted modes is at least as wide, and the last at most as wide,
    as every mode of the collection. *)
Theorem fluid_extremes_are_widest_and_narrowest :
  forall bp collection widest narrowest,
    head (sortedBreakpointModes bp collection) = Some widest ->
    last (sortedBreakpointModes bp collection) = Some narrowest ->
    forall m, In m (breakpointModesOf bp collection) ->
              (bm_breakpointPx narrowest <= bm_breakpointPx m <= bm_breakpointPx widest)%Z.
Proof.
  intros bp collection widest narrowest Hh Hl m Hm.
  destruct (sortedBreakpointModes_sorted bp collection) as (P & S).
  destruct (StronglySorted_head_last _ _ widest narrowest S (fun x => Z.le_refl _) Hh Hl m)
    as [H1 H2].
  - apply (Permutation_in _ (Permutation_sym P)), Hm.
  - lia.
Qed.

(** ** Variables without mode variance in fluid output *)

Section FluidConstant.

Variables (modes : list BpMode) (options : ExportOptions) (v : VariableInfo).

Hypothesis constant : hasModeVariance v modes options = Some false.

Lemma constant_needsMediaQueries : needsMediaQueries v modes options = Some false.
Proof. unfold needsMediaQueries. now rewrite constant. Qed.

Lemma constant_isPiecewiseVar : isPiecewiseVar modes options v = Some false.
Proof.
  unfold isPiecewiseVar. rewrite constant.
  now destruct (shouldUsePiecewiseClamp v options && negb (shouldUseProportion v options)
                && negb (shouldUseViewportRelative v options)).
Qed.

Lemma constant_hasFallback : hasFallback modes options v = Some false.
Proof. unfold hasFallback. now rewrite constant. Qed.

Lemma constant_piecewiseBlocks b : piecewiseBlocks b modes options [v] = Some [].
Proof.
  unfold piecewiseBlocks. destruct (nonLinearOverrides options) as [[|o r]|]; try reflexivity.
  cbn [filterM]. now rewrite constant_isPiecewiseVar.
Qed.

Lemma constant_fallbackBlocks b : fallbackBlocks b modes options [v] = Some [].
Proof.
  unfold fallbackBlocks. destruct (includeLegacyFallbacks options); [|reflexivity].
  cbn [filterM]. now rewrite constant_hasFallback.
Qed.

End FluidConstant.

(** X24. For a collection whose only variable passes the gate and prints
    the same text in every mode, the whole output of the fluid emitter is
    the default block with one plain declaration: no clamp, no media
    query, no piecewise segment and no fallback block. *)
Theorem fluid_constant_variable_plain :
  forall modes options st v largest defaultMode gateValue value css,
    head modes = Some largest ->
    (match breakpointDirection options with
     | MobileFirst => last modes
     | DesktopFirst => head modes
     end) = Some defaultMode ->
    lookupMode (valuesByMode v) (bm_modeId largest) = Some gateValue ->
    shouldSkipVariable v gateValue st = false ->
    hasModeVariance v modes options = Some false ->
    lookupMode (valuesByMode v) (bm_modeId defaultMode) = Some value ->
    formatCSSValue value v options = Some css ->
    generateFluidCSS modes [v] options st
    = Some ([":root {"] ++ idComment options v ++ [decl "  " v css] ++ ["}"],
            addName st (cssName v)).
Proof.
  intros modes options st v largest defaultMode gateValue value css
         Hh Hd Hg Hs Hc Hl Hf.
  unfold generateFluidCSS. rewrite Hh.
  assert (D : (if match breakpointDirection options with MobileFirst => false | _ => true end
               then Some largest else last modes) = Some defaultMode).
  { destruct (breakpointDirection options); [exact Hd | congruence]. }
  rewrite D, !bind_Some.
  cbn [partitionVars]. rewrite Hg, Hs, (constant_needsMediaQueries modes options v Hc).
  rewrite !bind_Some.
  cbn [runLoopM]. unfold clampableStep. rewrite Hl, bind_Some, Hf, Hc.
  rewrite !bind_Some. cbn [andb]. rewrite !bind_Some.
  rewrite (constant_piecewiseBlocks modes options v Hc), bind_Some.
  rewrite (constant_fallbackBlocks modes options v Hc), bind_Some.
  unfold mediaQueryBlocks. rewrite !app_nil_r. now rewrite <- !app_assoc.
Qed.

(** The radius of [shapeFoundations]. *)
Lemma fluid_constant_variable_plain_witness :
  generateFluidCSS [ {| bm_modeId := "80:0"; bm_name := "Desktop"; bm_breakpointPx := 1680 |};
                     {| bm_modeId := "80:1"; bm_name := "Mobile"; bm_breakpointPx := 480 |} ]
                   [radiusVariable] (exampleOptions Fluid Both) emptyState
  = Some ([":root {"; "  --shape-radius-base: 4px;"; "}"],
          addName emptyState "--shape-radius-base").
Proof.
  apply (fluid_constant_variable_plain
           [ {| bm_modeId := "80:0"; bm_name := "Desktop"; bm_breakpointPx := 1680 |};
             {| bm_modeId := "80:1"; bm_name := "Mobile"; bm_breakpointPx := 480 |} ]
           (exampleOptions Fluid Both) emptyState radiusVariable
           {| bm_modeId := "80:0"; bm_name := "Desktop"; bm_breakpointPx := 1680 |}
           {| bm_modeId := "80:0"; bm_name := "Desktop"; bm_breakpointPx := 1680 |}
           (literal (RNum 4)) (literal (RNum 4)) "4px");
    vm_compute; reflexivity.
Defined.

(** ** Media queries of the fixed emitter *)

Section SteppedQueries.

Lemma space_not_media (l : string) : JS.startsWith l " " = true -> isMediaQuery l = false.
Proof.
  unfold JS.startsWith, isMediaQuery, JS.startsWith. destruct l as [|c l]; [discriminate|].
  rewrite !prefix_cons, prefix_empty.
  destruct (ascii_dec " " c) as [<-|N]; [reflexivity | discriminate].
Qed.

Lemma indented_no_media (i : string) (ls : list string) :
  Forall (fun l => JS.startsWith l (String " " i) = true) ls -> List.filter isMediaQuery ls = [].
Proof.
  induction 1 as [|l ls Hl _ IH]; [reflexivity|]. simpl.
  now rewrite (space_not_media l (indented_space i l Hl)), IH.
Qed.

Variable options : ExportOptions.

Lemma steppedRootStep_indented mid (v : VariableInfo) (st : EmitState) :
  Forall (fun l => JS.startsWith l "  " = true) (fst (steppedRootStep options mid v st)).
Proof.
  unfold steppedRootStep.
  destruct (lookupMode (valuesByMode v) mid) as [value|]; [|constructor].
  destruct (shouldSkipVariable v value st); [constructor|].
  assert (I : Forall (fun l => JS.startsWith l "  " = true) (idComment options v)).
  { unfold idComment. destruct (includeIds options); constructor; [|constructor].
    apply (startsWith_append "  "). }
  destruct (getProportionColumnCount v) as [n|].
  - cbn [fst]. apply Forall_app_intro; [exact I|]. unfold proportionLines.
    repeat constructor; apply (startsWith_append "  ").
  - destruct (formatCSSValue value v options); [|constructor]. cbn [fst].
    apply Forall_app_intro; [exact I|]. constructor; [|constructor].
    unfold decl. apply startsWith_append.
Qed.

Lemma runLoop_steppedRootStep_indented mid (l : list VariableInfo) :
  forall st, Forall (fun l => JS.startsWith l "  " = true)
                    (fst (runLoop (steppedRootStep options mid) l st)).
Proof.
  induction l as [|a l IH]; intros st; [constructor|].
  rewrite runLoop_cons. cbn [fst]. apply Forall_app_intro.
  - apply steppedRootStep_indented.
  - apply IH.
Qed.

Lemma steppedRedeclare_no_media mid st (variables : list VariableInfo) :
  List.filter isMediaQuery (flat_map (steppedRedeclare options mid st) variables) = [].
Proof.
  apply (indented_no_media "   ").
  induction variables as [|a l IH]; simpl; [constructor|].
  apply Forall_app_intro; [|exact IH].
  unfold steppedRedeclare. destruct (shouldUseProportion a options); [constructor|].
  apply redeclare_indented.
Qed.

Lemma stepped_block_query (q : string) mid st (variables : list VariableInfo) :
  isMediaQuery q = true ->
  List.filter isMediaQuery
    ("" :: q :: "  :root {"
        :: flat_map (steppedRedeclare options mid st) variables ++ ["  }"; "}"])
  = [q].
Proof.
  intros Hq. cbn [List.filter]. rewrite Hq.
  change (isMediaQuery "") with false. change (isMediaQuery "  :root {") with false.
  cbv iota. now rewrite List.filter_app, steppedRedeclare_no_media.
Qed.

Lemma maxWidthQuery_media (m : BpMode) : isMediaQuery (maxWidthQuery m) = true.
Proof. unfold maxWidthQuery. rewrite !append_cons. reflexivity. Qed.

Lemma minWidthQuery_media (m : BpMode) : isMediaQuery (minWidthQuery m) = true.
Proof. unfold minWidthQuery. rewrite !append_cons. reflexivity. Qed.

End SteppedQueries.

(** X25. Fixed output holds one media query per breakpoint transition,
    whether or not the block declares anything: desktop-first, a
    [max-width] query one pixel below each mode that has a narrower
    neighbour, from the widest down; mobile-first, a [min-width] query at
    each mode but the narrowest, from the narrowest up. *)
Theorem stepped_one_query_per_transition :
  forall modes variables options st lines st',
    generateSteppedCSS modes variables options st = Some (lines, st') ->
    List.filter isMediaQuery lines
    = match breakpointDirection options with
      | MobileFirst => map minWidthQuery (ascendingTail modes)
      | DesktopFirst => map (fun pair => maxWidthQuery (fst pair)) (adjacentPairs modes)
      end.
Proof.
  intros modes variables options st lines st' H. unfold generateSteppedCSS in H.
  destruct (breakpointDirection options).
  - destruct (last modes) as [dm|]; [|discriminate]. rewrite bind_Some in H.
    pose proof (runLoop_steppedRootStep_indented options (bm_modeId dm) variables st) as B.
    destruct (runLoop _ variables st) as [body st1]. cbn [fst] in B.
    injection H as <- <-.
    cbn [List.filter]. change (isMediaQuery ":root {") with false. cbv iota.
    rewrite List.filter_app, (indented_no_media " " body B). cbn [List.filter app].
    change (isMediaQuery "}") with false. cbv iota.
    induction (ascendingTail modes) as [|m l IH]; [reflexivity|].
    cbn [flat_map map]. rewrite List.filter_app, IH.
    now rewrite (stepped_block_query options _ _ _ _ (minWidthQuery_media m)).
  - destruct (head modes) as [dm|]; [|discriminate]. rewrite bind_Some in H.
    pose proof (runLoop_steppedRootStep_indented options (bm_modeId dm) variables st) as B.
    destruct (runLoop _ variables st) as [body st1]. cbn [fst] in B.
    injection H as <- <-.
    cbn [List.filter]. change (isMediaQuery ":root {") with false. cbv iota.
    rewrite List.filter_app, (indented_no_media " " body B). cbn [List.filter app].
    change (isMediaQuery "}") with false. cbv iota.
    induction (adjacentPairs modes) as [|[p m] l IH]; [reflexivity|].
    cbn [flat_map map fst]. rewrite List.filter_app, IH.
    now rewrite (stepped_block_query options _ _ _ _ (maxWidthQuery_media p)).
Qed.

(** The fixed output of [typoFoundations] holds one query. *)
Lemma stepped_one_query_per_transition_witness :
  exists lines st',
    generateSteppedCSS [desktopMode; mobileMode] typoVariables (exampleOptions Fixed Both)
                       emptyState = Some (lines, st')
    /\ List.filter isMediaQuery lines = ["@media (max-width: 1679px) {"].
Proof.
  destruct (generateSteppedCSS [desktopMode; mobileMode] typoVariables
              (exampleOptions Fixed Both) emptyState) as [[lines st']|] eqn:E.
  - exists lines, st'. split; [reflexivity|].
    exact (stepped_one_query_per_transition _ _ _ _ _ _ E).
  - vm_compute in E. discriminate E.
Defined.

(** ** Theme modes *)

Lemma findThemeMode_foldl (kw : string) (modes : list Mode) :
  forall acc,
    foldl (fun acc m => if JS.includes (JS.toLowerCase (m_name m)) kw then Some m else acc)
          acc modes
    = match last (List.filter (fun m => JS.includes (JS.toLowerCase (m_name m)) kw) modes) with
      | Some m => Some m
      | None => acc
      end.
Proof.
  induction modes as [|a l IH]; intros acc; [reflexivity|].
  cbn [foldl List.filter]. rewrite IH.
  destruct (JS.includes (JS.toLowerCase (m_name a)) kw); [|reflexivity].
  destruct (List.filter _ l) as [|b l']; [reflexivity|].
  change (last (a :: b :: l')) with (last (b :: l')).
  destruct (last (b :: l')) eqn:L; [reflexivity|].
  apply last_None in L. discriminate L.
Qed.

(** X26. The theme emitter takes as light (or dark) mode the last of the
    collection's modes whose lower-cased name contains the keyword, and
    none when no mode does. *)
Theorem findThemeMode_takes_last_match :
  forall kw modes,
    findThemeMode kw modes
    = last (List.filter (fun m => JS.includes (JS.toLowerCase (m_name m)) kw) modes).
Proof.
  intros kw modes. unfold findThemeMode. rewrite findThemeMode_foldl.
  now destruct (last _).
Qed.

(** Three example collections at once. *)
Lemma generateLines_returns_witness :
  exists lines errs,
    generateLines BREAKPOINT_MODES "" [typoFoundations; colorFoundations; colorAliases]
                  (exampleOptions Fluid Both) = Some (lines, errs).
Proof.
  apply generateLines_returns. split.
  - intros hc [<-|[<-|[<-|[]]]]; discriminate.
  - intros hc1 hc2 [<-|[<-|[<-|[]]]] [<-|[<-|[<-|[]]]] H;
      first [reflexivity | discriminate H].
Defined.

(** The two modes of [typoFoundations]. *)
Lemma fluid_extremes_are_widest_and_narrowest_witness :
  (bm_breakpointPx mobileMode <= bm_breakpointPx desktopMode <= bm_breakpointPx desktopMode)%Z.
Proof.
  apply (fluid_extremes_are_widest_and_narrowest BREAKPOINT_MODES
           (hc_collection typoFoundations) desktopMode mobileMode).
  - reflexivity.
  - reflexivity.
  - left. reflexivity.
Defined.
